(** * Verification of the app-configuration core of the CLI

    The development embeds, function by function, the parts of the
    TypeScript sources that the specification talks about:

    - [Webhooks]: the [superRefine] callback of [WebhooksSchema]
      (models/app/app.ts), the cross-record constraint validator;
    - [Rewrite]: [rewriteConfiguration] (services/app/config/link.ts),
      over an explicit store of JavaScript objects;
    - [AppModel]: [App.extensionsForType] and [App.updateExtensionUUIDS];
    - [UIExtension]: the [ui_extension] specification's
      [appModuleFeatures] and [shouldFetchCartUrl];

    and, around them, the functions that these call or are called by:

    - [Paths]: [ensurePathStartsWithSlash];
    - [Deploy]: [App.preDeployValidation] with
      [validateFunctionExtensionsWithUiHandle] and
      [findExtensionByHandle], and [App.hasExtensions];
    - [UIExtensionValidation]: [validateUIExtensionPointConfig] and
      [hasExtensionPointTarget];
    - [ConfigurationFile]: [writeAppConfigurationFile];
    - [Configuration]: [getAppScopes], [getAppScopesArray],
      [usesLegacyScopesBehavior], [getAccessScopes] and
      [mergeAppConfiguration];
    - [FunctionSpecification]: [deployConfig] and [readInputQuery] of
      the function specification. *)

From stdpp Require Import base strings list gmap sets.

#[local] Set Warnings "-register-all".

(** ** JavaScript strings that may be [undefined] *)

Module Js.

(** An optional string property: [None] is [undefined]. *)
Definition truthy (v : option string) : bool :=
  match v with
  | Some s => negb (String.eqb s "")
  | None => false
  end.

(** [a && b] on optional strings. *)
Definition and_ (a b : option string) : option string :=
  if truthy a then b else a.

(** [xs.filter(Boolean)]: the truthy entries, as strings. *)
Fixpoint filter_Boolean (xs : list (option string)) : list string :=
  match xs with
  | [] => []
  | Some s :: r => if String.eqb s "" then filter_Boolean r else s :: filter_Boolean r
  | None :: r => filter_Boolean r
  end.

(** [xs.join(d)]. *)
Fixpoint join (d : string) (xs : list string) : string :=
  match xs with
  | [] => ""
  | [x] => x
  | x :: r => x +:+ d +:+ join d r
  end.

(** Truthiness of a string value. *)
Definition nonempty (s : string) : bool := negb (String.eqb s "").

(** Template-literal interpolation of an optional string that is known
    to be truthy where it is used. *)
Definition str (v : option string) : string := default ""%string v.

(** The names of the members that an object has from [Object.prototype].
    Reading one of them off an object that has no property of its own of
    that name gives the inherited member: a function, and for
    [__proto__] the prototype itself. *)
Definition Object_prototype : list string :=
  ["constructor"; "hasOwnProperty"; "isPrototypeOf"; "propertyIsEnumerable";
   "toLocaleString"; "toString"; "valueOf"; "__proto__";
   "__defineGetter__"; "__defineSetter__"; "__lookupGetter__"; "__lookupSetter__"].

End Js.

(** ** The webhooks constraint validator *)

Module Webhooks.

Import Js.

(** [WebhookSubscriptionSchema]: one subscription record. *)
Record WebhookSubscription := {
  subscription_topic : string;
  subscription_sub_topic : option string;
  subscription_format : option string;
  subscription_include_fields : option (list string);
  subscription_metafield_namespaces : option (list string);
  subscription_subscription_endpoint_url : option string;
  subscription_path : option string;
  subscription_pubsub_project : option string;
  subscription_pubsub_topic : option string;
  subscription_arn : option string
}.

(** The object refined by [WebhooksSchema.superRefine]. *)
Record WebhooksConfig := {
  api_version : string;
  subscription_endpoint_url : option string;
  pubsub_project : option string;
  pubsub_topic : option string;
  arn : option string;
  topics : option (list string);
  subscriptions : option (list WebhookSubscription)
}.

(** Issue paths mix property names and array indices. *)
Inductive PathSegment :=
| PKey (k : string)
| PIndex (i : nat).

Record ZodIssue := {
  code : string;
  message : string;
  fatal : bool;
  path : list PathSegment
}.

(** The refinement context: the issues added so far.  A callback either
    runs to its end or leaves early with [zod.NEVER]. *)
Inductive Flow (A : Type) :=
| Next (a : A)
| NEVER.
Arguments Next {A} a.
Arguments NEVER {A}.

Definition Refine (A : Type) : Type := list ZodIssue → list ZodIssue * Flow A.

Definition ret {A} (a : A) : Refine A := λ ctx, (ctx, Next a).

Definition bind {A B} (m : Refine A) (k : A → Refine B) : Refine B :=
  λ ctx, match m ctx with
         | (ctx', Next a) => k a ctx'
         | (ctx', NEVER) => (ctx', NEVER)
         end.

Local Notation "'let*' x ':=' m 'in' k" := (bind m (λ x, k))
  (at level 10, x name, m at level 100, k at level 200).
Local Notation "m '>>' k" := (bind m (λ _, k))
  (at level 100, k at level 200, right associativity).

(** [ctx.addIssue(issue)] *)
Definition addIssue (i : ZodIssue) : Refine unit := λ ctx, (ctx ++ [i], Next tt).

(** [return zod.NEVER] *)
Definition return_NEVER {A} : Refine A := λ ctx, (ctx, NEVER).

(** [if (c) { ctx.addIssue(issue); return zod.NEVER }] *)
Definition reject_if (c : bool) (i : ZodIssue) : Refine unit :=
  if c then addIssue i >> return_NEVER else ret tt.

(** [for (const x of xs) body], threading the loop's mutable state. *)
Fixpoint for_of {A S} (body : S → A → Refine S) (s : S) (xs : list A) : Refine S :=
  match xs with
  | [] => ret s
  | x :: r => let* s' := body s x in for_of body s' r
  end.

(** [xs.entries()]: every element with its index, counting from [i]. *)
Fixpoint entries_from {A} (i : nat) (xs : list A) : list (nat * A) :=
  match xs with
  | [] => []
  | x :: r => (i, x) :: entries_from (S i) r
  end.

Definition entries {A} (xs : list A) : list (nat * A) := entries_from 0 xs.

Definition custom (msg : string) (p : list PathSegment) : ZodIssue :=
  {| code := "custom"; message := msg; fatal := true; path := p |}.

Definition getFullPubSubValidationError (suffix : string) : string :=
  "You must declare both pubsub_project and pubsub_topic if you wish to use " +:+ suffix.

Definition getTooManyDesignationsError (suffix : string) : string :=
  "You are only allowed to declare one (1) of subscription_endpoint_url, pubsub_project & pubsub_topic, or arn "
  +:+ suffix.

Definition msg_unused_destination : string :=
  "To use a top-level destination, you must also provide a `topics` array or `subscriptions` configuration".

Definition msg_topics_missing_destination : string :=
  "To use top-level topics, you must also provide a top-level destination of either subscription_endpoint_url, pubsub_project & pubsub_topic, or arn".

Definition msg_duplicate_subscription : string :=
  "You can’t have duplicate subscriptions with the exact same topic and destination".

Definition msg_missing_destination : string :=
  "You must declare either a top-level destination or a destination per subscription".

Definition msg_path_missing_endpoint : string :=
  "You must declare a subscription_endpoint_url if you wish to use a relative path".

Definition msg_path_with_incompatible_destination : string :=
  "You can’t define a path when using arn or pubsub".

Definition delimiter : string := "::".

(** [topLevelDestinations] (line 86). *)
Definition topLevelDestinations (d : WebhooksConfig) : list string :=
  filter_Boolean [subscription_endpoint_url d; and_ (pubsub_project d) (pubsub_topic d); arn d].

(** [topLevelDestination] (lines 133-135). *)
Definition topLevelDestination (d : WebhooksConfig) : string :=
  join delimiter
    (filter_Boolean [subscription_endpoint_url d; pubsub_project d; pubsub_topic d; arn d]).

(** Body of the loop over [topics] (lines 140-154). *)
Definition topic_step (tld : string) (seen : gset string) (topic : string)
  : Refine (gset string) :=
  let key := topic +:+ delimiter +:+ tld in
  reject_if (bool_decide (key ∈ seen))
    (custom msg_duplicate_subscription [PKey "topics"; PKey topic]) >>
  ret ({[key]} ∪ seen).

(** [subscriptionDestinations] of one record (lines 160-164). *)
Definition subscriptionDestinations (s : WebhookSubscription) : list string :=
  filter_Boolean [subscription_subscription_endpoint_url s;
                  and_ (subscription_pubsub_project s) (subscription_pubsub_topic s);
                  subscription_arn s].

(** [destination] as first computed for a record (lines 218-225). *)
Definition ownDestination (s : WebhookSubscription) : string :=
  join delimiter
    (filter_Boolean [subscription_subscription_endpoint_url s;
                     subscription_pubsub_project s;
                     subscription_pubsub_topic s;
                     subscription_arn s]).

(** [destination] after the top-level fallback and the path suffix
    (lines 227-235). *)
Definition destinationOf (d : WebhooksConfig) (s : WebhookSubscription) : string :=
  let destination := ownDestination s in
  let destination := if nonempty destination then destination else topLevelDestination d in
  if truthy (subscription_path s) then destination +:+ str (subscription_path s)
  else destination.

(** [key] of a record (line 237). *)
Definition subscriptionKey (d : WebhooksConfig) (s : WebhookSubscription) : string :=
  subscription_topic s +:+ delimiter +:+ destinationOf d s.

(** Body of the loop over [subscriptions.entries()] (lines 159-250). *)
Definition subscription_step (d : WebhooksConfig) (seen : gset string)
    (e : nat * WebhookSubscription) : Refine (gset string) :=
  let '(i, subscription) := e in
  let path := [PKey "subscriptions"; PIndex i] in
  reject_if
    (length (filter_Boolean [subscription_pubsub_project subscription;
                             subscription_pubsub_topic subscription]) =? 1)
    (custom (getFullPubSubValidationError "a pub sub destination") path) >>
  reject_if (1 <? length (subscriptionDestinations subscription))
    (custom (getTooManyDesignationsError "per subscription") path) >>
  reject_if
    (negb (0 <? length (topLevelDestinations d))
     && (length (subscriptionDestinations subscription) =? 0))
    (custom msg_missing_destination path) >>
  reject_if
    (negb (truthy (subscription_endpoint_url d))
     && negb (truthy (subscription_subscription_endpoint_url subscription))
     && truthy (subscription_path subscription))
    (custom msg_path_missing_endpoint path) >>
  reject_if
    ((truthy (subscription_arn subscription) || truthy (subscription_pubsub_project subscription))
     && truthy (subscription_path subscription))
    (custom msg_path_with_incompatible_destination path) >>
  let key := subscriptionKey d subscription in
  reject_if (bool_decide (key ∈ seen))
    (custom msg_duplicate_subscription (path ++ [PKey (subscription_topic subscription)])) >>
  ret ({[key]} ∪ seen).

(** The callback passed to [superRefine] (lines 85-252). *)
Definition superRefine (d : WebhooksConfig) : Refine unit :=
  let topics := default [] (topics d) in
  let subscriptions := default [] (subscriptions d) in
  reject_if (length (filter_Boolean [pubsub_project d; pubsub_topic d]) =? 1)
    (custom (getFullPubSubValidationError "a top-level pub sub destination") []) >>
  reject_if (1 <? length (topLevelDestinations d))
    (custom (getTooManyDesignationsError "at the top level") []) >>
  reject_if
    ((0 <? length (topLevelDestinations d))
     && negb (0 <? length topics) && negb (0 <? length subscriptions))
    (custom msg_unused_destination []) >>
  reject_if (negb (0 <? length (topLevelDestinations d)) && (0 <? length topics))
    (custom msg_topics_missing_destination [PKey "topics"]) >>
  let* seen :=
    if nonempty (topLevelDestination d) && (0 <? length topics)
    then for_of (topic_step (topLevelDestination d)) ∅ topics
    else ret ∅ in
  let* _ :=
    if 0 <? length subscriptions
    then for_of (subscription_step d) seen (entries subscriptions)
    else ret seen in
  ret tt.

(** The issues the refinement reports on a document. *)
Definition issues (d : WebhooksConfig) : list ZodIssue := fst (superRefine d []).

(** The refinement accepts a document when it adds no issue. *)
Definition validates (d : WebhooksConfig) : Prop := issues d = [].

Definition mkSubscription (topic : string) (url path project ptopic arn_ : option string)
  : WebhookSubscription :=
  {| subscription_topic := topic;
     subscription_sub_topic := None;
     subscription_format := None;
     subscription_include_fields := None;
     subscription_metafield_namespaces := None;
     subscription_subscription_endpoint_url := url;
     subscription_path := path;
     subscription_pubsub_project := project;
     subscription_pubsub_topic := ptopic;
     subscription_arn := arn_ |}.

Definition doc_one_topic : WebhooksConfig :=
  {| api_version := "2024-01";
     subscription_endpoint_url := Some "https://a.com";
     pubsub_project := None; pubsub_topic := None; arn := None;
     topics := Some ["orders/create"];
     subscriptions := None |}.

Definition doc_two_topics : WebhooksConfig :=
  {| api_version := "2024-01";
     subscription_endpoint_url := Some "https://a.com";
     pubsub_project := None; pubsub_topic := None; arn := None;
     topics := Some ["orders/create"; "orders/create"];
     subscriptions := None |}.

(** *** The documented check order, as a pure function

    Section 4.3 of the specification lists the checks in order; the
    definitions below follow its wording (a field is "set" when it is
    truthy) and are compared with [superRefine] in
    [issues_first_violation]. *)

Definition check (c : bool) (i : ZodIssue) : option ZodIssue :=
  if c then Some i else None.

Fixpoint first_some {A} (l : list (option A)) : option A :=
  match l with
  | [] => None
  | Some a :: _ => Some a
  | None :: r => first_some r
  end.

Definition b2n (b : bool) : nat := if b then 1 else 0.

(** Exactly one of the pubsub project and topic is set. *)
Definition incomplete_pair (project topic_ : option string) : bool :=
  xorb (truthy project) (truthy topic_).

(** How many of endpoint URL, pubsub pair and resource identifier are set. *)
Definition destination_count (url project topic_ arn_ : option string) : nat :=
  b2n (truthy url) + b2n (truthy project && truthy topic_) + b2n (truthy arn_).

Definition top_count (d : WebhooksConfig) : nat :=
  destination_count (subscription_endpoint_url d) (pubsub_project d) (pubsub_topic d) (arn d).

Definition record_count (s : WebhookSubscription) : nat :=
  destination_count (subscription_subscription_endpoint_url s)
    (subscription_pubsub_project s) (subscription_pubsub_topic s) (subscription_arn s).

Definition topics_of (d : WebhooksConfig) : list string := default [] (topics d).
Definition subscriptions_of (d : WebhooksConfig) : list WebhookSubscription :=
  default [] (subscriptions d).

(** Steps 1 to 4. *)
Definition top_level_violation (d : WebhooksConfig) : option ZodIssue :=
  first_some
    [ check (incomplete_pair (pubsub_project d) (pubsub_topic d))
        (custom (getFullPubSubValidationError "a top-level pub sub destination") []);
      check (1 <? top_count d)
        (custom (getTooManyDesignationsError "at the top level") []);
      check ((0 <? top_count d)
             && (length (topics_of d) =? 0) && (length (subscriptions_of d) =? 0))
        (custom msg_unused_destination []);
      check ((top_count d =? 0) && (0 <? length (topics_of d)))
        (custom msg_topics_missing_destination [PKey "topics"]) ].

(** Step 5: the first top-level topic whose key was already seen, or
    else the keys of all top-level topics. *)
Fixpoint topics_scan (tld : string) (seen : gset string) (ts : list string)
  : ZodIssue + gset string :=
  match ts with
  | [] => inr seen
  | t :: r =>
      let key := t +:+ delimiter +:+ tld in
      if bool_decide (key ∈ seen)
      then inl (custom msg_duplicate_subscription [PKey "topics"; PKey t])
      else topics_scan tld ({[key]} ∪ seen) r
  end.

(** Steps 6a to 6d for the record at index [i], in the order the code
    runs them. *)
Definition record_violation (d : WebhooksConfig) (i : nat) (s : WebhookSubscription)
  : option ZodIssue :=
  let p := [PKey "subscriptions"; PIndex i] in
  first_some
    [ check (incomplete_pair (subscription_pubsub_project s) (subscription_pubsub_topic s))
        (custom (getFullPubSubValidationError "a pub sub destination") p);
      check (1 <? record_count s)
        (custom (getTooManyDesignationsError "per subscription") p);
      check ((top_count d =? 0) && (record_count s =? 0))
        (custom msg_missing_destination p);
      check (negb (truthy (subscription_endpoint_url d))
             && negb (truthy (subscription_subscription_endpoint_url s))
             && truthy (subscription_path s))
        (custom msg_path_missing_endpoint p);
      check ((truthy (subscription_arn s) || truthy (subscription_pubsub_project s))
             && truthy (subscription_path s))
        (custom msg_path_with_incompatible_destination p) ].

(** Step 6 over the records in order, from index [i]. *)
Fixpoint records_scan (d : WebhooksConfig) (seen : gset string) (i : nat)
    (subs : list WebhookSubscription) : ZodIssue + gset string :=
  match subs with
  | [] => inr seen
  | s :: r =>
      match record_violation d i s with
      | Some e => inl e
      | None =>
          let key := subscriptionKey d s in
          if bool_decide (key ∈ seen)
          then inl (custom msg_duplicate_subscription
                      [PKey "subscriptions"; PIndex i; PKey (subscription_topic s)])
          else records_scan d ({[key]} ∪ seen) (S i) r
      end
  end.

(** Steps 1 to 5, then step 6 on the records [subs], chained. *)
Definition violation_upto (d : WebhooksConfig) (subs : list WebhookSubscription)
  : option ZodIssue :=
  match top_level_violation d with
  | Some e => Some e
  | None =>
      match topics_scan (topLevelDestination d) ∅ (topics_of d) with
      | inl e => Some e
      | inr seen =>
          match records_scan d seen 0 subs with
          | inl e => Some e
          | inr _ => None
          end
      end
  end.

(** The first violation in the documented order. *)
Definition first_violation (d : WebhooksConfig) : option ZodIssue :=
  violation_upto d (subscriptions_of d).

(** Every check that runs before the records in [pre] are left behind
    passes: steps 1 to 5, and step 6 on [pre]. *)
Definition checks_pass_before (d : WebhooksConfig) (pre : list WebhookSubscription) : Prop :=
  violation_upto d pre = None.

(** A record passes steps 6a to 6d (the index only labels the issue). *)
Definition record_checks_pass (d : WebhooksConfig) (s : WebhookSubscription) : Prop :=
  record_violation d 0 s = None.

(** The record's effective destination (lines 218-230): its own
    destination fields when any is set, else the top-level ones. *)
Definition effectiveDestination (d : WebhooksConfig) (s : WebhookSubscription) : string :=
  if nonempty (ownDestination s) then ownDestination s else topLevelDestination d.

(** The path component of a record's key: present when truthy. *)
Definition pathOf (s : WebhookSubscription) : option string :=
  if truthy (subscription_path s) then subscription_path s else None.

(** Subscription keys as triples. *)
Definition recordTriple (d : WebhooksConfig) (s : WebhookSubscription)
  : string * string * option string :=
  (subscription_topic s, effectiveDestination d s, pathOf s).

Definition topicTriple (d : WebhooksConfig) (t : string)
  : string * string * option string :=
  (t, topLevelDestination d, None).

(** An arn or pubsub destination is the one in effect for the record. *)
Definition arn_or_pubsub_in_effect (d : WebhooksConfig) (s : WebhookSubscription) : bool :=
  if nonempty (ownDestination s)
  then truthy (subscription_arn s) || truthy (subscription_pubsub_project s)
       || truthy (subscription_pubsub_topic s)
  else truthy (arn d) || truthy (pubsub_project d) || truthy (pubsub_topic d).

(** The validation fails with message [m]. *)
Definition fails_with (m : string) (d : WebhooksConfig) : Prop :=
  ∃ e, e ∈ issues d ∧ message e = m.

(** What the refinement reports for a first violation, if any. *)
Definition reported {A} (o : option A) : list A :=
  match o with Some a => [a] | None => [] end.

(** The key of a top-level topic (line 141). *)
Definition topicKey (tld t : string) : string := t +:+ delimiter +:+ tld.

(** A scan that stops on the duplicate-subscription issue. *)
Definition is_duplicate (r : ZodIssue + gset string) : Prop :=
  ∃ e, r = inl e ∧ message e = msg_duplicate_subscription.

(** *** Documents and records used as examples *)

(** [{subscriptions: [{topic: "t", pubsub_project: "p"}]}] *)
Definition doc_project_only : WebhooksConfig :=
  {| api_version := "2024-01";
     subscription_endpoint_url := None;
     pubsub_project := None; pubsub_topic := None; arn := None;
     topics := None;
     subscriptions := Some [mkSubscription "t" None None (Some "p") None None] |}.

Definition doc_record_twice : WebhooksConfig :=
  {| api_version := "2024-01";
     subscription_endpoint_url := Some "https://a.com";
     pubsub_project := None; pubsub_topic := None; arn := None;
     topics := None;
     subscriptions :=
       Some [mkSubscription "orders/create" None (Some "/hook") None None None;
             mkSubscription "orders/create" (Some "https://a.com") (Some "/hook")
               None None None] |}.

Definition arn_example : string :=
  "arn:aws:events:us-west-2::event-source/aws.partner/shopify.com/1234567890/webhooks_path".

Definition doc_many_violations : WebhooksConfig :=
  {| api_version := "2024-01";
     subscription_endpoint_url := Some "https://a.com";
     pubsub_project := Some "my-project"; pubsub_topic := None;
     arn := Some arn_example;
     topics := None;
     subscriptions :=
       Some [mkSubscription "orders/create" None (Some "/hook") (Some "p") None
               (Some arn_example)] |}.

Definition record_path_only : WebhookSubscription :=
  mkSubscription "orders/create" None (Some "/hook") None None None.

Definition doc_top_arn_path : WebhooksConfig :=
  {| api_version := "2024-01";
     subscription_endpoint_url := None;
     pubsub_project := None; pubsub_topic := None;
     arn := Some arn_example;
     topics := None;
     subscriptions := Some [record_path_only] |}.

Definition record_arn_path : WebhookSubscription :=
  mkSubscription "orders/create" None (Some "/hook") None None (Some arn_example).

Definition doc_url_record_arn_path : WebhooksConfig :=
  {| api_version := "2024-01";
     subscription_endpoint_url := Some "https://a.com";
     pubsub_project := None; pubsub_topic := None; arn := None;
     topics := Some ["products/create"];
     subscriptions := Some [record_path_only; record_arn_path] |}.

Definition record_project_arn : WebhookSubscription :=
  mkSubscription "orders/create" None None (Some "my-project") None (Some arn_example).

Definition doc_record_project_arn : WebhooksConfig :=
  {| api_version := "2024-01";
     subscription_endpoint_url := None;
     pubsub_project := None; pubsub_topic := None; arn := None;
     topics := None;
     subscriptions := Some [record_project_arn] |}.

Definition record_project_topic_arn : WebhookSubscription :=
  mkSubscription "orders/create" None None (Some "my-project") (Some "my-topic")
    (Some arn_example).

Definition doc_record_project_topic_arn : WebhooksConfig :=
  {| api_version := "2024-01";
     subscription_endpoint_url := Some "https://a.com";
     pubsub_project := None; pubsub_topic := None; arn := None;
     topics := None;
     subscriptions := Some [record_project_topic_arn] |}.

Definition doc_path_no_destination : WebhooksConfig :=
  {| api_version := "2024-01";
     subscription_endpoint_url := None;
     pubsub_project := None; pubsub_topic := None; arn := None;
     topics := None;
     subscriptions := Some [record_path_only] |}.

End Webhooks.

(** ** The configuration rewriter *)

Module Rewrite.

(** The zod schema nodes that [rewriteConfiguration] tells apart with
    [instanceof], and some of those it does not. *)
Inductive ZodSchema :=
| ZodAbsent
| ZodString
| ZodNumber
| ZodBoolean
| ZodEnum (values : list string)
| ZodEffects (inner : ZodSchema)
| ZodNullable (inner : ZodSchema)
| ZodOptional (inner : ZodSchema)
| ZodArray (element : ZodSchema)
| ZodObject (shape : list (string * ZodSchema)).

(** JavaScript values.  [VObject] is an object of the configuration
    being read, which the rewriter never writes to; [VRef] points to an
    object created by the rewriter, held in the store because the
    rewriter mutates it and hands the same reference out several times. *)
Inductive Value :=
| VUndefined
| VNull
| VBoolean (b : bool)
| VNumber (n : Z)
| VString (s : string)
| VArray (items : list Value)
| VObject (fields : list (string * Value))
| VRef (l : nat).

(** An object's own properties, in insertion order.  Property names are
    taken to be field names of a configuration: not array indices, which
    JavaScript would enumerate first, and not names of built-in members. *)
Abbreviation JsObject := (list (string * Value)).

Abbreviation Store := (list JsObject).

(** [o[k]] *)
Fixpoint get (k : string) (o : JsObject) : Value :=
  match o with
  | [] => VUndefined
  | (k', v) :: r => if String.eqb k k' then v else get k r
  end.

(** [o[k] = v]: an existing property keeps its place, a new one goes last. *)
Fixpoint set (k : string) (v : Value) (o : JsObject) : JsObject :=
  match o with
  | [] => [(k, v)]
  | (k', v') :: r => if String.eqb k k' then (k, v) :: r else (k', v') :: set k v r
  end.

(** [delete o[k]] *)
Fixpoint remove (k : string) (o : JsObject) : JsObject :=
  match o with
  | [] => []
  | (k', v') :: r => if String.eqb k k' then remove k r else (k', v') :: remove k r
  end.

Definition is_undefined (v : Value) : bool :=
  match v with VUndefined => true | _ => false end.

(** Computations on the store that may throw a [TypeError] ([None]). *)
Definition M (A : Type) : Type := Store → option (A * Store).

Definition ret {A} (a : A) : M A := λ σ, Some (a, σ).

Definition bind {A B} (m : M A) (k : A → M B) : M B :=
  λ σ, match m σ with
       | Some (a, σ') => k a σ'
       | None => None
       end.

Definition throw {A} : M A := λ _, None.

Local Notation "'let*' x ':=' m 'in' k" := (bind m (λ x, k))
  (at level 10, x name, m at level 100, k at level 200).
Local Notation "m '>>' k" := (bind m (λ _, k))
  (at level 100, k at level 200, right associativity).

(** The literal [{}]: a new empty object. *)
Definition new_object : M Value := λ σ, Some (VRef (length σ), σ ++ [[]]).

(** [target[k]].  Reading a property of [undefined] or [null] throws;
    a boolean, a number, a string or an array has no property named
    like a configuration field. *)
Definition read (target : Value) (k : string) : M Value :=
  λ σ, match target with
       | VUndefined | VNull => None
       | VObject o => Some (get k o, σ)
       | VRef l => match σ !! l with
                   | Some o => Some (get k o, σ)
                   | None => None
                   end
       | VBoolean _ | VNumber _ | VString _ | VArray _ => Some (VUndefined, σ)
       end.

(** [target[k] = v] on an object of the store. *)
Definition write (target : Value) (k : string) (v : Value) : M unit :=
  λ σ, match target with
       | VRef l => match σ !! l with
                   | Some o => Some (tt, <[l := set k v o]> σ)
                   | None => None
                   end
       | _ => None
       end.

(** [delete target[k]] on an object of the store. *)
Definition delete_property (target : Value) (k : string) : M unit :=
  λ σ, match target with
       | VRef l => match σ !! l with
                   | Some o => Some (tt, <[l := remove k o]> σ)
                   | None => None
                   end
       | _ => None
       end.

(** [v instanceof Object && Object.keys(v).length === 0] *)
Definition is_empty_Object (v : Value) : M bool :=
  λ σ, match v with
       | VArray items => Some (length items =? 0, σ)
       | VObject o => Some (length o =? 0, σ)
       | VRef l => match σ !! l with
                   | Some o => Some (length o =? 0, σ)
                   | None => None
                   end
       | _ => Some (false, σ)
       end.

(** [xs.map(f)] with a callback that works on the store. *)
Definition map {A B} (f : A → M B) : list A → M (list B) :=
  fix go xs :=
    match xs with
    | [] => ret []
    | x :: r =>
        let* v := f x in
        let* vs := go r in
        ret (v :: vs)
    end.

(** [xs.forEach(f)] *)
Definition forEach {A} (f : A → M unit) : list A → M unit :=
  fix go xs :=
    match xs with
    | [] => ret tt
    | x :: r => f x >> go r
    end.

(** [rewriteConfiguration] (link.ts, lines 90-113). *)
Fixpoint rewriteConfiguration (schema : ZodSchema) (config result : Value) {struct schema}
  : M Value :=
  match schema with
  | ZodAbsent => ret VNull
  | ZodNullable inner | ZodOptional inner => rewriteConfiguration inner config result
  | ZodArray element =>
      match config with
      | VArray items =>
          let* mapped := map (λ item, rewriteConfiguration element item result) items in
          ret (VArray mapped)
      | _ => throw
      end
  | ZodObject shape =>
      let confObj := config in
      let resultObj := result in
      forEach
        (λ '(key, subSchema),
           if negb (is_undefined confObj)
           then
             let* c := read confObj key in
             if negb (is_undefined c)
             then
               let* fresh := new_object in
               let* v := rewriteConfiguration subSchema c fresh in
               write resultObj key v >>
               let* stored := read resultObj key in
               let* empty := is_empty_Object stored in
               if empty then delete_property resultObj key else ret tt
             else ret tt
           else ret tt)
        shape >>
      ret result
  | ZodString | ZodNumber | ZodBoolean | ZodEnum _ | ZodEffects _ => ret config
  end.

(** What the callback above does for a property that is there (lines
    103-106), named for the proofs. *)
Definition rewrite_field (resultObj : Value) (key : string) (subSchema : ZodSchema)
    (c : Value) : M unit :=
  let* fresh := new_object in
  let* v := rewriteConfiguration subSchema c fresh in
  write resultObj key v >>
  let* stored := read resultObj key in
  let* empty := is_empty_Object stored in
  if empty then delete_property resultObj key else ret tt.

(** The callback of [forEach] in the object branch, for given
    [confObj] and [resultObj], named for the proofs. *)
Definition rewrite_entry (confObj resultObj : Value) : string * ZodSchema → M unit :=
  λ '(key, subSchema),
    if negb (is_undefined confObj)
    then
      let* c := read confObj key in
      if negb (is_undefined c)
      then
        let* fresh := new_object in
        let* v := rewriteConfiguration subSchema c fresh in
        write resultObj key v >>
        let* stored := read resultObj key in
        let* empty := is_empty_Object stored in
        if empty then delete_property resultObj key else ret tt
      else ret tt
    else ret tt.

(** The call of [writeAppConfigurationFile]:
    [rewriteConfiguration(schema, configuration, {})]. *)
Definition rewrite (schema : ZodSchema) (config : Value) : M Value :=
  let* result := new_object in
  rewriteConfiguration schema config result.

(** The value a reference stands for, read out of the store down to
    [depth] levels of nesting; deeper parts are cut to [VUndefined]. *)
Fixpoint snapshot (depth : nat) (σ : Store) (v : Value) : Value :=
  match depth with
  | 0 => VUndefined
  | S n =>
      match v with
      | VArray items => VArray (List.map (snapshot n σ) items)
      | VObject o => VObject (List.map (λ kv, (kv.1, snapshot n σ kv.2)) o)
      | VRef l => VObject (List.map (λ kv, (kv.1, snapshot n σ kv.2)) (default [] (σ !! l)))
      | _ => v
      end
  end.

(** Whether a value has the type a schema describes. *)
Fixpoint conforms (schema : ZodSchema) (v : Value) {struct schema} : bool :=
  match schema with
  | ZodAbsent => false
  | ZodString => match v with VString _ => true | _ => false end
  | ZodNumber => match v with VNumber _ => true | _ => false end
  | ZodBoolean => match v with VBoolean _ => true | _ => false end
  | ZodEnum values =>
      match v with VString s => existsb (String.eqb s) values | _ => false end
  | ZodEffects inner => conforms inner v
  | ZodNullable inner => match v with VNull => true | _ => conforms inner v end
  | ZodOptional inner => match v with VUndefined => true | _ => conforms inner v end
  | ZodArray element =>
      match v with
      | VArray items => forallb (conforms element) items
      | _ => false
      end
  | ZodObject shape =>
      match v with
      | VObject o =>
          (fix all (entries : list (string * ZodSchema)) : bool :=
             match entries with
             | [] => true
             | (key, subSchema) :: r => conforms subSchema (get key o) && all r
             end) shape
      | _ => false
      end
  end.

(** The schema
    [zod.array(zod.object({a: zod.string().optional(), b: zod.string().optional()}))]. *)
Definition schema_ab : ZodSchema :=
  ZodArray (ZodObject [("a", ZodOptional ZodString); ("b", ZodOptional ZodString)]).

(** The configuration [[{b: "2"}, {a: "1"}]]. *)
Definition config_b_a : Value :=
  VArray [VObject [("b", VString "2")]; VObject [("a", VString "1")]].

(** Rewriting [config], then rewriting the result again, in the same
    store: the two results as plain values. *)
Definition rewrite_twice (schema : ZodSchema) (config : Value) : option (Value * Value) :=
  match rewrite schema config [] with
  | Some (out1, σ1) =>
      match rewrite schema out1 σ1 with
      | Some (out2, σ2) => Some (snapshot 8 σ1 out1, snapshot 8 σ2 out2)
      | None => None
      end
  | None => None
  end.

(** The configuration [[{a: "1"}, {b: "2"}]]: the same records, the
    other way round. *)
Definition config_a_b : Value :=
  VArray [VObject [("a", VString "1")]; VObject [("b", VString "2")]].

(** The property names of an object of the store, in order. *)
Definition keys_at (σ : Store) (l : nat) : list string :=
  List.map fst (default [] (σ !! l)).

(** The field names a schema declares for the elements of an array of
    objects, in order. *)
Definition declared_element_keys (schema : ZodSchema) : list string :=
  match schema with
  | ZodArray (ZodObject shape) => List.map fst shape
  | _ => []
  end.

(** The stores left by rewriting [config_b_a] and [config_a_b]. *)
Definition store_b_a : Store := [[("b", VString "2"); ("a", VString "1")]; []; []].
Definition store_a_b : Store := [[("a", VString "1"); ("b", VString "2")]; []; []].

Definition object_b_a : Value := VObject [("b", VString "2"); ("a", VString "1")].
Definition object_a_b : Value := VObject [("a", VString "1"); ("b", VString "2")].

(** *** The schema of the repository's own call

    [AppSchema] (models/app/app.ts, lines 255-299) and the schemas it is
    built from, as [rewriteConfiguration] sees them: [refine] and
    [superRefine] wrap a schema in a [ZodEffects]; [url], [max],
    [regex], [nonempty] and [strict] leave its class as it is. *)

(** [validateUrl(zod.string(), ...)] and [ensureHttpsOnlyUrl] (lines 23-35). *)
Definition validateUrl : ZodSchema := ZodEffects (ZodEffects ZodString).
Definition ensureHttpsOnlyUrl : ZodSchema := ZodEffects validateUrl.

(** [WebhookSubscriptionSchema] (lines 48-64). *)
Definition WebhookSubscriptionSchema : ZodSchema :=
  ZodObject
    [("topic", ZodString);
     ("sub_topic", ZodOptional ZodString);
     ("format", ZodOptional (ZodEnum ["json"; "xml"]));
     ("include_fields", ZodOptional (ZodArray ZodString));
     ("metafield_namespaces", ZodOptional (ZodArray ZodString));
     ("subscription_endpoint_url", ZodOptional ensureHttpsOnlyUrl);
     ("path", ZodOptional (ZodEffects ZodString));
     ("pubsub_project", ZodOptional ZodString);
     ("pubsub_topic", ZodOptional ZodString);
     ("arn", ZodOptional ZodString)].

(** [WebhooksSchema] (lines 66-253): an object schema under [superRefine]. *)
Definition WebhooksSchema : ZodSchema :=
  ZodEffects
    (ZodObject
       [("api_version", ZodString);
        ("privacy_compliance",
          ZodOptional
            (ZodObject
               [("customer_deletion_url", ZodOptional ensureHttpsOnlyUrl);
                ("customer_data_request_url", ZodOptional ensureHttpsOnlyUrl);
                ("shop_deletion_url", ZodOptional ensureHttpsOnlyUrl)]));
        ("subscription_endpoint_url", ZodOptional ensureHttpsOnlyUrl);
        ("pubsub_project", ZodOptional ZodString);
        ("pubsub_topic", ZodOptional ZodString);
        ("arn", ZodOptional ZodString);
        ("topics", ZodOptional (ZodArray ZodString));
        ("subscriptions", ZodOptional (ZodArray WebhookSubscriptionSchema))]).

(** [AppSchema] (lines 255-299). *)
Definition AppSchema : ZodSchema :=
  ZodObject
    [("name", ZodString);
     ("client_id", ZodString);
     ("application_url", validateUrl);
     ("embedded", ZodBoolean);
     ("access_scopes",
       ZodOptional
         (ZodObject
            [("scopes", ZodOptional ZodString);
             ("use_legacy_install_flow", ZodOptional ZodBoolean)]));
     ("auth", ZodOptional (ZodObject [("redirect_urls", ZodArray validateUrl)]));
     ("webhooks", WebhooksSchema);
     ("app_proxy",
       ZodOptional
         (ZodObject [("url", validateUrl); ("subpath", ZodString); ("prefix", ZodString)]));
     ("pos", ZodOptional (ZodObject [("embedded", ZodBoolean)]));
     ("app_preferences", ZodOptional (ZodObject [("url", validateUrl)]));
     ("build",
       ZodOptional
         (ZodObject
            [("automatically_update_urls_on_dev", ZodOptional ZodBoolean);
             ("dev_store_url", ZodOptional ZodString)]));
     ("extension_directories", ZodOptional (ZodArray ZodString));
     ("web_directories", ZodOptional (ZodArray ZodString))].

(** A configuration with the fields [mergeAppConfiguration] sets, in
    another order, with an empty [build] table and an empty list of
    extension directories. *)
Definition config_example : Value :=
  VObject
    [("webhooks", VObject [("api_version", VString "2023-07")]);
     ("build", VObject []);
     ("extension_directories", VArray []);
     ("pos", VObject [("embedded", VBoolean false)]);
     ("access_scopes",
       VObject [("use_legacy_install_flow", VBoolean true); ("scopes", VString "read_products")]);
     ("embedded", VBoolean true);
     ("application_url", VString "https://myapp.com");
     ("name", VString "my app");
     ("client_id", VString "api-key")].

(** What rewriting [config_example] gives. *)
Definition config_example_rewritten : Value :=
  VObject
    [("name", VString "my app");
     ("client_id", VString "api-key");
     ("application_url", VString "https://myapp.com");
     ("embedded", VBoolean true);
     ("access_scopes",
       VObject [("scopes", VString "read_products"); ("use_legacy_install_flow", VBoolean true)]);
     ("webhooks", VObject [("api_version", VString "2023-07")]);
     ("pos", VObject [("embedded", VBoolean false)])].

(** *** The rewriting as a function on plain values

    What [rewriteConfiguration] is meant to compute (specification,
    section 4.5): objects rebuilt field by field in the schema's order,
    arrays element by element, sub-objects that come out empty left out.
    No store: every object is a new value. *)

(** [xs.map(f)] for a callback that may throw. *)
Definition traverse {A B} (f : A → option B) : list A → option (list B) :=
  fix go xs :=
    match xs with
    | [] => Some []
    | x :: r =>
        match f x with
        | Some v => match go r with Some vs => Some (v :: vs) | None => None end
        | None => None
        end
    end.

(** [confObj !== undefined && confObj[key]] on a plain value: the
    property, [VUndefined] when there is none to read, [None] for the
    [TypeError] of reading a property of [null]. *)
Definition field_of (confObj : Value) (key : string) : option Value :=
  match confObj with
  | VNull | VRef _ => None
  | VObject o => Some (get key o)
  | _ => Some VUndefined
  end.

(** [v instanceof Object && Object.keys(v).length === 0] on a plain value. *)
Definition is_empty_value (v : Value) : bool :=
  match v with
  | VArray [] | VObject [] => true
  | _ => false
  end.

Definition reshape_fields (rec : ZodSchema → Value → option Value) (confObj : Value)
  : list (string * ZodSchema) → option (list (string * Value)) :=
  fix go entries :=
    match entries with
    | [] => Some []
    | (key, subSchema) :: r =>
        match field_of confObj key with
        | None => None
        | Some c =>
            if is_undefined c then go r
            else
              match rec subSchema c with
              | None => None
              | Some v =>
                  match go r with
                  | None => None
                  | Some rest => Some (if is_empty_value v then rest else (key, v) :: rest)
                  end
              end
        end
    end.

Fixpoint reshape (schema : ZodSchema) (config : Value) {struct schema} : option Value :=
  match schema with
  | ZodAbsent => Some VNull
  | ZodNullable inner | ZodOptional inner => reshape inner config
  | ZodArray element =>
      match config with
      | VArray items => option_map VArray (traverse (reshape element) items)
      | _ => None
      end
  | ZodObject shape => option_map VObject (reshape_fields reshape config shape)
  | ZodString | ZodNumber | ZodBoolean | ZodEnum _ | ZodEffects _ => Some config
  end.

(** A value without references into the store. *)
Fixpoint plain (v : Value) : bool :=
  match v with
  | VRef _ => false
  | VArray items => forallb plain items
  | VObject o => forallb (λ kv, plain kv.2) o
  | _ => true
  end.

(** No object schema at or below this node. *)
Fixpoint object_free (schema : ZodSchema) : bool :=
  match schema with
  | ZodObject _ => false
  | ZodNullable inner | ZodOptional inner => object_free inner
  | ZodArray element => object_free element
  | _ => true
  end.

(** No array of objects: below every array node there is no object
    schema. *)
Fixpoint arrays_flat (schema : ZodSchema) : bool :=
  match schema with
  | ZodNullable inner | ZodOptional inner => arrays_flat inner
  | ZodArray element => object_free element
  | ZodObject shape => forallb (λ kv, arrays_flat kv.2) shape
  | _ => true
  end.

Fixpoint distinct (keys : list string) : bool :=
  match keys with
  | [] => true
  | k :: r => negb (existsb (String.eqb k) r) && distinct r
  end.

(** The shapes are JavaScript objects: no property name occurs twice. *)
Fixpoint shapes_ok (schema : ZodSchema) : bool :=
  match schema with
  | ZodNullable inner | ZodOptional inner => shapes_ok inner
  | ZodArray element => shapes_ok element
  | ZodObject shape =>
      distinct (List.map fst shape) && forallb (λ kv, shapes_ok kv.2) shape
  | _ => true
  end.

(** The plain value that a value with references stands for; the
    references are to objects at or above [lo]. *)
Inductive represents (lo : nat) (σ : Store) : Value → Value → Prop :=
| represents_plain v :
    plain v = true → represents lo σ v v
| represents_ref l o fs :
    lo ≤ l → σ !! l = Some o → fields_represent lo σ o fs →
    represents lo σ (VRef l) (VObject fs)
with fields_represent (lo : nat) (σ : Store) : JsObject → list (string * Value) → Prop :=
| fields_represent_nil : fields_represent lo σ [] []
| fields_represent_cons k x y o fs :
    represents lo σ x y → fields_represent lo σ o fs →
    fields_represent lo σ ((k, x) :: o) ((k, y) :: fs).

(** Induction on both judgements at once. *)
Scheme represents_mut := Minimality for represents Sort Prop
with fields_represent_mut := Minimality for fields_represent Sort Prop.
Combined Scheme represents_mutual from represents_mut, fields_represent_mut.

(** What a call leaves of the store it started from: nothing is
    removed, and only the object at [l] may have changed. *)
Definition frame (l : nat) (σ σ' : Store) : Prop :=
  length σ ≤ length σ'
  ∧ ∀ l', l' < length σ → l' ≠ l → σ' !! l' = σ !! l'.

(** The result [x] of a call, started in [σ] with the result object at
    [l], stands for the plain value [y]: it is [y] itself, or it is the
    result object, whose fields stand for the fields of [y]. *)
Definition filled (σ : Store) (l : nat) (σ' : Store) (x y : Value) : Prop :=
  (x = y ∧ plain y = true)
  ∨ (x = VRef l
     ∧ ∃ o fs, y = VObject fs ∧ σ' !! l = Some o ∧ fields_represent (length σ) σ' o fs).

(** On a plain configuration and an empty result object,
    [rewriteConfiguration] computes [reshape]. *)
Definition refines (schema : ZodSchema) : Prop :=
  ∀ c l σ,
    plain c = true → σ !! l = Some [] →
    match reshape schema c with
    | None => rewriteConfiguration schema c (VRef l) σ = None
    | Some y =>
        ∃ x σ', rewriteConfiguration schema c (VRef l) σ = Some (x, σ')
                ∧ frame l σ σ' ∧ filled σ l σ' x y
    end.

(** Neither an object nor an array schema at or below this node. *)
Fixpoint leaf_only (schema : ZodSchema) : bool :=
  match schema with
  | ZodObject _ | ZodArray _ => false
  | ZodEffects inner | ZodNullable inner | ZodOptional inner => leaf_only inner
  | _ => true
  end.

(** The refinements of the schema are on strings, numbers, booleans and
    enums only: no object and no array schema lies under a
    [ZodEffects] node. *)
Fixpoint effects_on_leaves (schema : ZodSchema) : bool :=
  match schema with
  | ZodEffects inner => leaf_only inner
  | ZodNullable inner | ZodOptional inner => effects_on_leaves inner
  | ZodArray element => effects_on_leaves element
  | ZodObject shape => forallb (λ kv, effects_on_leaves kv.2) shape
  | _ => true
  end.

(** The schema as far as [rewriteConfiguration] looks into it: a
    [ZodEffects] node is none of the classes it tests for, so what lies
    under it is cut off. *)
Fixpoint seen (schema : ZodSchema) : ZodSchema :=
  match schema with
  | ZodEffects _ => ZodEffects ZodAbsent
  | ZodNullable inner => ZodNullable (seen inner)
  | ZodOptional inner => ZodOptional (seen inner)
  | ZodArray element => ZodArray (seen element)
  | ZodObject shape => ZodObject (List.map (λ kv, (kv.1, seen kv.2)) shape)
  | _ => schema
  end.

(** A canonical numeric string: JavaScript lists such property names
    first, whatever the order in which they were created. *)
Definition integer_like (k : string) : bool :=
  match k with
  | EmptyString => false
  | String c r =>
      if Ascii.eqb c (Ascii.ascii_of_nat 48) then String.eqb r ""
      else forallb (λ d, (48 <=? Ascii.nat_of_ascii d) && (Ascii.nat_of_ascii d <=? 57))
             (String.list_ascii_of_string k)
  end.

(** The property names of the shapes are field names, as [JsObject]
    takes them to be: none is an integer, and none is the name of a
    member that the configuration or the result inherits from
    [Object.prototype]. *)
Fixpoint field_names (schema : ZodSchema) : bool :=
  match schema with
  | ZodNullable inner | ZodOptional inner => field_names inner
  | ZodArray element => field_names element
  | ZodObject shape =>
      forallb
        (λ kv, negb (integer_like kv.1)
               && negb (bool_decide (kv.1 ∈ Js.Object_prototype))
               && field_names kv.2)
        shape
  | _ => true
  end.

(** The fields of an output follow the schema: each object lists a
    selection of the fields its schema declares, in the schema's order,
    and holds no empty object or array; a refinement asks of the value
    what the schema under it asks. *)
Inductive follows : ZodSchema → Value → Prop :=
| follows_nullable inner y : follows inner y → follows (ZodNullable inner) y
| follows_optional inner y : follows inner y → follows (ZodOptional inner) y
| follows_object shape fs : fields_follow shape fs → follows (ZodObject shape) (VObject fs)
| follows_array element ys : Forall (follows element) ys → follows (ZodArray element) (VArray ys)
| follows_absent y : follows ZodAbsent y
| follows_string y : follows ZodString y
| follows_number y : follows ZodNumber y
| follows_boolean y : follows ZodBoolean y
| follows_enum values y : follows (ZodEnum values) y
| follows_effects inner y : follows inner y → follows (ZodEffects inner) y
with fields_follow : list (string * ZodSchema) → list (string * Value) → Prop :=
| fields_follow_nil : fields_follow [] []
| fields_follow_skip k subSchema r fs :
    fields_follow r fs → fields_follow ((k, subSchema) :: r) fs
| fields_follow_keep k subSchema r v fs :
    follows subSchema v → is_empty_value v = false → fields_follow r fs →
    fields_follow ((k, subSchema) :: r) ((k, v) :: fs).

End Rewrite.

(** ** The app and its extension instances *)

Module AppModel.

(** What the property [devUUID] holds.  It is typed as a string; the
    assignment in [updateExtensionUUIDS] can also put there a member
    that its map inherits from [Object.prototype] ([Inherited], by the
    member's name). *)
Inductive DevUUID :=
| UUID (u : string)
| Inherited (member : string).

(** Modelled from the spec: class [ExtensionInstance]
    (models/extensions/extension-instance.ts) is not among the sources;
    the record holds the members that the sources read or assign: the
    specification-derived [type], the source location, and the runtime
    identity [devUUID] that is attached late. *)
Record ExtensionInstance := {
  type : string;
  localIdentifier : string;
  devUUID : DevUUID;
  handle : string;
  name : string;
  directory : string;
  configurationPath : string;
  entrySourceFilePath : string;
  outputPath : string
}.

(** [extension.devUUID = u] *)
Definition set_devUUID (u : DevUUID) (e : ExtensionInstance) : ExtensionInstance :=
  {| type := type e;
     localIdentifier := localIdentifier e;
     devUUID := u;
     handle := handle e;
     name := name e;
     directory := directory e;
     configurationPath := configurationPath e;
     entrySourceFilePath := entrySourceFilePath e;
     outputPath := outputPath e |}.

(** The argument of [extensionsForType]. *)
Record SpecificationNames := {
  identifier : string;
  externalIdentifier : string
}.

(** Class [App]; the methods below use [allExtensions] only. *)
Record App := {
  app_name : string;
  idEnvironmentVariableName : string;
  app_directory : string;
  packageManager : string;
  nodeDependencies : gmap string string;
  usesWorkspaces : bool;
  allExtensions : list ExtensionInstance
}.

(** [App.extensionsForType] (lines 482-486). *)
Definition extensionsForType (app : App) (specification : SpecificationNames)
  : list ExtensionInstance :=
  List.filter
    (λ extension,
       String.eqb (type extension) (identifier specification)
       || String.eqb (type extension) (externalIdentifier specification))
    (allExtensions app).

(** [uuids[k]] on the object [uuids], whose own properties are the
    entries of the map: the entry named [k] if there is one, else the
    member named [k] that the object inherits from [Object.prototype],
    else [undefined]. *)
Definition property (uuids : gmap string string) (k : string) : option DevUUID :=
  match uuids !! k with
  | Some u => Some (UUID u)
  | None => if bool_decide (k ∈ Js.Object_prototype) then Some (Inherited k) else None
  end.

(** [found ?? fallback] *)
Definition nullish_or (found : option DevUUID) (fallback : DevUUID) : DevUUID :=
  match found with
  | Some u => u
  | None => fallback
  end.

(** [App.updateExtensionUUIDS] (lines 488-492).  The loop assigns to
    each element of [allExtensions] in turn; the app after the call has
    the updated elements in the same places.  The value assigned depends
    on the element alone and assigning it twice changes nothing more, so
    an instance listed twice is modelled by two equal elements. *)
Definition updateExtensionUUIDS (app : App) (uuids : gmap string string) : App :=
  {| app_name := app_name app;
     idEnvironmentVariableName := idEnvironmentVariableName app;
     app_directory := app_directory app;
     packageManager := packageManager app;
     nodeDependencies := nodeDependencies app;
     usesWorkspaces := usesWorkspaces app;
     allExtensions :=
       List.map
         (λ extension,
            set_devUUID
              (nullish_or (property uuids (localIdentifier extension)) (devUUID extension))
              extension)
         (allExtensions app) |}.

(** An extension whose directory, and so whose local identifier, is
    named constructor, and an app that holds it. *)
Definition extension_constructor : ExtensionInstance :=
  {| type := "ui_extension";
     localIdentifier := "constructor";
     devUUID := UUID "dev-1";
     handle := "constructor";
     name := "constructor";
     directory := "/app/extensions/constructor";
     configurationPath := "/app/extensions/constructor/shopify.extension.toml";
     entrySourceFilePath := "/app/extensions/constructor/src/index.jsx";
     outputPath := "/app/extensions/constructor/dist/main.js" |}.

Definition app_constructor : App :=
  {| app_name := "my app";
     idEnvironmentVariableName := "SHOPIFY_API_KEY";
     app_directory := "/app";
     packageManager := "npm";
     nodeDependencies := ∅;
     usesWorkspaces := false;
     allExtensions := [extension_constructor] |}.

End AppModel.

(** ** The ui_extension specification *)

Module UIExtension.

(** [NewExtensionPointSchemaType]: the fields the specification reads. *)
Record ExtensionPoint := {
  target : string;
  module_ : string
}.

(** The configuration of a ui_extension.  [extension_points] is an
    array in the schema; [None] stands for a configuration object that
    lacks it, which [appModuleFeatures] guards against with [?.]. *)
Record UIExtensionConfig := {
  config_name : string;
  config_type : string;
  api_version : option string;
  extension_points : option (list ExtensionPoint)
}.

Section Specification.

(** [getExtensionPointTargetSurface] (services/dev/extension/utilities.ts)
    is not among the sources: it is a parameter. *)
Variable getExtensionPointTargetSurface : string → string.

(** The callback given to [find] in both functions. *)
Definition targets_checkout (extensionPoint : ExtensionPoint) : bool :=
  String.eqb (getExtensionPointTargetSurface (target extensionPoint)) "checkout".

(** [xs.find(p) !== undefined] *)
Definition found {A} (p : A → bool) (xs : list A) : bool :=
  match List.find p xs with
  | Some _ => true
  | None => false
  end.

(** [appModuleFeatures] (lines 30-37). *)
Definition appModuleFeatures (config : UIExtensionConfig) : list string :=
  let basic := ["ui_preview"; "bundling"; "esbuild"] in
  let needsCart :=
    match extension_points config with
    | Some points => found targets_checkout points
    | None => false
    end in
  if needsCart then basic ++ ["cart_url"] else basic.

(** [shouldFetchCartUrl] (lines 60-66); [None] is the [TypeError] of
    calling [find] on [undefined]. *)
Definition shouldFetchCartUrl (config : UIExtensionConfig) : option bool :=
  match extension_points config with
  | Some points => Some (found targets_checkout points)
  | None => None
  end.

End Specification.

End UIExtension.

(** ** Strings with line breaks *)

Module Text.

Import Stdlib.Strings.Ascii.

(** The strings ["\n"] and ["\r"]. *)
Definition newline : string := String "010"%char "".
Definition carriage_return : string := String "013"%char "".

End Text.

(** ** The keys and the fields that the webhooks validator reads *)

Module WebhooksKeys.

Import Js Webhooks.


(** A record with only the fields that [superRefine] reads. *)
Definition destination_fields (s : WebhookSubscription) : WebhookSubscription :=
  mkSubscription (subscription_topic s)
    (subscription_subscription_endpoint_url s) (subscription_path s)
    (subscription_pubsub_project s) (subscription_pubsub_topic s) (subscription_arn s).

(** A document with only the fields that [superRefine] reads. *)
Definition refined_fields (d : WebhooksConfig) : WebhooksConfig :=
  {| api_version := "";
     subscription_endpoint_url := subscription_endpoint_url d;
     pubsub_project := pubsub_project d;
     pubsub_topic := pubsub_topic d;
     arn := arn d;
     topics := topics d;
     subscriptions := option_map (List.map destination_fields) (subscriptions d) |}.

(** Where an issue points: the document, the topics list, one of the
    listed topics, or one of the records. *)
Definition points_into (d : WebhooksConfig) (p : list PathSegment) : Prop :=
  p = []
  ∨ p = [PKey "topics"]
  ∨ (∃ t, t ∈ topics_of d ∧ p = [PKey "topics"; PKey t])
  ∨ (∃ i s, subscriptions_of d !! i = Some s
            ∧ (p = [PKey "subscriptions"; PIndex i]
               ∨ p = [PKey "subscriptions"; PIndex i; PKey (subscription_topic s)])).

(** [doc_record_twice] under another api_version and with a format on
    its first record. *)
Definition doc_record_twice_xml : WebhooksConfig :=
  {| api_version := "2023-07";
     subscription_endpoint_url := Some "https://a.com";
     pubsub_project := None; pubsub_topic := None; arn := None;
     topics := None;
     subscriptions :=
       Some [{| subscription_topic := "orders/create";
                subscription_sub_topic := None;
                subscription_format := Some "xml";
                subscription_include_fields := None;
                subscription_metafield_namespaces := None;
                subscription_subscription_endpoint_url := None;
                subscription_path := Some "/hook";
                subscription_pubsub_project := None;
                subscription_pubsub_topic := None;
                subscription_arn := None |};
             mkSubscription "orders/create" (Some "https://a.com") (Some "/hook")
               None None None] |}.

End WebhooksKeys.

(** ** Paths of the web configuration *)

Module Paths.

Import Stdlib.Strings.Ascii Rewrite.

(** [arg.startsWith('/')] *)
Definition startsWith_slash (s : string) : bool :=
  match s with
  | String c _ => Ascii.eqb c "/"%char
  | EmptyString => false
  end.

(** [ensurePathStartsWithSlash] (models/app/app.ts, line 31), the
    preprocessing step of [auth_callback_path] and [webhooks_path] in
    the schema of a web configuration (lines 359-366); its argument is
    of type [unknown]. *)
Definition ensurePathStartsWithSlash (arg : Value) : Value :=
  match arg with
  | VString s => if negb (startsWith_slash s) then VString ("/" +:+ s) else arg
  | _ => arg
  end.

End Paths.

(** ** Validation before a deploy *)

Module Deploy.

Import Js Text AppModel.

(** [configuration.ui] of a function extension, as [app.ts] reads it:
    an object with an optional [handle]. *)
Record FunctionUi := {
  ui_handle : option string
}.

(** An extension instance together with the members that
    [preDeployValidation] reads beside those of [ExtensionInstance]:
    the getter [isFunctionExtension], and of its configuration the
    [type] and the optional [ui]. *)
Record LoadedExtension := {
  instance : ExtensionInstance;
  isFunctionExtension : bool;
  configuration_type : string;
  configuration_ui : option FunctionUi
}.

(** [configuration.ui?.handle] *)
Definition ui_handle_of (ext : LoadedExtension) : option string :=
  match configuration_ui ext with
  | Some ui => ui_handle ui
  | None => None
  end.

(** Template-literal interpolation of a value that may be [undefined]. *)
Definition interpolate (v : option string) : string := default "undefined"%string v.

(** [findExtensionByHandle] (lines 517-519); [===] between the handle
    of an extension, a string, and [undefined] is false. *)
Definition findExtensionByHandle (allExtensions : list LoadedExtension)
    (handle_ : option string) : option LoadedExtension :=
  List.find
    (λ ext,
       match handle_ with
       | Some h => String.eqb (handle (instance ext)) h
       | None => false
       end)
    allExtensions.

Definition missing_ui_extension (extension : LoadedExtension) (uiHandle : option string)
  : string :=
  "[" +:+ name (instance extension)
  +:+ "] - Local app must contain a ui_extension with handle '"
  +:+ interpolate uiHandle +:+ "'".

Definition wrong_type_ui_extension (extension : LoadedExtension) (uiHandle : option string)
  : string :=
  "[" +:+ name (instance extension)
  +:+ "] - Local app must contain one extension of type 'ui_extension' and handle '"
  +:+ interpolate uiHandle +:+ "'".

(** The callback of the [forEach] of
    [validateFunctionExtensionsWithUiHandle] on the errors pushed so
    far; [None] is the [TypeError] of reading [handle] of an undefined
    [ui]. *)
Definition validate_extension (allExtensions : list LoadedExtension)
    (errors : list string) (extension : LoadedExtension) : option (list string) :=
  match configuration_ui extension with
  | None => None
  | Some ui =>
      let uiHandle := ui_handle ui in
      match findExtensionByHandle allExtensions uiHandle with
      | None => Some (errors ++ [missing_ui_extension extension uiHandle])
      | Some matchingExtension =>
          if negb (String.eqb (configuration_type matchingExtension) "ui_extension")
          then Some (errors ++ [wrong_type_ui_extension extension uiHandle])
          else Some errors
      end
  end.

(** [xs.forEach(f)] where [f] updates an accumulator or throws. *)
Fixpoint forEach_errors {A} (f : list string → A → option (list string))
    (errors : list string) (xs : list A) : option (list string) :=
  match xs with
  | [] => Some errors
  | x :: r =>
      match f errors x with
      | Some errors' => forEach_errors f errors' r
      | None => None
      end
  end.

(** [validateFunctionExtensionsWithUiHandle] (lines 495-515).  The
    outer [None] is a [TypeError]; the inner one is [undefined]. *)
Definition validateFunctionExtensionsWithUiHandle
    (functionExtensionsWithUiHandle allExtensions : list LoadedExtension)
  : option (option (list string)) :=
  match forEach_errors (validate_extension allExtensions) [] functionExtensionsWithUiHandle with
  | None => None
  | Some errors => Some (if 0 <? length errors then Some errors else None)
  end.

(** How the first part of [App.preDeployValidation] ends. *)
Inductive Outcome :=
| Continues
| AbortError (message tryMessage : string)
| TypeError.

(** The filter of [preDeployValidation] (lines 464-466). *)
Definition has_ui_handle (ext : LoadedExtension) : bool :=
  isFunctionExtension ext && truthy (ui_handle_of ext).

(** [App.preDeployValidation] (lines 463-476) up to the point where
    the extensions' own validations are started. *)
Definition preDeployValidation (allExtensions : list LoadedExtension) : Outcome :=
  let functionExtensionsWithUiHandle := List.filter has_ui_handle allExtensions in
  if 0 <? length functionExtensionsWithUiHandle then
    match validateFunctionExtensionsWithUiHandle functionExtensionsWithUiHandle allExtensions with
    | None => TypeError
    | Some (Some errors) => AbortError "Invalid function configuration" (join newline errors)
    | Some None => Continues
    end
  else Continues.

(** [App.hasExtensions] (lines 478-480). *)
Definition hasExtensions (app : App) : bool := 0 <? length (allExtensions app).

(** The extension that a function extension's ui handle resolves to is
    the first one with that handle, and it is a ui_extension. *)
Definition resolves (allExtensions : list LoadedExtension) (extension : LoadedExtension)
  : Prop :=
  ∃ m, findExtensionByHandle allExtensions (ui_handle_of extension) = Some m
       ∧ configuration_type m = "ui_extension".

(** Whether an extension is reported, and with which message. *)
Definition error_of (allExtensions : list LoadedExtension) (extension : LoadedExtension)
  : option string :=
  match findExtensionByHandle allExtensions (ui_handle_of extension) with
  | None => Some (missing_ui_extension extension (ui_handle_of extension))
  | Some m =>
      if String.eqb (configuration_type m) "ui_extension" then None
      else Some (wrong_type_ui_extension extension (ui_handle_of extension))
  end.

(** A function extension whose ui handle is that of a ui_extension of
    the same app. *)
Definition discount_function : LoadedExtension :=
  {| instance :=
       {| type := "product_discounts";
          localIdentifier := "discount";
          devUUID := UUID "dev-1";
          handle := "discount";
          name := "discount";
          directory := "/app/extensions/discount";
          configurationPath := "/app/extensions/discount/shopify.extension.toml";
          entrySourceFilePath := "/app/extensions/discount/src/index.js";
          outputPath := "/app/extensions/discount/dist/index.wasm" |};
     isFunctionExtension := true;
     configuration_type := "function";
     configuration_ui := Some {| ui_handle := Some "discount-ui" |} |}.

Definition discount_ui : LoadedExtension :=
  {| instance :=
       {| type := "ui_extension";
          localIdentifier := "discount-ui";
          devUUID := UUID "dev-2";
          handle := "discount-ui";
          name := "discount ui";
          directory := "/app/extensions/discount-ui";
          configurationPath := "/app/extensions/discount-ui/shopify.extension.toml";
          entrySourceFilePath := "/app/extensions/discount-ui/src/index.jsx";
          outputPath := "/app/extensions/discount-ui/dist/main.js" |};
     isFunctionExtension := false;
     configuration_type := "ui_extension";
     configuration_ui := None |}.

End Deploy.

(** ** Validation of the extension points of a ui_extension *)

Module UIExtensionValidation.

Import Js Text UIExtension.

(** [Result<unknown, string>] as [validateUIExtensionPointConfig]
    builds it: [ok({})] or [err(message)]. *)
Inductive Result :=
| ok
| err (message : string).

Section Validation.

(** [joinPath] (cli-kit/node/path), [fileExists] (cli-kit/node/fs) and
    the rendering of [outputToken.path] inside [outputContent]
    (cli-kit/node/output) are not among the sources: they are
    parameters.  [fileExists] stands for the file system during the
    call. *)
Variable joinPath : string → string → string.
Variable fileExists : string → bool.
Variable path_token : string → string.

(** [configurationFileNames.extension.ui] (constants.ts). *)
Variable extension_ui_toml : string.

(** The three arrays of [validateUIExtensionPointConfig]. *)
Record Progress := {
  errors : list string;
  uniqueTargets : list string;
  duplicateTargets : list string
}.

Definition not_found (directory : string) (point : ExtensionPoint) : string :=
  "Couldn't find " +:+ path_token (joinPath directory (module_ point)) +:+ newline
  +:+ "Please check the module path for " +:+ target point.

(** The body of the [for await] loop (lines 84-102);
    [uniqueTargets.indexOf(target) === -1] says that [target] is not in
    the array. *)
Definition visit (directory : string) (progress : Progress) (point : ExtensionPoint)
  : Progress :=
  let fullPath := joinPath directory (module_ point) in
  let exists_ := fileExists fullPath in
  let errors' :=
    if negb exists_ then errors progress ++ [not_found directory point]
    else errors progress in
  if bool_decide (target point ∉ uniqueTargets progress) then
    {| errors := errors';
       uniqueTargets := uniqueTargets progress ++ [target point];
       duplicateTargets := duplicateTargets progress |}
  else
    {| errors := errors';
       uniqueTargets := uniqueTargets progress;
       duplicateTargets := duplicateTargets progress ++ [target point] |}.

(** The loop over the extension points. *)
Definition visit_all (directory : string) (extensionPoints : list ExtensionPoint)
  : Progress :=
  foldl (visit directory)
    {| errors := []; uniqueTargets := []; duplicateTargets := [] |} extensionPoints.

Definition duplicate_targets_found (duplicateTargets : list string) : string :=
  "Duplicate targets found: " +:+ join ", " duplicateTargets +:+ newline
  +:+ "Extension point targets must be unique".

(** [validateUIExtensionPointConfig] (lines 76-115). *)
Definition validateUIExtensionPointConfig (directory : string)
    (extensionPoints : list ExtensionPoint) : Result :=
  let progress := visit_all directory extensionPoints in
  let errors1 :=
    if 0 <? length (duplicateTargets progress)
    then errors progress ++ [duplicate_targets_found (duplicateTargets progress)]
    else errors progress in
  if 0 <? length errors1 then
    let tomlPath := joinPath directory extension_ui_toml in
    err (join (newline +:+ newline)
           (errors1 ++ ["Please check the configuration in " +:+ tomlPath]))
  else ok.

(** [hasExtensionPointTarget] (lines 67-73); [None] is the [TypeError]
    of calling [find] on [undefined]. *)
Definition hasExtensionPointTarget (config : UIExtensionConfig) (requestedTarget : string)
  : option bool :=
  match extension_points config with
  | Some points =>
      Some (found (λ extensionPoint, String.eqb (target extensionPoint) requestedTarget)
              points)
  | None => None
  end.

End Validation.

End UIExtensionValidation.

(** ** Writing the configuration file *)

Module ConfigurationFile.

Import Stdlib.Strings.Ascii Js Text Rewrite.

Definition initialComment : string :=
  "# Learn more about configuring your app at https://shopify.dev/docs/apps/tools/cli/configuration"
  +:+ newline.

Definition scopesComment : string :=
  newline
  +:+ "# Learn more at https://shopify.dev/docs/apps/tools/cli/configuration#access_scopes".

Definition access_scopes_header : string := "[access_scopes]".

(** [s.split(/(\r\n|\r|\n)/)]: the pieces between line breaks, and,
    for the capturing group, each line break between its two pieces.
    A string is the list of its bytes; the two characters of the
    pattern are single bytes that occur in no other character. *)
Fixpoint split_line_breaks (s : string) : list string :=
  match s with
  | EmptyString => [""]
  | String c r =>
      if Ascii.eqb c "013" then
        match r with
        | String c' r' =>
            if Ascii.eqb c' "010"
            then "" :: (carriage_return +:+ newline) :: split_line_breaks r'
            else "" :: carriage_return :: split_line_breaks r
        | EmptyString => "" :: carriage_return :: split_line_breaks r
        end
      else if Ascii.eqb c "010" then "" :: newline :: split_line_breaks r
      else
        match split_line_breaks r with
        | piece :: rest => String c piece :: rest
        | [] => [String c ""]
        end
  end.

(** [xs.splice(start, 0, item)] *)
Definition splice_in {A} (start : nat) (item : A) (xs : list A) : list A :=
  take start xs ++ item :: drop start xs.

(** The callback of the [forEach] (lines 80-82). *)
Definition comment_scopes (fileSplit : list string) (index : nat) : list string :=
  match fileSplit !! index with
  | Some line =>
      if String.eqb line access_scopes_header
      then splice_in (index + 1) scopesComment fileSplit
      else fileSplit
  | None => fileSplit
  end.

(** [fileSplit.forEach(...)] where the callback changes [fileSplit]:
    the indices visited are those below the length the array had when
    the loop started, [remaining] of them are still to come, and each
    element is read when its turn comes. *)
Fixpoint forEach_index (remaining index : nat) (fileSplit : list string) : list string :=
  match remaining with
  | 0 => fileSplit
  | S n => forEach_index n (S index) (comment_scopes fileSplit index)
  end.

(** The lines of the file after the two [unshift] and the [forEach]
    (lines 74-83). *)
Definition commented_lines (toml : string) : list string :=
  let fileSplit := split_line_breaks toml in
  let fileSplit := newline :: fileSplit in
  let fileSplit := initialComment :: fileSplit in
  forEach_index (length fileSplit) 0 fileSplit.

(** The text written: [fileSplit.join('')]. *)
Definition file_text (toml : string) : string := join "" (commented_lines toml).

Section Write.

(** [encodeToml] (cli-kit/node/toml) is not among the sources: it is a
    parameter, which reads the object it is given out of the store. *)
Variable encodeToml : Store → Value → string.

(** [writeAppConfigurationFile] (lines 69-88) on the store of objects
    and the files, by path; [None] is an exception of
    [rewriteConfiguration]. *)
Definition writeAppConfigurationFile (configFilePath : string) (configuration : Value)
    (files : gmap string string) (σ : Store) : option (gmap string string * Store) :=
  match rewrite AppSchema configuration σ with
  | Some (sorted, σ') =>
      Some (<[configFilePath := file_text (encodeToml σ' sorted)]> files, σ')
  | None => None
  end.

End Write.

(** The loop as one pass over the lines that are left, with the number
    of visits that are left: a header takes two of them, one for
    itself and one for the comment put behind it. *)
Fixpoint pass (remaining : nat) (lines : list string) : list string :=
  match remaining, lines with
  | 0, _ => lines
  | _, [] => []
  | S n, line :: rest =>
      if String.eqb line access_scopes_header
      then line :: scopesComment :: pass (n - 1) rest
      else line :: pass n rest
  end.

(** [out] is [lines] with the scopes comment put behind some of the
    lines that read [access_scopes_header]. *)
Inductive commented : list string → list string → Prop :=
| commented_nil : commented [] []
| commented_keep line lines out :
    commented lines out → commented (line :: lines) (line :: out)
| commented_header lines out :
    commented lines out →
    commented (access_scopes_header :: lines)
      (access_scopes_header :: scopesComment :: out).

(** How many of the lines read [access_scopes_header]. *)
Definition headers (lines : list string) : nat :=
  length (List.filter (λ line, String.eqb line access_scopes_header) lines).

(** Three TOML texts: without the header, with it, and with it twice,
    the second time as the last line. *)
Definition toml_without_scopes : string := "embedded = true" +:+ newline.

Definition toml_with_scopes : string :=
  "embedded = true" +:+ newline +:+ "[access_scopes]" +:+ newline
  +:+ "use_legacy_install_flow = true" +:+ newline.

Definition toml_header_twice : string :=
  "[access_scopes]" +:+ newline +:+ "[access_scopes]".

End ConfigurationFile.

(** ** Scopes, and the configuration that [link] builds *)

Module Configuration.

Import Stdlib.Strings.Ascii Js Rewrite.

(** The fields of a legacy configuration that the functions below
    read; [scopes] has a default in [LegacyAppSchema], so the type of a
    legacy configuration has it always. *)
Record LegacyAppConfiguration := {
  legacy_scopes : string;
  legacy_extension_directories : option (list string);
  legacy_web_directories : option (list string)
}.

(** [access_scopes] of a current configuration. *)
Record AccessScopes := {
  scopes : option string;
  use_legacy_install_flow : option bool
}.

(** The fields that the functions below read of a configuration that
    is not a legacy one. *)
Record CurrentAppConfiguration := {
  access_scopes : option AccessScopes;
  extension_directories : option (list string);
  web_directories : option (list string)
}.

(** A configuration at run time, by what [isLegacyAppSchema] and
    [isCurrentAppSchema] (lines 307-319) answer for it.  Both validate
    the object against a schema when they are called; [isType]
    (utilities/types.ts) is not among the sources.  The two schemas are
    strict and no object passes both ([application_url] is required by
    one and unknown to the other), so a configuration passes the legacy
    schema, or the current one, or neither: [Neither] is an object that
    has the type of a configuration and the fields that are read of
    one, and that is valid for no schema, such as a current
    configuration with a url that is not one. *)
Inductive AppConfiguration :=
| Legacy (config : LegacyAppConfiguration)
| Current (config : CurrentAppConfiguration)
| Neither (config : CurrentAppConfiguration).

Definition isLegacyAppSchema (item : AppConfiguration) : bool :=
  match item with Legacy _ => true | _ => false end.

Definition isCurrentAppSchema (item : AppConfiguration) : bool :=
  match item with Current _ => true | _ => false end.

(** [config.access_scopes?.scopes] *)
Definition access_scopes_scopes (config : CurrentAppConfiguration) : option string :=
  match access_scopes config with
  | Some a => scopes a
  | None => None
  end.

(** [getAppScopes] (lines 325-331). *)
Definition getAppScopes (config : AppConfiguration) : string :=
  match config with
  | Legacy config => legacy_scopes config
  | Current config | Neither config => default ""%string (access_scopes_scopes config)
  end.

(** [s.split(',')]; the comma is a single byte that occurs in no other
    character. *)
Fixpoint split_comma (s : string) : list string :=
  match s with
  | EmptyString => [""]
  | String c r =>
      if Ascii.eqb c ","
      then "" :: split_comma r
      else
        match split_comma r with
        | piece :: rest => String c piece :: rest
        | [] => [String c ""]
        end
  end.

(** No comma in [s]. *)
Fixpoint comma_free (s : string) : bool :=
  match s with
  | EmptyString => true
  | String c r => negb (Ascii.eqb c ",") && comma_free r
  end.

(** The white space and the line terminators that [trim] strips, in
    UTF-8: U+0009 to U+000D, U+0020, U+00A0, U+1680, U+2000 to U+200A,
    U+2028, U+2029, U+202F, U+205F, U+3000 and U+FEFF. *)
Definition white_space : list string :=
  List.map (λ codes, String.string_of_list_ascii (List.map ascii_of_nat codes))
    [[9]; [10]; [11]; [12]; [13]; [32]; [194; 160]; [225; 154; 128];
     [226; 128; 128]; [226; 128; 129]; [226; 128; 130]; [226; 128; 131];
     [226; 128; 132]; [226; 128; 133]; [226; 128; 134]; [226; 128; 135];
     [226; 128; 136]; [226; 128; 137]; [226; 128; 138];
     [226; 128; 168]; [226; 128; 169]; [226; 128; 175]; [226; 129; 159];
     [227; 128; 128]; [239; 187; 191]].

(** [s] without [p] in front, if it starts with [p]. *)
Fixpoint strip (p s : string) : option string :=
  match p, s with
  | EmptyString, _ => Some s
  | String a p', String b s' => if Ascii.eqb a b then strip p' s' else None
  | String _ _, EmptyString => None
  end.

Definition strip_one (patterns : list string) (s : string) : option string :=
  List.fold_right
    (λ p found, match strip p s with Some r => Some r | None => found end)
    None patterns.

Fixpoint strip_all (fuel : nat) (patterns : list string) (s : string) : string :=
  match fuel with
  | 0 => s
  | S n =>
      match strip_one patterns s with
      | Some r => strip_all n patterns r
      | None => s
      end
  end.

Definition trimStart (s : string) : string :=
  strip_all (String.length s) white_space s.

Definition trimEnd (s : string) : string :=
  String.rev
    (strip_all (String.length s) (List.map String.rev white_space) (String.rev s)).

(** [s.trim()] *)
Definition trim (s : string) : string := trimEnd (trimStart s).

(** [getAppScopesArray] (lines 337-340); [scopes.length] is zero for
    the empty string only. *)
Definition getAppScopesArray (config : AppConfiguration) : list string :=
  let scopes := getAppScopes config in
  if 0 <? String.length scopes then List.map trim (split_comma scopes) else [].

(** [usesLegacyScopesBehavior] (lines 342-345). *)
Definition usesLegacyScopesBehavior (config : AppConfiguration) : bool :=
  match config with
  | Legacy _ => true
  | Current config | Neither config =>
      match access_scopes config with
      | Some a => default false (use_legacy_install_flow a)
      | None => false
      end
  end.

(** [gdprWebhooks] and [appProxy] of a remote app. *)
Record GdprWebhooks := {
  customerDataRequestUrl : option string;
  customerDeletionUrl : option string;
  shopDeletionUrl : option string
}.

Record AppProxy := {
  proxy_url : string;
  subPath : string;
  subPathPrefix : string
}.

(** [OrganizationApp] (models/organization.ts) is not among the
    sources: the record holds the members that [mergeAppConfiguration]
    and [getAccessScopes] read, optional where the code tests them. *)
Record OrganizationApp := {
  apiKey : string;
  title : string;
  applicationUrl : string;
  redirectUrlWhitelist : list string;
  embedded : option bool;
  webhookApiVersion : option string;
  posEmbedded : option bool;
  gdprWebhooks : option GdprWebhooks;
  appProxy : option AppProxy;
  preferencesUrl : option string;
  requestedAccessScopes : option (list string)
}.

(** [getAccessScopes] (link.ts, lines 220-243).  An array is truthy,
    also when it is empty.  A local configuration that passes neither
    schema gets the last [else]. *)
Definition getAccessScopes (localApp : AppConfiguration) (remoteApp : OrganizationApp)
  : AccessScopes :=
  match requestedAccessScopes remoteApp with
  | Some requested =>
      {| scopes := Some (join "," requested); use_legacy_install_flow := None |}
  | None =>
      match localApp with
      | Legacy config =>
          if nonempty (legacy_scopes config)
          then {| scopes := Some (legacy_scopes config);
                  use_legacy_install_flow := Some true |}
          else {| scopes := None; use_legacy_install_flow := Some true |}
      | Current config =>
          if truthy (access_scopes_scopes config)
          then {| scopes := access_scopes_scopes config;
                  use_legacy_install_flow := Some true |}
          else {| scopes := None; use_legacy_install_flow := Some true |}
      | Neither _ => {| scopes := None; use_legacy_install_flow := Some true |}
      end
  end.

(** An optional string as a value. *)
Definition optional (v : option string) : Value :=
  match v with
  | Some s => VString s
  | None => VUndefined
  end.

(** An array of strings as a value. *)
Definition strings (xs : list string) : Value := VArray (List.map VString xs).

(** The object literals of [getAccessScopes]: each lists the
    properties it has a value for. *)
Definition access_scopes_object (a : AccessScopes) : Value :=
  VObject
    (match scopes a with
     | Some s => [("scopes", VString s)]
     | None => []
     end
     ++ match use_legacy_install_flow a with
        | Some b => [("use_legacy_install_flow", VBoolean b)]
        | None => []
        end).

(** [remoteApp.gdprWebhooks?.x] *)
Definition gdpr (remoteApp : OrganizationApp) (x : GdprWebhooks → option string)
  : option string :=
  match gdprWebhooks remoteApp with
  | Some g => x g
  | None => None
  end.

(** [hasAnyPrivacyWebhook] (lines 182-185), as a boolean. *)
Definition hasAnyPrivacyWebhook (remoteApp : OrganizationApp) : bool :=
  truthy (gdpr remoteApp customerDataRequestUrl)
  || truthy (gdpr remoteApp customerDeletionUrl)
  || truthy (gdpr remoteApp shopDeletionUrl).

(** [localApp.configuration?.extension_directories] and
    [localApp.configuration?.web_directories]. *)
Definition local_extension_directories (localApp : AppConfiguration)
  : option (list string) :=
  match localApp with
  | Legacy config => legacy_extension_directories config
  | Current config | Neither config => extension_directories config
  end.

Definition local_web_directories (localApp : AppConfiguration) : option (list string) :=
  match localApp with
  | Legacy config => legacy_web_directories config
  | Current config | Neither config => web_directories config
  end.

(** [mergeAppConfiguration] (link.ts, lines 165-218): the object it
    returns, with its properties in the order in which they are
    created. *)
Definition mergeAppConfiguration (localApp : AppConfiguration) (remoteApp : OrganizationApp)
  : Value :=
  VObject
    ([("client_id", VString (apiKey remoteApp));
      ("name", VString (title remoteApp));
      ("application_url", VString (applicationUrl remoteApp));
      ("embedded", VBoolean (default true (embedded remoteApp)));
      ("webhooks",
        VObject
          (("api_version",
             VString (if truthy (webhookApiVersion remoteApp)
                      then str (webhookApiVersion remoteApp) else "2023-07"))
           :: if hasAnyPrivacyWebhook remoteApp
              then [("privacy_compliance",
                      VObject
                        [("customer_data_request_url",
                           optional (gdpr remoteApp customerDataRequestUrl));
                         ("customer_deletion_url",
                           optional (gdpr remoteApp customerDeletionUrl));
                         ("shop_deletion_url",
                           optional (gdpr remoteApp shopDeletionUrl))])]
              else []));
      ("auth", VObject [("redirect_urls", strings (redirectUrlWhitelist remoteApp))]);
      ("pos", VObject [("embedded", VBoolean (default false (posEmbedded remoteApp)))])]
     ++ match appProxy remoteApp with
        | Some proxy =>
            if nonempty (proxy_url proxy)
            then [("app_proxy",
                    VObject [("url", VString (proxy_url proxy));
                             ("subpath", VString (subPath proxy));
                             ("prefix", VString (subPathPrefix proxy))])]
            else []
        | None => []
        end
     ++ (if truthy (preferencesUrl remoteApp)
         then [("app_preferences", VObject [("url", optional (preferencesUrl remoteApp))])]
         else [])
     ++ [("access_scopes", access_scopes_object (getAccessScopes localApp remoteApp))]
     ++ match local_extension_directories localApp with
        | Some directories => [("extension_directories", strings directories)]
        | None => []
        end
     ++ match local_web_directories localApp with
        | Some directories => [("web_directories", strings directories)]
        | None => []
        end).

(** A value in which nothing is [null], no array holds [undefined],
    and there is no reference into the store: objects, arrays and
    primitive values, and [undefined] as a property of an object
    only. *)
Fixpoint present (v : Value) : bool :=
  match v with
  | VUndefined | VNull | VRef _ => false
  | VArray items => forallb present items
  | VObject o => forallb (λ kv, is_undefined kv.2 || present kv.2) o
  | _ => true
  end.

(** A legacy configuration with scopes, and two remote apps: one
    without scopes and one with. *)
Definition local_example : AppConfiguration :=
  Legacy {| legacy_scopes := "read_products";
            legacy_extension_directories := Some ["extensions/*"];
            legacy_web_directories := None |}.

Definition remote_example : OrganizationApp :=
  {| apiKey := "api-key";
     title := "my app";
     applicationUrl := "https://myapp.com";
     redirectUrlWhitelist := ["https://myapp.com/auth"];
     embedded := None;
     webhookApiVersion := None;
     posEmbedded := None;
     gdprWebhooks := None;
     appProxy := None;
     preferencesUrl := None;
     requestedAccessScopes := None |}.

Definition remote_with_scopes : OrganizationApp :=
  {| apiKey := "api-key";
     title := "my app";
     applicationUrl := "https://myapp.com";
     redirectUrlWhitelist := ["https://myapp.com/auth"];
     embedded := Some true;
     webhookApiVersion := Some "2023-04";
     posEmbedded := Some false;
     gdprWebhooks :=
       Some {| customerDataRequestUrl := Some "https://myapp.com/data";
               customerDeletionUrl := None;
               shopDeletionUrl := None |};
     appProxy :=
       Some {| proxy_url := "https://myapp.com/proxy";
               subPath := "store";
               subPathPrefix := "apps" |};
     preferencesUrl := Some "https://myapp.com/preferences";
     requestedAccessScopes := Some ["read_products"; "write_orders"] |}.

(** The scopes part of what [mergeAppConfiguration] builds. *)
Definition merged_scopes (localApp : AppConfiguration) (remoteApp : OrganizationApp)
  : CurrentAppConfiguration :=
  {| access_scopes := Some (getAccessScopes localApp remoteApp);
     extension_directories := local_extension_directories localApp;
     web_directories := local_web_directories localApp |}.

End Configuration.

(** ** The function specification *)

Module FunctionSpecification.

Import Js.

(** An element of [targeting] in [FunctionExtensionSchema]
    (models/extensions/specifications/function.ts, lines 42-50). *)
Record Targeting := {
  target : string;
  input_query : option string;
  export : option string
}.

(** [ui.paths] and [ui] (lines 20-30). *)
Record UiPaths := {
  create : string;
  details : string
}.

Record Ui := {
  enable_create : option bool;
  paths : option UiPaths
}.

(** [input.variables] and [input] (lines 32-41). *)
Record Variables := {
  namespace : string;
  key : string
}.

Record Input := {
  variables : option Variables
}.

(** The fields of a function's configuration that [deployConfig]
    reads; [name], [description] and [type] come from [BaseSchema],
    which is not among the sources. *)
Record FunctionConfigType := {
  name : string;
  description : option string;
  type : string;
  api_version : string;
  ui : option Ui;
  input : option Input;
  targeting : option (list Targeting)
}.

(** An element of [targets] in the result of [deployConfig]. *)
Record Target := {
  target_handle : string;
  target_export : option string;
  target_input_query : option string
}.

(** The object that [deployConfig] resolves to. *)
Record DeployConfig := {
  deploy_title : string;
  module_id : string;
  deploy_description : option string;
  app_key : string;
  api_type : string;
  deploy_api_version : string;
  deploy_input_query : option string;
  input_query_variables : option Variables;
  deploy_ui : option UiPaths;
  enable_creation_ui : bool;
  targets : option (list Target)
}.

(** [AbortError(message, tryMessage)]. *)
Record AbortError := {
  message : string;
  tryMessage : string
}.

Section Files.

(** [joinPath] (cli-kit/node/path) is not among the sources: it is a
    parameter.  The files are those at the time of the call, with their
    contents, by path.  The callbacks of [config.targeting.map] wait for
    the file system, each for its own file: [settled] lists their
    indices in the order in which the file system answers them. *)
Variable joinPath : string → string → string.
Variable files : gmap string string.
Variable settled : list nat.

(** [fileExists] and [readFile] (cli-kit/node/fs) on [files]. *)
Definition fileExists (path : string) : bool := bool_decide (is_Some (files !! path)).

(** [readInputQuery] (lines 129-138). *)
Definition readInputQuery (path : string) : AbortError + string :=
  match files !! path with
  | Some content => inr content
  | None =>
      inl {| message := "No input query file at " +:+ path +:+ ".";
             tryMessage :=
               "Create the file or remove the line referencing it in the extension's TOML." |}
  end.

(** The callback of [config.targeting.map] (lines 82-90). *)
Definition read_target (directory : string) (config : Targeting) : AbortError + Target :=
  match (if truthy (input_query config)
         then match readInputQuery (joinPath directory (str (input_query config))) with
              | inr content => inr (Some content)
              | inl e => inl e
              end
         else inr None) with
  | inr inputQuery =>
      inr {| target_handle := target config;
             target_export := export config;
             target_input_query := inputQuery |}
  | inl e => inl e
  end.

(** The first rejection among [results], taken in the order [order]
    of their indices. *)
Fixpoint first_rejection {A} (order : list nat) (results : list (AbortError + A))
  : option AbortError :=
  match order with
  | [] => None
  | i :: r =>
      match results !! i with
      | Some (inl e) => Some e
      | _ => first_rejection r results
      end
  end.

(** The values of the promises that resolved. *)
Definition resolved {A} (results : list (AbortError + A)) : list A :=
  omap (λ result, match result with inr a => Some a | inl _ => None end) results.

(** [Promise.all] of the callbacks' promises: it rejects with the error
    of the promise that is rejected first in time, and resolves to the
    values, in the order of the array, when none is rejected.  The
    promises settle in the order [settled]; an index that [settled]
    leaves out comes after those it lists. *)
Definition all {A} (results : list (AbortError + A)) : AbortError + list A :=
  match first_rejection (settled ++ seq 0 (length results)) results with
  | Some e => inl e
  | None => inr (resolved results)
  end.

(** [deployConfig] (lines 72-117). *)
Definition deployConfig (config : FunctionConfigType) (directory apiKey moduleId : string)
  : AbortError + DeployConfig :=
  let inputQueryPath := joinPath directory "input.graphql" in
  let inputQuery := if fileExists inputQueryPath then files !! inputQueryPath else None in
  match (match targeting config with
         | Some targeting =>
             match all (List.map (read_target directory) targeting) with
             | inr targets => inr (Some targets)
             | inl e => inl e
             end
         | None => inr None
         end) with
  | inl e => inl e
  | inr targets =>
      inr {| deploy_title := name config;
             module_id := moduleId;
             deploy_description := description config;
             app_key := apiKey;
             api_type := type config;
             deploy_api_version := api_version config;
             deploy_input_query := inputQuery;
             input_query_variables :=
               match input config with
               | Some i => variables i
               | None => None
               end;
             deploy_ui :=
               match ui config with
               | Some u => paths u
               | None => None
               end;
             enable_creation_ui :=
               match ui config with
               | Some u => default true (enable_create u)
               | None => true
               end;
             targets := targets |}
  end.

(** A targeting element names an input query file that is not there. *)
Definition input_query_missing (directory : string) (config : Targeting) : bool :=
  truthy (input_query config)
  && negb (fileExists (joinPath directory (str (input_query config)))).

End Files.

End FunctionSpecification.

(** ** A run of the rewriter *)

Module RewriteRuns.

Import Rewrite.

(** What [rewrite AppSchema config_example] returns in the empty store:
    the value and the store. *)
Definition config_example_result : Value * Store :=
  Eval vm_compute in default (VUndefined, []) (rewrite AppSchema config_example []).

End RewriteRuns.

(** * Properties of the webhooks validator *)

Module WebhooksFacts.

Import Js Webhooks.

Ltac destruct_js :=
  repeat match goal with
         | x : option string |- _ => destruct x as [[|? ?]|]
         end.

Lemma length_pair_incomplete (p t : option string) :
  (length (filter_Boolean [p; t]) =? 1) = incomplete_pair p t.
Proof. destruct_js; reflexivity. Qed.

Lemma length_destinations (u p t a : option string) :
  length (filter_Boolean [u; and_ p t; a]) = destination_count u p t a.
Proof. destruct_js; reflexivity. Qed.

Lemma length_topLevelDestinations d : length (topLevelDestinations d) = top_count d.
Proof. apply length_destinations. Qed.

Lemma length_subscriptionDestinations s :
  length (subscriptionDestinations s) = record_count s.
Proof. apply length_destinations. Qed.

Lemma negb_pos_eqb n : negb (0 <? n) = (n =? 0).
Proof. by destruct n. Qed.

Lemma bind_reject_if {A} c i (k : unit → Refine A) ctx :
  bind (reject_if c i) k ctx = if c then (ctx ++ [i], NEVER) else k tt ctx.
Proof. by destruct c. Qed.

Ltac step_check :=
  rewrite bind_reject_if;
  match goal with
  | |- context [check ?c _] => destruct c eqn:?; cbn [first_some check]; [done|]
  end.

(** The examples of the specification. *)
Example doc_one_topic_validates : issues doc_one_topic = [].
Proof. vm_compute. reflexivity. Qed.

Example doc_two_topics_duplicate :
  issues doc_two_topics =
    [custom msg_duplicate_subscription [PKey "topics"; PKey "orders/create"]].
Proof. vm_compute. reflexivity. Qed.

Example doc_project_only_incomplete :
  issues doc_project_only =
    [custom (getFullPubSubValidationError "a pub sub destination")
       [PKey "subscriptions"; PIndex 0]].
Proof. vm_compute. reflexivity. Qed.

(** The loop over [topics] is [topics_scan]. *)
Lemma for_of_topics tld ts : ∀ seen ctx,
  for_of (topic_step tld) seen ts ctx =
    match topics_scan tld seen ts with
    | inl e => (ctx ++ [e], NEVER)
    | inr s => (ctx, Next s)
    end.
Proof.
  induction ts as [|t r IH]; intros seen ctx; [done|].
  cbn [for_of topics_scan]. unfold bind at 1. unfold topic_step at 1.
  rewrite bind_reject_if.
  destruct (bool_decide _); [done|]. cbn. apply IH.
Qed.

(** One iteration of the loop over [subscriptions]. *)
Lemma subscription_step_run d seen i s ctx :
  subscription_step d seen (i, s) ctx =
    match record_violation d i s with
    | Some e => (ctx ++ [e], NEVER)
    | None =>
        if bool_decide (subscriptionKey d s ∈ seen)
        then (ctx ++ [custom msg_duplicate_subscription
                        [PKey "subscriptions"; PIndex i; PKey (subscription_topic s)]], NEVER)
        else (ctx, Next ({[subscriptionKey d s]} ∪ seen))
    end.
Proof.
  unfold subscription_step, record_violation.
  rewrite length_pair_incomplete, length_subscriptionDestinations,
    length_topLevelDestinations, negb_pos_eqb.
  do 5 step_check.
  rewrite bind_reject_if. by destruct (bool_decide _).
Qed.

(** The loop over [subscriptions.entries()] is [records_scan]. *)
Lemma for_of_subscriptions d subs : ∀ seen i ctx,
  for_of (subscription_step d) seen (entries_from i subs) ctx =
    match records_scan d seen i subs with
    | inl e => (ctx ++ [e], NEVER)
    | inr s => (ctx, Next s)
    end.
Proof.
  induction subs as [|s r IH]; intros seen i ctx; [done|].
  cbn [entries_from for_of records_scan]. unfold bind at 1.
  rewrite subscription_step_run.
  destruct (record_violation d i s); [done|].
  destruct (bool_decide _); [done|]. apply IH.
Qed.

(** Joined truthy fields are empty only when there is none. *)
Lemma filter_Boolean_nonempty xs : Forall (λ x, x ≠ ""%string) (filter_Boolean xs).
Proof.
  induction xs as [|[[|c x]|] r IH]; cbn; auto.
Qed.

Lemma join_nonempty dl xs :
  Forall (λ x, x ≠ ""%string) xs → nonempty (join dl xs) = negb (length xs =? 0).
Proof.
  destruct xs as [|x [|y r]]; [done| |]; intros H; inversion_clear H as [|? ? Hx _];
    destruct x; try done.
Qed.

Lemma nonempty_topLevelDestination d :
  nonempty (topLevelDestination d) =
    truthy (subscription_endpoint_url d) || truthy (pubsub_project d)
    || truthy (pubsub_topic d) || truthy (arn d).
Proof.
  unfold topLevelDestination. rewrite join_nonempty by apply filter_Boolean_nonempty.
  destruct d as [v u p t a ts ss]; cbn [subscription_endpoint_url pubsub_project pubsub_topic arn].
  destruct_js; reflexivity.
Qed.

Lemma nonempty_ownDestination s :
  nonempty (ownDestination s) =
    truthy (subscription_subscription_endpoint_url s) || truthy (subscription_pubsub_project s)
    || truthy (subscription_pubsub_topic s) || truthy (subscription_arn s).
Proof.
  unfold ownDestination. rewrite join_nonempty by apply filter_Boolean_nonempty.
  destruct s as [tp st f inc mf u pa p t a];
    cbn [subscription_subscription_endpoint_url subscription_pubsub_project
         subscription_pubsub_topic subscription_arn].
  destruct_js; reflexivity.
Qed.

Lemma top_count_pos_nonempty d :
  0 < top_count d → nonempty (topLevelDestination d) = true.
Proof.
  rewrite nonempty_topLevelDestination. unfold top_count, destination_count.
  destruct (truthy (subscription_endpoint_url d)), (truthy (pubsub_project d)),
    (truthy (pubsub_topic d)), (truthy (arn d)); cbn; (done || lia).
Qed.

(** [superRefine] reports exactly the first violation in the documented
    order, and nothing when there is none. *)
Lemma issues_first_violation d : issues d = reported (first_violation d).
Proof.
  unfold issues, superRefine, first_violation, violation_upto, top_level_violation.
  rewrite length_pair_incomplete, length_topLevelDestinations, !negb_pos_eqb.
  fold (topics_of d) (subscriptions_of d).
  do 4 step_check.
  assert (Hscan :
    (if nonempty (topLevelDestination d) && (0 <? length (topics_of d))
     then for_of (topic_step (topLevelDestination d)) ∅ (topics_of d)
     else ret ∅) [] =
    match topics_scan (topLevelDestination d) ∅ (topics_of d) with
    | inl e => ([e], NEVER)
    | inr s => ([], Next s)
    end).
  { destruct (topics_of d) as [|t r] eqn:Hts.
    - rewrite andb_false_r. done.
    - rewrite top_count_pos_nonempty.
      + cbn [andb length Nat.ltb Nat.leb]. apply for_of_topics.
      + destruct (top_count d); [|lia].
        cbn in *. done. }
  unfold bind at 1. rewrite Hscan.
  destruct (topics_scan _ _ _) as [e|seen]; [done|].
  unfold bind at 1.
  assert (Hrec :
    (if 0 <? length (subscriptions_of d)
     then for_of (subscription_step d) seen (entries (subscriptions_of d))
     else ret seen) [] =
    match records_scan d seen 0 (subscriptions_of d) with
    | inl e => ([e], NEVER)
    | inr s => ([], Next s)
    end).
  { destruct (subscriptions_of d) as [|s r] eqn:Hss; [done|].
    cbn [length Nat.ltb Nat.leb]. apply for_of_subscriptions. }
  rewrite Hrec. by destruct (records_scan _ _ _ _).
Qed.

(** *** Facts about the two scans *)

Lemma topics_scan_seen tld ts : ∀ seen t,
  t ∈ ts → topicKey tld t ∈ seen → is_duplicate (topics_scan tld seen ts).
Proof.
  induction ts as [|t0 r IH]; intros seen t Hin Hseen; [by apply elem_of_nil in Hin|].
  cbn [topics_scan]. fold (topicKey tld t0). case_bool_decide as Hdec.
  - eexists; split; reflexivity.
  - apply elem_of_cons in Hin as [->|Hin]; [done|].
    apply (IH _ t Hin). set_solver.
Qed.

Lemma topics_scan_repeated tld ts : ∀ seen j k t,
  j < k → ts !! j = Some t → ts !! k = Some t →
  is_duplicate (topics_scan tld seen ts).
Proof.
  induction ts as [|t0 r IH]; intros seen j k t Hjk Hj Hk; [done|].
  cbn [topics_scan]. fold (topicKey tld t0). case_bool_decide as Hdec.
  - eexists; split; reflexivity.
  - destruct k as [|k]; [lia|]. cbn in Hk. destruct j as [|j].
    + cbn in Hj. injection Hj as ->.
      apply (topics_scan_seen tld r _ t).
      * by eapply list_elem_of_lookup_2.
      * set_solver.
    + cbn in Hj. apply (IH _ j k t); [lia|done..].
Qed.

Lemma topics_scan_keys tld ts : ∀ seen seen',
  topics_scan tld seen ts = inr seen' →
  seen ⊆ seen' ∧ ∀ t, t ∈ ts → topicKey tld t ∈ seen'.
Proof.
  induction ts as [|t0 r IH]; intros seen seen' H.
  - injection H as <-. split; [done|]. intros t Ht. by apply elem_of_nil in Ht.
  - cbn [topics_scan] in H. fold (topicKey tld t0) in H.
    case_bool_decide; [done|]. destruct (IH _ _ H) as [Hsub Hall]. clear IH H.
    split.
    + intros k Hk. apply Hsub, elem_of_union. by right.
    + intros t [->|Ht]%elem_of_cons; [|auto].
      apply Hsub, elem_of_union. left. by apply elem_of_singleton.
Qed.

Lemma record_violation_index d i j s :
  record_violation d i s = None → record_violation d j s = None.
Proof.
  unfold record_violation. cbn [first_some]. unfold check.
  repeat match goal with
         | |- context [if ?c then _ else _] => destruct c
         end; done.
Qed.

Lemma records_scan_seen d subs : ∀ seen i s,
  Forall (record_checks_pass d) subs →
  s ∈ subs → subscriptionKey d s ∈ seen →
  is_duplicate (records_scan d seen i subs).
Proof.
  induction subs as [|s0 r IH]; intros seen i s Hall Hin Hseen;
    [by apply elem_of_nil in Hin|].
  inversion_clear Hall as [|? ? Hs0 Hr].
  cbn [records_scan]. rewrite (record_violation_index d 0 i s0 Hs0).
  case_bool_decide as Hdec.
  - eexists; split; reflexivity.
  - apply elem_of_cons in Hin as [->|Hin]; [done|].
    apply (IH _ _ s Hr Hin). set_solver.
Qed.

Lemma records_scan_repeated d subs : ∀ seen i j k sj sk,
  Forall (record_checks_pass d) subs →
  j < k → subs !! j = Some sj → subs !! k = Some sk →
  subscriptionKey d sj = subscriptionKey d sk →
  is_duplicate (records_scan d seen i subs).
Proof.
  induction subs as [|s0 r IH]; intros seen i j k sj sk Hall Hjk Hj Hk Hkey; [done|].
  inversion_clear Hall as [|? ? Hs0 Hr].
  cbn [records_scan]. rewrite (record_violation_index d 0 i s0 Hs0).
  case_bool_decide as Hdec.
  - eexists; split; reflexivity.
  - destruct k as [|k]; [lia|]. cbn in Hk. destruct j as [|j].
    + cbn in Hj. injection Hj as ->.
      apply (records_scan_seen d r _ _ sk Hr).
      * by eapply list_elem_of_lookup_2.
      * rewrite <- Hkey. set_solver.
    + cbn in Hj. apply (IH _ _ j k sj sk Hr); [lia|done..].
Qed.

Lemma records_scan_mono d subs : ∀ seen i seen',
  records_scan d seen i subs = inr seen' → seen ⊆ seen'.
Proof.
  induction subs as [|s0 r IH]; intros seen i seen' H.
  - by injection H as <-.
  - cbn [records_scan] in H. destruct (record_violation d i s0); [done|].
    case_bool_decide; [done|]. apply IH in H. set_solver.
Qed.

(** A scan that ends without issue found every record passing. *)
Lemma records_scan_pass d subs : ∀ seen i seen',
  records_scan d seen i subs = inr seen' → Forall (record_checks_pass d) subs.
Proof.
  induction subs as [|s0 r IH]; intros seen i seen' H; [constructor|].
  cbn [records_scan] in H. destruct (record_violation d i s0) eqn:Hv; [done|].
  case_bool_decide; [done|]. constructor; [|by eapply IH].
  by apply (record_violation_index d i 0).
Qed.

(** Records that pass every check are skipped by the scan. *)
Lemma records_scan_app d pre : ∀ seen i seen1 rest,
  records_scan d seen i pre = inr seen1 →
  records_scan d seen i (pre ++ rest) = records_scan d seen1 (i + length pre) rest.
Proof.
  induction pre as [|s0 r IH]; intros seen i seen1 rest H.
  - injection H as <-. cbn. by rewrite Nat.add_0_r.
  - cbn [records_scan app length] in *. destruct (record_violation d i s0); [done|].
    case_bool_decide; [done|]. rewrite (IH _ _ _ _ H). f_equal. lia.
Qed.

Lemma append_empty_r (x : string) : x +:+ "" = x.
Proof. induction x as [|c x IH]; [done|]. cbv [String.append] in *. by f_equal. Qed.

(** Equal triples give equal keys. *)
Lemma subscriptionKey_triple d s :
  subscriptionKey d s =
    subscription_topic s +:+ delimiter +:+ effectiveDestination d s +:+ str (pathOf s).
Proof.
  unfold subscriptionKey, destinationOf, effectiveDestination, pathOf.
  destruct (truthy (subscription_path s)); [done|].
  cbn [str default]. by rewrite append_empty_r.
Qed.

Lemma recordTriple_key d s s' :
  recordTriple d s = recordTriple d s' → subscriptionKey d s = subscriptionKey d s'.
Proof.
  unfold recordTriple. intros [= Ht He Hp]. rewrite !subscriptionKey_triple. congruence.
Qed.

Lemma topicTriple_key d t s :
  topicTriple d t = recordTriple d s → subscriptionKey d s = topicKey (topLevelDestination d) t.
Proof.
  unfold topicTriple, recordTriple. intros [= Ht He Hp].
  rewrite subscriptionKey_triple, <- Ht, <- He, <- Hp. cbn [str default].
  by rewrite append_empty_r.
Qed.

Lemma first_violation_duplicate d :
  top_level_violation d = None →
  (∀ seen, topics_scan (topLevelDestination d) ∅ (topics_of d) = inr seen →
           is_duplicate (records_scan d seen 0 (subscriptions_of d))) →
  ∃ e, issues d = [e] ∧ message e = msg_duplicate_subscription.
Proof.
  intros Htop Hrec. rewrite issues_first_violation. unfold first_violation, violation_upto.
  rewrite Htop. destruct (topics_scan _ _ _) as [e|seen] eqn:Hscan.
  - exists e. split; [done|].
    clear Hrec. revert Hscan. generalize (∅ : gset string).
    induction (topics_of d) as [|t r IH]; intros seen0 Hscan; [done|].
    cbn [topics_scan] in Hscan. case_bool_decide; [by injection Hscan as <-|eauto].
  - destruct (Hrec seen eq_refl) as (e & -> & Hm). by exists e.
Qed.

(** C1. When the top-level destination checks and every record's
    destination checks pass, two records with the same (topic, effective
    destination, path) triple, a top-level topic and a record with the
    same triple, or a topic listed twice, make the validation fail with
    the duplicate-subscription issue; a document that passes the
    top-level checks and has a single topic and no record validates. *)
Theorem C1_duplicate_subscription_rejected :
  (∀ d,
     top_level_violation d = None →
     Forall (record_checks_pass d) (subscriptions_of d) →
     (∃ j k sj sk, j < k ∧ subscriptions_of d !! j = Some sj
                   ∧ subscriptions_of d !! k = Some sk
                   ∧ recordTriple d sj = recordTriple d sk)
     ∨ (∃ t s, t ∈ topics_of d ∧ s ∈ subscriptions_of d
               ∧ topicTriple d t = recordTriple d s)
     ∨ (∃ j k t, j < k ∧ topics_of d !! j = Some t ∧ topics_of d !! k = Some t) →
     ∃ e, issues d = [e] ∧ message e = msg_duplicate_subscription)
  ∧ (∀ d t,
       top_level_violation d = None →
       topics d = Some [t] → subscriptions_of d = [] →
       validates d).
Proof.
  split.
  - intros d Htop Hall Hcoll.
    destruct Hcoll as [(j & k & sj & sk & Hjk & Hj & Hk & Htr)
                      |[(t & s & Ht & Hs & Htr)|(j & k & t & Hjk & Hj & Hk)]].
    + apply first_violation_duplicate; [done|]. intros seen _.
      apply (records_scan_repeated d _ seen 0 j k sj sk); try done.
      by apply recordTriple_key.
    + apply first_violation_duplicate; [done|]. intros seen Hscan.
      apply (records_scan_seen d _ seen 0 s); try done.
      rewrite (topicTriple_key d t s Htr).
      by apply (topics_scan_keys _ _ _ _ Hscan).
    + destruct (topics_scan_repeated (topLevelDestination d) (topics_of d) ∅ j k t)
        as (e & He & Hm); try done.
      exists e. split; [|done].
      rewrite issues_first_violation. unfold first_violation, violation_upto. by rewrite Htop, He.
  - intros d t Htop Hts Hss. unfold validates.
    rewrite issues_first_violation. unfold first_violation, violation_upto, topics_of.
    rewrite Htop, Hts, Hss. cbn [default from_option id topics_scan].
    case_bool_decide as Hin; [|done]. by apply not_elem_of_empty in Hin.
Qed.

Lemma C1_witness :
  (∃ e, issues doc_record_twice = [e] ∧ message e = msg_duplicate_subscription)
  ∧ validates doc_one_topic.
Proof.
  split.
  - apply (proj1 C1_duplicate_subscription_rejected doc_record_twice).
    + vm_compute. reflexivity.
    + repeat (apply Forall_cons_2; [vm_compute; reflexivity|]). apply Forall_nil_2.
    + left. exists 0, 1. do 2 eexists.
      split; [lia|]. split; [reflexivity|]. split; [reflexivity|].
      vm_compute. reflexivity.
  - apply (proj2 C1_duplicate_subscription_rejected doc_one_topic "orders/create").
    + vm_compute. reflexivity.
    + reflexivity.
    + reflexivity.
Defined.

(** C5. The refinement is fail-fast: it reports nothing, or exactly one
    issue, the first violation in the documented check order (pair
    completeness, top-level exclusivity, destination without topics,
    topics without destination, top-level duplicate keys, then the
    records in order); it never reports more than one issue. *)
Theorem C5_fail_fast (d : WebhooksConfig) :
  issues d = reported (first_violation d)
  ∧ length (issues d) ≤ 1
  ∧ (validates d ∨ ∃ e, issues d = [e] ∧ first_violation d = Some e).
Proof.
  rewrite issues_first_violation. unfold validates. rewrite issues_first_violation.
  destruct (first_violation d) as [e|]; cbn; repeat split; eauto.
Qed.

(** A document that breaks several rules still gets a single issue. *)
Example several_violations_one_issue :
  incomplete_pair (pubsub_project doc_many_violations) (pubsub_topic doc_many_violations) = true
  ∧ (1 <? top_count doc_many_violations) = true
  ∧ issues doc_many_violations =
      [custom (getFullPubSubValidationError "a top-level pub sub destination") []].
Proof. vm_compute. done. Qed.

(** *** Where a record's own checks decide the outcome *)

Lemma checks_pass_before_inv d pre :
  checks_pass_before d pre →
  top_level_violation d = None
  ∧ ∃ seen0 seen1,
      topics_scan (topLevelDestination d) ∅ (topics_of d) = inr seen0
      ∧ records_scan d seen0 0 pre = inr seen1.
Proof.
  unfold checks_pass_before, violation_upto.
  destruct (top_level_violation d); [done|].
  destruct (topics_scan _ _ _) as [|seen0]; [done|].
  destruct (records_scan _ _ _ _) as [|seen1] eqn:Hrec; [done|]. eauto.
Qed.

Lemma issues_at_record d pre s post e :
  subscriptions_of d = pre ++ s :: post →
  checks_pass_before d pre →
  record_violation d (length pre) s = Some e →
  issues d = [e].
Proof.
  intros Hsubs (Htop & seen0 & seen1 & Hts & Hpre)%checks_pass_before_inv Hv.
  rewrite issues_first_violation. unfold first_violation, violation_upto.
  rewrite Htop, Hts, Hsubs, (records_scan_app d pre _ _ _ _ Hpre).
  cbn [records_scan Nat.add]. by rewrite Hv.
Qed.

Lemma validates_inv d :
  validates d →
  top_level_violation d = None ∧ Forall (record_checks_pass d) (subscriptions_of d).
Proof.
  unfold validates. rewrite issues_first_violation.
  unfold first_violation, violation_upto.
  destruct (top_level_violation d); [done|].
  destruct (topics_scan _ _ _) as [|seen]; [done|].
  destruct (records_scan _ _ _ _) eqn:Hrec; [done|].
  intros _. split; [done|]. by eapply records_scan_pass.
Qed.

Lemma top_level_violation_None d :
  top_level_violation d = None →
  incomplete_pair (pubsub_project d) (pubsub_topic d) = false
  ∧ (1 <? top_count d) = false.
Proof.
  unfold top_level_violation. cbn [first_some]. unfold check.
  repeat match goal with
         | |- context [if ?c then _ else _] => destruct c
         end; done.
Qed.

Ltac truthy_cases :=
  unfold record_checks_pass, record_violation, arn_or_pubsub_in_effect, incomplete_pair,
    record_count, top_count, destination_count;
  rewrite ?nonempty_ownDestination;
  repeat match goal with
         | |- context [truthy ?x] => destruct (truthy x)
         end;
  cbn [first_some check andb orb negb xorb b2n Nat.add Nat.ltb Nat.leb Nat.eqb];
  try done.

Lemma fails_with_single d e m :
  issues d = [e] → message e ≠ m → ¬ fails_with m d.
Proof.
  intros Hi Hm (e' & Hin & He'). rewrite Hi in Hin.
  apply list_elem_of_singleton in Hin as ->. done.
Qed.

Lemma record_in_split (subs : list WebhookSubscription) s :
  s ∈ subs → ∃ pre post, subs = pre ++ s :: post.
Proof. apply list_elem_of_split. Qed.

(** **** A path while arn or pubsub is in effect *)

Lemma path_in_effect_violation d i s :
  incomplete_pair (pubsub_project d) (pubsub_topic d) = false →
  (1 <? top_count d) = false →
  truthy (subscription_path s) = true →
  arn_or_pubsub_in_effect d s = true →
  incomplete_pair (subscription_pubsub_project s) (subscription_pubsub_topic s) = false →
  (1 <? record_count s) = false →
  record_violation d i s =
    Some (custom (if truthy (subscription_endpoint_url d)
                  then msg_path_with_incompatible_destination
                  else msg_path_missing_endpoint)
            [PKey "subscriptions"; PIndex i]).
Proof. truthy_cases. Qed.

Lemma path_in_effect_never_passes d s :
  incomplete_pair (pubsub_project d) (pubsub_topic d) = false →
  (1 <? top_count d) = false →
  truthy (subscription_path s) = true →
  arn_or_pubsub_in_effect d s = true →
  ¬ record_checks_pass d s.
Proof. truthy_cases. Qed.

(** C2, as stated, fails: with a top-level arn and a record that only
    has a path, the reported issue is the missing-endpoint one. *)
Lemma C2_counterexample :
  subscriptions doc_top_arn_path = Some [record_path_only]
  ∧ truthy (subscription_path record_path_only) = true
  ∧ arn_or_pubsub_in_effect doc_top_arn_path record_path_only = true
  ∧ issues doc_top_arn_path =
      [custom msg_path_missing_endpoint [PKey "subscriptions"; PIndex 0]]
  ∧ ¬ fails_with msg_path_with_incompatible_destination doc_top_arn_path.
Proof.
  assert (Hi : issues doc_top_arn_path =
                 [custom msg_path_missing_endpoint [PKey "subscriptions"; PIndex 0]])
    by (vm_compute; reflexivity).
  repeat split; try (vm_compute; reflexivity).
  by apply (fails_with_single _ _ _ Hi).
Qed.

(** C2, amended. A document with a record that has a path while an arn
    or pubsub destination is in effect for it never validates.  When
    every earlier check passes and the record's pubsub pair is complete
    and it declares at most one destination, the issue, at
    [subscriptions, i], is the path-with-incompatible-destination one if
    the document has a top-level subscription_endpoint_url, and the
    missing-endpoint one otherwise. *)
Theorem C2_path_with_arn_or_pubsub :
  (∀ d s,
     s ∈ subscriptions_of d →
     truthy (subscription_path s) = true →
     arn_or_pubsub_in_effect d s = true →
     ¬ validates d)
  ∧ (∀ d pre s post,
       subscriptions_of d = pre ++ s :: post →
       checks_pass_before d pre →
       truthy (subscription_path s) = true →
       arn_or_pubsub_in_effect d s = true →
       incomplete_pair (subscription_pubsub_project s) (subscription_pubsub_topic s) = false →
       (1 <? record_count s) = false →
       issues d =
         [custom (if truthy (subscription_endpoint_url d)
                  then msg_path_with_incompatible_destination
                  else msg_path_missing_endpoint)
            [PKey "subscriptions"; PIndex (length pre)]]).
Proof.
  split.
  - intros d s Hin Hp He Hv. apply validates_inv in Hv as [Htop Hall].
    apply top_level_violation_None in Htop as [Hpair Hcount].
    rewrite Forall_forall in Hall.
    by apply (path_in_effect_never_passes d s Hpair Hcount Hp He), Hall.
  - intros d pre s post Hsubs Hbefore Hp He Hpair Hcount.
    apply (issues_at_record d pre s post _ Hsubs Hbefore).
    apply checks_pass_before_inv in Hbefore as [Htop _].
    apply top_level_violation_None in Htop as [Htp Htc].
    by apply path_in_effect_violation.
Qed.

Lemma C2_witness :
  ¬ validates doc_url_record_arn_path
  ∧ issues doc_url_record_arn_path =
      [custom msg_path_with_incompatible_destination [PKey "subscriptions"; PIndex 1]].
Proof.
  split.
  - apply (proj1 C2_path_with_arn_or_pubsub doc_url_record_arn_path record_arn_path).
    + apply elem_of_cons. right. apply elem_of_cons. by left.
    + vm_compute; reflexivity.
    + vm_compute; reflexivity.
  - apply (proj2 C2_path_with_arn_or_pubsub doc_url_record_arn_path
             [record_path_only] record_arn_path []).
    + reflexivity.
    + vm_compute; reflexivity.
    + vm_compute; reflexivity.
    + vm_compute; reflexivity.
    + vm_compute; reflexivity.
    + vm_compute; reflexivity.
Defined.

(** **** A record declaring both pubsub_project and arn *)

Lemma project_and_arn_violation d i s :
  truthy (subscription_pubsub_project s) = true →
  truthy (subscription_arn s) = true →
  record_violation d i s =
    Some (custom (if truthy (subscription_pubsub_topic s)
                  then getTooManyDesignationsError "per subscription"
                  else getFullPubSubValidationError "a pub sub destination")
            [PKey "subscriptions"; PIndex i]).
Proof. truthy_cases. Qed.

(** C3, as stated, fails: without pubsub_topic the record is rejected
    by the pair-completeness check, which runs first. *)
Lemma C3_counterexample :
  subscriptions doc_record_project_arn = Some [record_project_arn]
  ∧ truthy (subscription_pubsub_project record_project_arn) = true
  ∧ truthy (subscription_arn record_project_arn) = true
  ∧ issues doc_record_project_arn =
      [custom (getFullPubSubValidationError "a pub sub destination")
         [PKey "subscriptions"; PIndex 0]]
  ∧ ¬ fails_with (getTooManyDesignationsError "per subscription") doc_record_project_arn.
Proof.
  assert (Hi : issues doc_record_project_arn =
                 [custom (getFullPubSubValidationError "a pub sub destination")
                    [PKey "subscriptions"; PIndex 0]])
    by (vm_compute; reflexivity).
  repeat split; try (vm_compute; reflexivity).
  by apply (fails_with_single _ _ _ Hi).
Qed.

(** C3, amended. A document with a record that declares both
    pubsub_project and arn never validates.  When every earlier check
    passes, the issue, at [subscriptions, i], is the
    destination-exclusivity one if the record also declares
    pubsub_topic, and the incomplete-pubsub-pair one if it does not. *)
Theorem C3_project_and_arn :
  (∀ d s,
     s ∈ subscriptions_of d →
     truthy (subscription_pubsub_project s) = true →
     truthy (subscription_arn s) = true →
     ¬ validates d)
  ∧ (∀ d pre s post,
       subscriptions_of d = pre ++ s :: post →
       checks_pass_before d pre →
       truthy (subscription_pubsub_project s) = true →
       truthy (subscription_arn s) = true →
       issues d =
         [custom (if truthy (subscription_pubsub_topic s)
                  then getTooManyDesignationsError "per subscription"
                  else getFullPubSubValidationError "a pub sub destination")
            [PKey "subscriptions"; PIndex (length pre)]]).
Proof.
  split.
  - intros d s Hin Hp Ha Hv. apply validates_inv in Hv as [_ Hall].
    rewrite Forall_forall in Hall. specialize (Hall s Hin).
    unfold record_checks_pass in Hall.
    by rewrite (project_and_arn_violation d 0 s Hp Ha) in Hall.
  - intros d pre s post Hsubs Hbefore Hp Ha.
    apply (issues_at_record d pre s post _ Hsubs Hbefore).
    by apply project_and_arn_violation.
Qed.

Lemma C3_witness :
  ¬ validates doc_record_project_topic_arn
  ∧ issues doc_record_project_topic_arn =
      [custom (getTooManyDesignationsError "per subscription")
         [PKey "subscriptions"; PIndex 0]].
Proof.
  split.
  - apply (proj1 C3_project_and_arn doc_record_project_topic_arn record_project_topic_arn).
    + apply elem_of_cons. by left.
    + vm_compute; reflexivity.
    + vm_compute; reflexivity.
  - apply (proj2 C3_project_and_arn doc_record_project_topic_arn
             [] record_project_topic_arn []).
    + reflexivity.
    + vm_compute; reflexivity.
    + vm_compute; reflexivity.
    + vm_compute; reflexivity.
Defined.

(** **** A path without any endpoint URL *)

Lemma path_without_endpoint_violation d i s :
  truthy (subscription_path s) = true →
  truthy (subscription_endpoint_url d) = false →
  truthy (subscription_subscription_endpoint_url s) = false →
  incomplete_pair (subscription_pubsub_project s) (subscription_pubsub_topic s) = false →
  (1 <? record_count s) = false →
  (top_count d =? 0) && (record_count s =? 0) = false →
  record_violation d i s =
    Some (custom msg_path_missing_endpoint [PKey "subscriptions"; PIndex i]).
Proof. truthy_cases. Qed.

Lemma path_without_endpoint_never_passes d s :
  truthy (subscription_path s) = true →
  truthy (subscription_endpoint_url d) = false →
  truthy (subscription_subscription_endpoint_url s) = false →
  ¬ record_checks_pass d s.
Proof. truthy_cases. Qed.

(** C4, as stated, fails: a record with a path and no destination at
    all, in a document without destination, is rejected by the
    missing-destination check, which runs first. *)
Lemma C4_counterexample :
  subscriptions doc_path_no_destination = Some [record_path_only]
  ∧ truthy (subscription_path record_path_only) = true
  ∧ truthy (subscription_endpoint_url doc_path_no_destination) = false
  ∧ truthy (subscription_subscription_endpoint_url record_path_only) = false
  ∧ issues doc_path_no_destination =
      [custom msg_missing_destination [PKey "subscriptions"; PIndex 0]]
  ∧ ¬ fails_with msg_path_missing_endpoint doc_path_no_destination.
Proof.
  assert (Hi : issues doc_path_no_destination =
                 [custom msg_missing_destination [PKey "subscriptions"; PIndex 0]])
    by (vm_compute; reflexivity).
  repeat split; try (vm_compute; reflexivity).
  by apply (fails_with_single _ _ _ Hi).
Qed.

(** C4, amended. A document with a record that has a path while neither
    the top level nor the record declares a subscription_endpoint_url
    never validates.  When every earlier check passes and the record
    passes the pair-completeness, exclusivity and missing-destination
    checks, the issue is the missing-endpoint one, at
    [subscriptions, i]. *)
Theorem C4_path_without_endpoint :
  (∀ d s,
     s ∈ subscriptions_of d →
     truthy (subscription_path s) = true →
     truthy (subscription_endpoint_url d) = false →
     truthy (subscription_subscription_endpoint_url s) = false →
     ¬ validates d)
  ∧ (∀ d pre s post,
       subscriptions_of d = pre ++ s :: post →
       checks_pass_before d pre →
       truthy (subscription_path s) = true →
       truthy (subscription_endpoint_url d) = false →
       truthy (subscription_subscription_endpoint_url s) = false →
       incomplete_pair (subscription_pubsub_project s) (subscription_pubsub_topic s) = false →
       (1 <? record_count s) = false →
       (top_count d =? 0) && (record_count s =? 0) = false →
       issues d =
         [custom msg_path_missing_endpoint [PKey "subscriptions"; PIndex (length pre)]]).
Proof.
  split.
  - intros d s Hin Hp Hu Hsu Hv. apply validates_inv in Hv as [_ Hall].
    rewrite Forall_forall in Hall.
    by apply (path_without_endpoint_never_passes d s Hp Hu Hsu), Hall.
  - intros d pre s post Hsubs Hbefore Hp Hu Hsu Hpair Hcount Hmiss.
    apply (issues_at_record d pre s post _ Hsubs Hbefore).
    by apply path_without_endpoint_violation.
Qed.

Lemma C4_witness :
  ¬ validates doc_top_arn_path
  ∧ issues doc_top_arn_path =
      [custom msg_path_missing_endpoint [PKey "subscriptions"; PIndex 0]].
Proof.
  split.
  - apply (proj1 C4_path_without_endpoint doc_top_arn_path record_path_only).
    + apply elem_of_cons. by left.
    + vm_compute; reflexivity.
    + vm_compute; reflexivity.
    + vm_compute; reflexivity.
  - apply (proj2 C4_path_without_endpoint doc_top_arn_path [] record_path_only []).
    + reflexivity.
    + vm_compute; reflexivity.
    + vm_compute; reflexivity.
    + vm_compute; reflexivity.
    + vm_compute; reflexivity.
    + vm_compute; reflexivity.
    + vm_compute; reflexivity.
    + vm_compute; reflexivity.
Defined.

End WebhooksFacts.

(** * Properties of the rewriter *)

Module RewriteFacts.
Import Rewrite.

(** Induction on schemas, with the hypothesis for every field of a shape. *)
Lemma ZodSchema_nested_ind (P : ZodSchema → Prop) :
  P ZodAbsent → P ZodString → P ZodNumber → P ZodBoolean →
  (∀ values, P (ZodEnum values)) →
  (∀ inner, P (ZodEffects inner)) →
  (∀ inner, P inner → P (ZodNullable inner)) →
  (∀ inner, P inner → P (ZodOptional inner)) →
  (∀ element, P element → P (ZodArray element)) →
  (∀ shape, Forall (λ kv, P kv.2) shape → P (ZodObject shape)) →
  ∀ schema, P schema.
Proof.
  intros Ha Hs Hn Hb Hen He Hnu Ho Har Hob.
  fix IH 1. intros [| | | |values|inner|inner|inner|element|shape].
  - exact Ha.
  - exact Hs.
  - exact Hn.
  - exact Hb.
  - apply Hen.
  - apply He.
  - apply Hnu, IH.
  - apply Ho, IH.
  - apply Har, IH.
  - apply Hob. induction shape as [|[k sub] r IHr]; constructor; [apply IH|apply IHr].
Qed.

(** *** Property lookup *)

Lemma distinct_cons k r :
  distinct (k :: r) = true → (k ∉ r) ∧ distinct r = true.
Proof.
  cbn. intros [Hk Hr]%andb_true_iff. split; [|done].
  intros Hin. apply negb_true_iff in Hk.
  assert (existsb (String.eqb k) r = true) as Ht; [|congruence].
  apply existsb_exists. exists k. split; [by apply list_elem_of_In|apply String.eqb_refl].
Qed.

Lemma get_notin k (o : JsObject) : k ∉ List.map fst o → get k o = VUndefined.
Proof.
  induction o as [|[k' v] r IH]; cbn; [done|]. intros Hk.
  destruct (String.eqb_spec k k') as [->|Hne].
  - exfalso. apply Hk. by left.
  - apply IH. intros Hin. apply Hk. by right.
Qed.

Lemma get_app_notin k (pre o : JsObject) :
  k ∉ List.map fst pre → get k (pre ++ o) = get k o.
Proof.
  induction pre as [|[k' v] r IH]; cbn; [done|]. intros Hk.
  destruct (String.eqb_spec k k') as [->|Hne].
  - exfalso. apply Hk. by left.
  - apply IH. intros Hin. apply Hk. by right.
Qed.

Lemma get_head k v (o : JsObject) : get k ((k, v) :: o) = v.
Proof. cbn. by rewrite String.eqb_refl. Qed.

Lemma set_notin k v (o : JsObject) :
  k ∉ List.map fst o → set k v o = o ++ [(k, v)].
Proof.
  induction o as [|[k' v'] r IH]; cbn; [done|]. intros Hk.
  destruct (String.eqb_spec k k') as [->|Hne].
  - exfalso. apply Hk. by left.
  - f_equal. apply IH. intros Hin. apply Hk. by right.
Qed.

Lemma remove_last k v (o : JsObject) :
  k ∉ List.map fst o → remove k (o ++ [(k, v)]) = o.
Proof.
  induction o as [|[k' v'] r IH]; cbn.
  - by rewrite String.eqb_refl.
  - intros Hk. destruct (String.eqb_spec k k') as [->|Hne].
    + exfalso. apply Hk. by left.
    + f_equal. apply IH. intros Hin. apply Hk. by right.
Qed.

Lemma plain_get k o : plain (VObject o) = true → plain (get k o) = true.
Proof.
  cbn. induction o as [|[k' v] r IH]; cbn; [done|].
  intros [Hv Hr]%andb_true_iff. destruct (String.eqb k k'); auto.
Qed.

Lemma field_of_plain c k ck :
  plain c = true → field_of c k = Some ck → plain ck = true.
Proof.
  destruct c; intros Hc Hck; cbn in Hck; try done; try (by injection Hck as <-).
  injection Hck as <-. by apply plain_get.
Qed.

(** *** The rewriting on plain values *)

Lemma reshape_defined schema c y :
  reshape schema c = Some y → is_undefined c = false → is_undefined y = false.
Proof.
  revert c y. induction schema using ZodSchema_nested_ind; intros c y Hr Hc;
    cbn in Hr; try (by injection Hr as <-); eauto.
  - destruct c; try done. destruct (traverse _ _); [|done]. by injection Hr as <-.
  - destruct (reshape_fields _ _ _); [|done]. by injection Hr as <-.
Qed.

Lemma reshape_fields_keys rec c entries : ∀ fs,
  reshape_fields rec c entries = Some fs →
  ∀ k, k ∈ List.map fst fs → k ∈ List.map fst entries.
Proof.
  induction entries as [|[key sub] r IH]; intros fs Hr k Hk; cbn in Hr.
  - injection Hr as <-. done.
  - destruct (field_of c key) as [ck|]; [|done].
    destruct (is_undefined ck).
    { right. by eapply IH. }
    destruct (rec sub ck) as [v|]; [|done].
    destruct (reshape_fields rec c r) as [rest|]; [|done].
    injection Hr as <-. destruct (is_empty_value v).
    + right. by eapply IH.
    + cbn in Hk. apply elem_of_cons in Hk as [->|Hk]; [by left|right; by eapply IH].
Qed.

Lemma reshape_fields_idempotent entries :
  Forall (λ kv, ∀ c y, reshape kv.2 c = Some y → reshape kv.2 y = Some y) entries →
  distinct (List.map fst entries) = true →
  ∀ c pre fs,
    reshape_fields reshape c entries = Some fs →
    (∀ k, k ∈ List.map fst entries → k ∉ List.map fst pre) →
    reshape_fields reshape (VObject (pre ++ fs)) entries = Some fs.
Proof.
  induction entries as [|[key sub] r IH]; intros Hall Hd c pre fs Hr Hpre; [done|].
  inversion_clear Hall as [|? ? Hsub Hrest]. cbn in Hsub.
  cbn [List.map fst] in Hd. apply distinct_cons in Hd as [Hkey Hd].
  assert (Hpre_r : ∀ k, k ∈ List.map fst r → k ∉ List.map fst pre).
  { intros k Hk. apply Hpre. by right. }
  assert (Hkpre : key ∉ List.map fst pre) by (apply Hpre; by left).
  cbn [reshape_fields] in Hr |- *. cbn [field_of].
  assert (Hskip : ∀ rest, reshape_fields reshape c r = Some rest →
            get key (pre ++ rest) = VUndefined).
  { intros rest Hrest'. rewrite get_app_notin by done. apply get_notin.
    intros Hin. apply Hkey. by eapply reshape_fields_keys. }
  destruct (field_of c key) as [ck|]; [|done].
  destruct (is_undefined ck) eqn:Hck.
  { rewrite (Hskip fs Hr). cbn [is_undefined]. by apply (IH Hrest Hd c). }
  destruct (reshape sub ck) as [v|] eqn:Hv; [|done].
  destruct (reshape_fields reshape c r) as [rest|] eqn:Hrest'; [|done].
  injection Hr as <-. destruct (is_empty_value v) eqn:Hempty.
  { rewrite (Hskip rest eq_refl). cbn [is_undefined]. by apply (IH Hrest Hd c). }
  rewrite get_app_notin, get_head by done.
  rewrite (reshape_defined sub ck v Hv Hck), (Hsub ck v Hv), Hempty.
  replace (pre ++ (key, v) :: rest) with ((pre ++ [(key, v)]) ++ rest)
    by (by rewrite <- app_assoc).
  rewrite (IH Hrest Hd c (pre ++ [(key, v)]) rest Hrest'); [done|].
  intros k Hk. rewrite map_app. cbn. intros [Hin|Hin]%elem_of_app.
  - by apply (Hpre_r k).
  - apply list_elem_of_singleton in Hin as ->. done.
Qed.

(** Rewriting, as a function on plain values, is idempotent. *)
Lemma reshape_idempotent schema :
  shapes_ok schema = true →
  ∀ c y, reshape schema c = Some y → reshape schema y = Some y.
Proof.
  induction schema as [| | | |values|inner|inner IH|inner IH|element IH|shape IH]
    using ZodSchema_nested_ind; intros Hok c y Hr; cbn in Hr |- *;
    try (by injection Hr as <-); eauto.
  - destruct c as [| | | | |items| |]; try done.
    destruct (traverse (reshape element) items) as [ys|] eqn:Ht; [|done].
    injection Hr as <-. cbn in Hok.
    assert (traverse (reshape element) ys = Some ys) as ->; [|done].
    revert ys Ht. induction items as [|x r IHr]; intros ys Ht; cbn in Ht.
    { by injection Ht as <-. }
    destruct (reshape element x) as [v|] eqn:Hx; [|done].
    destruct (traverse (reshape element) r) as [vs|]; [|done].
    injection Ht as <-. cbn. by rewrite (IH Hok x v Hx), (IHr vs eq_refl).
  - cbn in Hok. apply andb_true_iff in Hok as [Hd Hall].
    destruct (reshape_fields reshape c shape) as [fs|] eqn:Hf; [|done].
    injection Hr as <-.
    assert (Hsub : Forall (λ kv, ∀ c y, reshape kv.2 c = Some y → reshape kv.2 y = Some y)
                     shape).
    { rewrite Forall_forall in IH. apply Forall_forall. intros kv Hin. apply IH; [done|].
      rewrite forallb_forall in Hall. apply Hall. by apply list_elem_of_In. }
    pose proof (reshape_fields_idempotent shape Hsub Hd c [] fs Hf) as Hi.
    cbn [app] in Hi. rewrite Hi; [done|]. intros k _ Hin. by apply elem_of_nil in Hin.
Qed.

Lemma reshape_fields_follow entries :
  Forall (λ kv, ∀ c y, reshape kv.2 c = Some y → follows kv.2 y) entries →
  ∀ c fs, reshape_fields reshape c entries = Some fs → fields_follow entries fs.
Proof.
  induction entries as [|[key sub] r IH]; intros Hall c fs Hr; cbn in Hr.
  - injection Hr as <-. constructor.
  - inversion_clear Hall as [|? ? Hsub Hrest]. cbn in Hsub.
    destruct (field_of c key) as [ck|]; [|done].
    destruct (is_undefined ck).
    { constructor. by eapply IH. }
    destruct (reshape sub ck) as [v|] eqn:Hv; [|done].
    destruct (reshape_fields reshape c r) as [rest|] eqn:Hrest'; [|done].
    injection Hr as <-. destruct (is_empty_value v) eqn:Hempty.
    + constructor. by eapply IH.
    + apply fields_follow_keep; eauto.
Qed.

(** Where there is neither an object nor an array schema, every value
    follows. *)
Lemma follows_leaf_only schema y : leaf_only schema = true → follows schema y.
Proof.
  induction schema as [| | | |values|inner IH|inner IH|inner IH|element _|shape];
    intros Hleaf; try done; constructor; auto.
Qed.

(** The output on plain values follows the schema, if the schema has
    its refinements on leaves only: what is under a refinement is
    returned as it is given. *)
Lemma reshape_follows schema :
  effects_on_leaves schema = true →
  ∀ c y, reshape schema c = Some y → follows schema y.
Proof.
  induction schema as [| | | |values|inner|inner IH|inner IH|element IH|shape IH]
    using ZodSchema_nested_ind; intros He c y Hr; cbn in Hr, He; try by constructor.
  - constructor. by apply follows_leaf_only.
  - constructor. eauto.
  - constructor. eauto.
  - destruct c as [| | | | |items| |]; try done.
    destruct (traverse (reshape element) items) as [ys|] eqn:Ht; [|done].
    injection Hr as <-. constructor.
    revert ys Ht. induction items as [|x r IHr]; intros ys Ht; cbn in Ht.
    { injection Ht as <-. constructor. }
    destruct (reshape element x) as [v|] eqn:Hx; [|done].
    destruct (traverse (reshape element) r) as [vs|]; [|done].
    injection Ht as <-. constructor; eauto.
  - destruct (reshape_fields reshape c shape) as [fs|] eqn:Hf; [|done].
    injection Hr as <-. constructor. eapply reshape_fields_follow; [|exact Hf].
    rewrite Forall_forall in IH. apply Forall_forall. intros kv Hin. apply IH; [done|].
    rewrite forallb_forall in He. apply He. by apply list_elem_of_In.
Qed.

(** [rewriteConfiguration] does not look under a refinement. *)
Lemma reshape_seen schema : ∀ c, reshape (seen schema) c = reshape schema c.
Proof.
  induction schema as [| | | |values|inner|inner IH|inner IH|element IH|shape IH]
    using ZodSchema_nested_ind; intros c; cbn [seen reshape]; try done.
  - destruct c as [| | | | |items| |]; try done. f_equal.
    induction items as [|x r IHr]; [done|]. cbn. by rewrite IH, IHr.
  - f_equal. induction IH as [|[k sub] r Hsub _ IHr]; [done|].
    cbn [List.map reshape_fields fst snd] in *. destruct (field_of c k); [|done].
    destruct (is_undefined v); [done|]. rewrite Hsub. destruct (reshape sub v); [|done].
    by rewrite IHr.
Qed.

Lemma effects_on_leaves_seen schema : effects_on_leaves (seen schema) = true.
Proof.
  induction schema as [| | | |values|inner|inner IH|inner IH|element IH|shape IH]
    using ZodSchema_nested_ind; cbn; try done.
  induction IH as [|[k sub] r Hsub _ IHr]; [done|]. cbn in *. by rewrite Hsub, IHr.
Qed.

(** On any schema the output follows what [rewriteConfiguration] sees
    of it. *)
Lemma reshape_follows_seen schema c y :
  reshape schema c = Some y → follows (seen schema) y.
Proof.
  intros Hr. apply (reshape_follows (seen schema) (effects_on_leaves_seen schema) c).
  by rewrite reshape_seen.
Qed.

Lemma seen_effects_on_leaves schema : effects_on_leaves schema = true → ∀ y,
  follows (seen schema) y → follows schema y.
Proof.
  induction schema as [| | | |values|inner|inner IH|inner IH|element IH|shape IH]
    using ZodSchema_nested_ind; intros He y Hf; cbn in He, Hf; try done.
  - constructor. by apply follows_leaf_only.
  - inversion_clear Hf. constructor. auto.
  - inversion_clear Hf. constructor. auto.
  - inversion_clear Hf as [| | |? ? Hall| | | | | |]. constructor.
    eapply Forall_impl; [exact Hall|]. auto.
  - inversion_clear Hf as [| |? ? Hfs| | | | | | |]. constructor.
    revert fs Hfs. induction IH as [|[k sub] r Hsub _ IHr]; intros fs Hfs.
    { inversion_clear Hfs. constructor. }
    cbn in He. apply andb_true_iff in He as [Hk Hr].
    cbn [List.map fst snd] in Hfs. inversion_clear Hfs.
    + constructor. by apply IHr.
    + apply fields_follow_keep; [by apply Hsub|done|by apply IHr].
Qed.

(** What [reshape] leaves of a field: nothing, if the configuration has
    none or its rewriting is empty, and else its rewriting. *)
Lemma reshape_fields_get entries :
  distinct (List.map fst entries) = true →
  ∀ c fs, reshape_fields reshape c entries = Some fs →
  ∀ k sub, (k, sub) ∈ entries →
  ∃ ck, field_of c k = Some ck
        ∧ if is_undefined ck then get k fs = VUndefined
          else ∃ v, reshape sub ck = Some v
                    ∧ get k fs = if is_empty_value v then VUndefined else v.
Proof.
  induction entries as [|[key s0] r IH]; intros Hd c fs Hr k sub Hin.
  { by apply elem_of_nil in Hin. }
  cbn [List.map fst] in Hd. apply distinct_cons in Hd as [Hkey Hd].
  cbn [reshape_fields] in Hr.
  destruct (field_of c key) as [ck|] eqn:Hck; [|done].
  assert (Hskip : ∀ rest, reshape_fields reshape c r = Some rest → get key rest = VUndefined).
  { intros rest Hrest. apply get_notin. intros Hin'. apply Hkey.
    by eapply reshape_fields_keys. }
  apply elem_of_cons in Hin as [[= -> ->]|Hin].
  - exists ck. split; [done|]. destruct (is_undefined ck) eqn:Hu; [by apply Hskip|].
    destruct (reshape s0 ck) as [v|] eqn:Hv; [|done].
    destruct (reshape_fields reshape c r) as [rest|] eqn:Hrest; [|done].
    injection Hr as <-. exists v. split; [done|].
    destruct (is_empty_value v); [by apply Hskip|]. apply get_head.
  - assert (Hne : k ≠ key).
    { intros ->. apply Hkey. apply list_elem_of_fmap. by exists (key, sub). }
    assert (Hget : ∀ v rest, get k ((key, v) :: rest) = get k rest).
    { intros v rest. cbn [get]. by destruct (String.eqb_spec k key). }
    destruct (is_undefined ck); [by apply (IH Hd c fs Hr k sub)|].
    destruct (reshape s0 ck) as [v|]; [|done].
    destruct (reshape_fields reshape c r) as [rest|] eqn:Hrest; [|done].
    injection Hr as <-.
    destruct (IH Hd c rest Hrest k sub Hin) as (ck' & Hck' & Hk).
    exists ck'. split; [done|]. destruct (is_empty_value v); [done|].
    by rewrite Hget.
Qed.

(** An object that follows its schema lists a selection of the declared
    fields, in the declared order. *)
Lemma fields_follow_sublist shape fs :
  fields_follow shape fs → sublist (List.map fst fs) (List.map fst shape).
Proof.
  induction 1; cbn; [constructor|by apply sublist_cons|by apply sublist_skip].
Qed.

Lemma fields_follow_nonempty shape fs k v :
  fields_follow shape fs → (k, v) ∈ fs → is_empty_value v = false.
Proof.
  induction 1; intros Hin; [by apply elem_of_nil in Hin|auto|].
  apply elem_of_cons in Hin as [[= -> ->]|Hin]; auto.
Qed.

Lemma reshape_fields_plain entries :
  Forall (λ kv, ∀ c y, plain c = true → reshape kv.2 c = Some y → plain y = true) entries →
  ∀ c fs, plain c = true → reshape_fields reshape c entries = Some fs →
          plain (VObject fs) = true.
Proof.
  induction entries as [|[key sub] r IH]; intros Hall c fs Hc Hr; cbn in Hr.
  - by injection Hr as <-.
  - inversion_clear Hall as [|? ? Hsub Hrest]. cbn in Hsub.
    destruct (field_of c key) as [ck|] eqn:Hck; [|done].
    pose proof (field_of_plain c key ck Hc Hck) as Hpck.
    destruct (is_undefined ck); [by apply (IH Hrest c fs Hc)|].
    destruct (reshape sub ck) as [v|] eqn:Hv; [|done].
    destruct (reshape_fields reshape c r) as [rest|] eqn:Hrest'; [|done].
    injection Hr as <-. destruct (is_empty_value v); [by apply (IH Hrest c rest Hc)|].
    cbn. apply andb_true_iff. split; [by apply (Hsub ck)|].
    by apply (IH Hrest c rest Hc).
Qed.

(** Plain configurations give plain outputs. *)
Lemma reshape_plain schema :
  ∀ c y, plain c = true → reshape schema c = Some y → plain y = true.
Proof.
  induction schema as [| | | |values|inner|inner IH|inner IH|element IH|shape IH]
    using ZodSchema_nested_ind; intros c y Hc Hr; cbn in Hr;
    try (by injection Hr as <-); eauto.
  - destruct c as [| | | | |items| |]; try done.
    destruct (traverse (reshape element) items) as [ys|] eqn:Ht; [|done].
    injection Hr as <-. cbn in Hc |- *.
    revert ys Ht. induction items as [|x r IHr]; intros ys Ht; cbn in Ht.
    { by injection Ht as <-. }
    cbn in Hc. apply andb_true_iff in Hc as [Hx Hr].
    destruct (reshape element x) as [v|] eqn:Hv; [|done].
    destruct (traverse (reshape element) r) as [vs|]; [|done].
    injection Ht as <-. cbn. apply andb_true_iff. split; eauto.
  - destruct (reshape_fields reshape c shape) as [fs|] eqn:Hf; [|done].
    injection Hr as <-. by eapply reshape_fields_plain.
Qed.

(** *** Schemas without objects: the store is not touched *)

Lemma rewriteConfiguration_object_free schema :
  object_free schema = true →
  ∀ c r σ,
    rewriteConfiguration schema c r σ =
      match reshape schema c with
      | Some y => Some (y, σ)
      | None => None
      end.
Proof.
  induction schema as [| | | |values|inner|inner IH|inner IH|element IH|shape IH]
    using ZodSchema_nested_ind; intros Hf c r σ; cbn in Hf |- *; try done; eauto.
  destruct c as [| | | | |items| |]; try done.
  unfold bind.
  assert (Hmap : ∀ σ, map (λ item, rewriteConfiguration element item r) items σ =
            match traverse (reshape element) items with
            | Some ys => Some (ys, σ)
            | None => None
            end).
  { clear σ. induction items as [|x rest IHr]; intros σ; cbn; [done|].
    unfold bind. rewrite (IH Hf x r σ). destruct (reshape element x); [|done].
    rewrite IHr. by destruct (traverse _ _). }
  rewrite Hmap. by destruct (traverse _ _).
Qed.

(** *** The store *)

Lemma represents_stable lo σ σ' :
  (∀ l, lo ≤ l → l < length σ → σ' !! l = σ !! l) →
  (∀ x y, represents lo σ x y → represents lo σ' x y)
  ∧ (∀ o fs, fields_represent lo σ o fs → fields_represent lo σ' o fs).
Proof.
  intros Hagree. apply represents_mutual.
  - intros v Hv. by constructor.
  - intros l o fs Hlo Hl _ IH. apply represents_ref with o; [done| |done].
    rewrite Hagree; [done..|]. by eapply lookup_lt_Some.
  - constructor.
  - intros k x y o fs _ IHx _ IHo. by constructor.
Qed.

Lemma represents_weaken lo lo' σ :
  lo' ≤ lo →
  (∀ x y, represents lo σ x y → represents lo' σ x y)
  ∧ (∀ o fs, fields_represent lo σ o fs → fields_represent lo' σ o fs).
Proof.
  intros Hle. apply represents_mutual.
  - intros v Hv. by constructor.
  - intros l o fs Hlo Hl _ IH. apply represents_ref with o; [lia|done..].
  - constructor.
  - intros k x y o fs _ IHx _ IHo. by constructor.
Qed.

Lemma fields_represent_snoc lo σ o fs k x y :
  fields_represent lo σ o fs → represents lo σ x y →
  fields_represent lo σ (o ++ [(k, x)]) (fs ++ [(k, y)]).
Proof.
  induction 1; intros Hx; cbn; constructor; auto. constructor.
Qed.

Lemma fields_represent_empty lo σ o fs :
  fields_represent lo σ o fs → (length o =? 0) = is_empty_value (VObject fs).
Proof. by destruct 1. Qed.

Lemma is_empty_Object_plain v σ :
  plain v = true → is_empty_Object v σ = Some (is_empty_value v, σ).
Proof. destruct v as [| | | | |[|? ?]|[|? ?]|]; done. Qed.

Lemma frame_refl l σ : frame l σ σ.
Proof. split; [done|auto]. Qed.

Lemma frame_trans l σ1 σ2 σ3 : frame l σ1 σ2 → frame l σ2 σ3 → frame l σ1 σ3.
Proof.
  intros [Hlen1 H1] [Hlen2 H2]. split; [lia|].
  intros l' Hl' Hne. rewrite H2, H1; [done..|lia|done].
Qed.

(** *** The object branch *)

Lemma rewriteConfiguration_object shape c r :
  rewriteConfiguration (ZodObject shape) c r =
    bind (forEach (rewrite_entry c r) shape) (λ _, ret r).
Proof. reflexivity. Qed.

Lemma rewrite_entry_skip c r key sub σ :
  plain c = true → field_of c key = Some VUndefined →
  rewrite_entry c r (key, sub) σ = Some (tt, σ).
Proof.
  destruct c; intros Hc Hf; cbn in Hf |- *; try done.
  unfold bind, read. injection Hf as ->. done.
Qed.

Lemma rewrite_entry_null c r key sub σ :
  plain c = true → field_of c key = None → rewrite_entry c r (key, sub) σ = None.
Proof. destruct c; intros Hc Hf; cbn in Hf |- *; done. Qed.

Lemma rewrite_entry_field c r key sub ck σ :
  field_of c key = Some ck → is_undefined ck = false →
  rewrite_entry c r (key, sub) σ = rewrite_field r key sub ck σ.
Proof.
  destruct c; intros Hf Hck; cbn in Hf |- *; try done;
    try (injection Hf as <-; done).
  injection Hf as <-. unfold bind at 1. cbn [read]. by rewrite Hck.
Qed.

Lemma is_undefined_eq v : is_undefined v = true → v = VUndefined.
Proof. by destruct v. Qed.

(** A call that leaves everything below [lo] but [l] alone keeps what
    the objects from [lo] on stand for. *)
Lemma frame_stable l lo σ σ' :
  frame l σ σ' → l < lo →
  (∀ x y, represents lo σ x y → represents lo σ' x y)
  ∧ (∀ o fs, fields_represent lo σ o fs → fields_represent lo σ' o fs).
Proof.
  intros [_ Hfr] Hl. apply represents_stable. intros l' Hlo Hl'. apply Hfr; [done|lia].
Qed.

Lemma frame_insert l σ o : frame l σ (<[l := o]> σ).
Proof.
  split; [by rewrite length_insert|].
  intros l' _ Hne. by apply list_lookup_insert_ne.
Qed.

(** A call on a new object leaves the whole of the earlier store alone. *)
Lemma frame_fresh l σ σ' :
  frame (length σ) (σ ++ [[]]) σ' →
  (frame l σ σ' ∧ σ' !! l = (σ ++ [[]]) !! l) ∨ l ≥ length σ.
Proof.
  intros [Hlen Hfr]. rewrite length_app in Hlen. cbn in Hlen.
  destruct (decide (l < length σ)) as [Hl|Hl]; [left|right; lia].
  split; [split; [lia|]|].
  - intros l' Hl' _. rewrite Hfr; [by apply lookup_app_l|rewrite length_app; cbn; lia|lia].
  - apply Hfr; [rewrite length_app; cbn; lia|lia].
Qed.

Lemma rewrite_field_refines sub key ck l lo σ o acc :
  refines sub → plain ck = true →
  l < lo → lo ≤ length σ →
  σ !! l = Some o → fields_represent lo σ o acc →
  key ∉ List.map fst o →
  match reshape sub ck with
  | None => rewrite_field (VRef l) key sub ck σ = None
  | Some v =>
      ∃ σ' x,
        rewrite_field (VRef l) key sub ck σ = Some (tt, σ')
        ∧ frame l σ σ'
        ∧ σ' !! l = Some (if is_empty_value v then o else o ++ [(key, x)])
        ∧ fields_represent lo σ' o acc
        ∧ represents lo σ' x v
  end.
Proof.
  intros Hsub Hck Hl Hlo Hσl Hrep Hkey.
  assert (Hllen : l < length σ) by lia.
  assert (Hnew : (σ ++ [[]]) !! length σ = Some ([] : JsObject)).
  { by apply list_lookup_middle. }
  specialize (Hsub ck (length σ) (σ ++ [[]]) Hck Hnew).
  destruct (reshape sub ck) as [v|].
  2: { unfold rewrite_field. unfold bind at 1. cbn [new_object].
       unfold bind at 1. by rewrite Hsub. }
  destruct Hsub as (x & σ2 & Hrun & Hfr2 & Hfill).
  destruct (frame_fresh l σ σ2 Hfr2) as [[Hfr Hl2]|?]; [|lia].
  rewrite lookup_app_l in Hl2 by done. rewrite Hσl in Hl2.
  assert (Hlen2 : length σ < length σ2).
  { destruct Hfr2 as [Hlen _]. rewrite length_app in Hlen. cbn in Hlen. lia. }
  set (σ3 := <[l := o ++ [(key, x)]]> σ2).
  assert (Hfr3 : frame l σ σ3).
  { apply (frame_trans l σ σ2 σ3 Hfr). apply frame_insert. }
  assert (Hl3 : σ3 !! l = Some (o ++ [(key, x)])).
  { apply list_lookup_insert_eq. lia. }
  assert (Hx3 : represents lo σ3 x v ∧ is_empty_Object x σ3 = Some (is_empty_value v, σ3)).
  { destruct Hfill as [[-> Hv]|(-> & ox & fs & -> & Hn & Hfs)].
    - split; [by constructor|by apply is_empty_Object_plain].
    - assert (Hn3 : σ3 !! length σ = Some ox).
      { unfold σ3. rewrite list_lookup_insert_ne by lia. done. }
      split.
      + apply represents_ref with ox; [lia|done|].
        apply (frame_stable l lo σ2 σ3 (frame_insert _ _ _) Hl).
        apply (represents_weaken (length (σ ++ [[]])) lo σ2); [|done].
        rewrite length_app. lia.
      + cbn [is_empty_Object]. rewrite Hn3.
        by rewrite (fields_represent_empty _ _ _ _ Hfs). }
  destruct Hx3 as [Hx3 Hempty].
  assert (Hacc3 : fields_represent lo σ3 o acc).
  { by apply (frame_stable l lo σ σ3 Hfr3 Hl). }
  assert (Hrf : rewrite_field (VRef l) key sub ck σ =
                Some (tt, if is_empty_value v then <[l := o]> σ3 else σ3)).
  { unfold rewrite_field. unfold bind at 1. cbn [new_object].
    unfold bind at 1. rewrite Hrun.
    unfold bind at 1. cbn [write]. rewrite Hl2, (set_notin key x o Hkey). fold σ3.
    unfold bind at 1. cbn [read]. rewrite Hl3.
    rewrite get_app_notin, get_head by done.
    unfold bind at 1. rewrite Hempty.
    destruct (is_empty_value v); [|done].
    cbn [delete_property]. by rewrite Hl3, (remove_last key x o Hkey). }
  rewrite Hrf. destruct (is_empty_value v).
  - exists (<[l := o]> σ3), x. split; [done|].
    assert (Hfr4 : frame l σ3 (<[l := o]> σ3)) by apply frame_insert.
    split; [by apply (frame_trans l σ σ3)|].
    split; [apply list_lookup_insert_eq; unfold σ3; rewrite length_insert; lia|].
    split; by apply (frame_stable l lo σ3 _ Hfr4 Hl).
  - exists σ3, x. done.
Qed.

Lemma forEach_refines entries :
  Forall (λ kv, refines kv.2) entries →
  distinct (List.map fst entries) = true →
  ∀ c l lo σ o acc,
    plain c = true → l < lo → lo ≤ length σ →
    σ !! l = Some o → fields_represent lo σ o acc →
    (∀ k, k ∈ List.map fst entries → k ∉ List.map fst o) →
    match reshape_fields reshape c entries with
    | None => forEach (rewrite_entry c (VRef l)) entries σ = None
    | Some fs =>
        ∃ σ' o',
          forEach (rewrite_entry c (VRef l)) entries σ = Some (tt, σ')
          ∧ frame l σ σ' ∧ σ' !! l = Some o'
          ∧ fields_represent lo σ' o' (acc ++ fs)
    end.
Proof.
  induction entries as [|[key sub] r IH];
    intros Hall Hd c l lo σ o acc Hc Hl Hlo Hσl Hrep Hkeys.
  { cbn. exists σ, o. rewrite app_nil_r. eauto using frame_refl. }
  inversion_clear Hall as [|? ? Hsub Hrest]. cbn in Hsub.
  cbn [List.map fst] in Hd. apply distinct_cons in Hd as [Hkey Hd].
  assert (Hkeys_r : ∀ k, k ∈ List.map fst r → k ∉ List.map fst o).
  { intros k Hk. apply Hkeys. by right. }
  assert (Hstep : ∀ σ1,
            rewrite_entry c (VRef l) (key, sub) σ = Some (tt, σ1) →
            forEach (rewrite_entry c (VRef l)) ((key, sub) :: r) σ =
              forEach (rewrite_entry c (VRef l)) r σ1).
  { intros σ1 H1. cbn [forEach]. unfold bind at 1. by rewrite H1. }
  assert (Hfail : rewrite_entry c (VRef l) (key, sub) σ = None →
            forEach (rewrite_entry c (VRef l)) ((key, sub) :: r) σ = None).
  { intros H1. cbn [forEach]. unfold bind at 1. by rewrite H1. }
  cbn [reshape_fields].
  destruct (field_of c key) as [ck|] eqn:Hf.
  2: { apply Hfail. by apply rewrite_entry_null. }
  destruct (is_undefined ck) eqn:Hu.
  { apply is_undefined_eq in Hu as ->.
    rewrite (Hstep σ) by (by apply rewrite_entry_skip).
    apply (IH Hrest Hd c l lo σ o acc Hc Hl Hlo Hσl Hrep Hkeys_r). }
  pose proof (rewrite_field_refines sub key ck l lo σ o acc Hsub
                (field_of_plain c key ck Hc Hf) Hl Hlo Hσl Hrep
                (Hkeys key ltac:(by left))) as Hfield.
  rewrite <- (rewrite_entry_field c (VRef l) key sub ck σ Hf Hu) in Hfield.
  destruct (reshape sub ck) as [v|]; [|by apply Hfail].
  destruct Hfield as (σ1 & x & Hrun & Hfr1 & Hl1 & Hacc1 & Hx1).
  rewrite (Hstep σ1 Hrun).
  assert (Hlo1 : lo ≤ length σ1) by (destruct Hfr1; lia).
  destruct (is_empty_value v).
  - specialize (IH Hrest Hd c l lo σ1 o acc Hc Hl Hlo1 Hl1 Hacc1 Hkeys_r).
    destruct (reshape_fields reshape c r) as [rest|]; [|done].
    destruct IH as (σ' & o' & -> & Hfr' & Hl' & Hrep').
    exists σ', o'. eauto using frame_trans.
  - assert (Hacc1' : fields_represent lo σ1 (o ++ [(key, x)]) (acc ++ [(key, v)])).
    { by apply fields_represent_snoc. }
    assert (Hkeys1 : ∀ k, k ∈ List.map fst r → k ∉ List.map fst (o ++ [(key, x)])).
    { intros k Hk. rewrite map_app. cbn. intros [Hin|Hin]%elem_of_app.
      - by apply (Hkeys_r k).
      - apply list_elem_of_singleton in Hin as ->. done. }
    specialize (IH Hrest Hd c l lo σ1 _ _ Hc Hl Hlo1 Hl1 Hacc1' Hkeys1).
    destruct (reshape_fields reshape c r) as [rest|]; [|done].
    destruct IH as (σ' & o' & -> & Hfr' & Hl' & Hrep').
    exists σ', o'. rewrite <- app_assoc in Hrep'. eauto using frame_trans.
Qed.

(** Without arrays of objects, [rewriteConfiguration] on a plain
    configuration and an empty result object computes [reshape]. *)
Lemma rewriteConfiguration_refines schema :
  shapes_ok schema = true → arrays_flat schema = true → refines schema.
Proof.
  induction schema as [| | | |values|inner|inner IH|inner IH|element IH|shape IH]
    using ZodSchema_nested_ind; intros Hok Hflat c l σ Hc Hσl.
  - exists VNull, σ. split; [done|]. split; [apply frame_refl|by left].
  - exists c, σ. split; [done|]. split; [apply frame_refl|by left].
  - exists c, σ. split; [done|]. split; [apply frame_refl|by left].
  - exists c, σ. split; [done|]. split; [apply frame_refl|by left].
  - exists c, σ. split; [done|]. split; [apply frame_refl|by left].
  - exists c, σ. split; [done|]. split; [apply frame_refl|by left].
  - by apply IH.
  - by apply IH.
  - rewrite (rewriteConfiguration_object_free (ZodArray element) Hflat).
    destruct (reshape (ZodArray element) c) as [y|] eqn:Hy; [|done].
    exists y, σ. split; [done|]. split; [apply frame_refl|].
    left. split; [done|]. by eapply reshape_plain.
  - rewrite rewriteConfiguration_object. cbn [reshape].
    cbn in Hok, Hflat. apply andb_true_iff in Hok as [Hd Hok].
    assert (Hsubs : Forall (λ kv, refines kv.2) shape).
    { rewrite Forall_forall in IH. apply Forall_forall. intros kv Hin.
      rewrite forallb_forall in Hok, Hflat.
      apply IH; [done|apply Hok|apply Hflat]; by apply list_elem_of_In. }
    assert (Hnone : ∀ k, k ∈ List.map fst shape → k ∉ List.map fst ([] : JsObject)).
    { intros k _ Hin. by apply elem_of_nil in Hin. }
    pose proof (forEach_refines shape Hsubs Hd c l (length σ) σ [] [] Hc
                  (lookup_lt_Some _ _ _ Hσl) (le_n _) Hσl
                  (fields_represent_nil _ _) Hnone) as Hloop.
    destruct (reshape_fields reshape c shape) as [fs|]; cbn [option_map].
    + destruct Hloop as (σ' & o' & Hrun & Hfr & Hl' & Hrep).
      exists (VRef l), σ'. split; [unfold bind; by rewrite Hrun|].
      split; [done|]. right. split; [done|]. by exists o', fs.
    + unfold bind. by rewrite Hloop.
Qed.

(** The entry point on schemas without arrays of objects. *)
Lemma rewrite_reshape schema c σ :
  shapes_ok schema = true → arrays_flat schema = true → plain c = true →
  match reshape schema c with
  | None => rewrite schema c σ = None
  | Some y => ∃ x σ', rewrite schema c σ = Some (x, σ') ∧ represents (length σ) σ' x y
  end.
Proof.
  intros Hok Hflat Hc.
  pose proof (rewriteConfiguration_refines schema Hok Hflat c (length σ) (σ ++ [[]]) Hc
                (list_lookup_middle _ _ _ _ eq_refl)) as Href.
  unfold rewrite, bind. cbn [new_object].
  destruct (reshape schema c) as [y|]; [|done].
  destruct Href as (x & σ' & -> & Hfr & Hfill). exists x, σ'. split; [done|].
  destruct Hfill as [[-> Hy]|(-> & o & fs & -> & Ho & Hfs)]; [by constructor|].
  apply represents_ref with o; [done..|].
  apply (represents_weaken (length (σ ++ [[]])) (length σ) σ'); [|done].
  rewrite length_app. lia.
Qed.

(** A successful rewriting on a schema without arrays of objects, as
    far as [rewriteConfiguration] looks into the schema: the value
    returned stands for the plain value [reshape] gives, which follows
    what is seen of the schema, and rewriting it again returns a value
    that stands for it. *)
Lemma rewrite_seen schema c σ x σ1 :
  shapes_ok schema = true → arrays_flat schema = true → plain c = true →
  rewrite schema c σ = Some (x, σ1) →
  ∃ y, reshape schema c = Some y
       ∧ represents (length σ) σ1 x y
       ∧ follows (seen schema) y
       ∧ ∃ x2 σ2, rewrite schema y σ1 = Some (x2, σ2)
                  ∧ represents (length σ1) σ2 x2 y.
Proof.
  intros Hok Hflat Hc Hrun.
  pose proof (rewrite_reshape schema c σ Hok Hflat Hc) as H1.
  destruct (reshape schema c) as [y|] eqn:Hy; [|congruence].
  destruct H1 as (x' & σ' & Hrun' & Hrep). rewrite Hrun in Hrun'.
  injection Hrun' as <- <-. exists y. split; [done|]. split; [done|].
  split; [by eapply reshape_follows_seen|].
  pose proof (rewrite_reshape schema y σ1 Hok Hflat (reshape_plain schema c y Hc Hy)) as H2.
  rewrite (reshape_idempotent schema Hok c y Hy) in H2. done.
Qed.

(** What holds of the code where the array branch is not in play, for
    shapes whose property names are field names: a successful rewriting
    returns a value that stands for a plain value [y]; [y] follows the
    schema's field order and holds no empty object or array, as far as
    [rewriteConfiguration] looks into the schema, and all through if no
    object or array lies under a refinement; and rewriting [y] again
    returns a value that stands for [y]. *)
Theorem rewrite_without_arrays_of_objects schema c σ x σ1 :
  shapes_ok schema = true → field_names schema = true →
  arrays_flat schema = true → plain c = true →
  rewrite schema c σ = Some (x, σ1) →
  ∃ y, represents (length σ) σ1 x y
       ∧ follows (seen schema) y
       ∧ (effects_on_leaves schema = true → follows schema y)
       ∧ ∃ x2 σ2, rewrite schema y σ1 = Some (x2, σ2)
                  ∧ represents (length σ1) σ2 x2 y.
Proof.
  intros Hok _ Hflat Hc Hrun.
  destruct (rewrite_seen schema c σ x σ1 Hok Hflat Hc Hrun) as (y & _ & Hrep & Hf & Hi).
  exists y. split; [done|]. split; [done|]. split; [|done].
  intros He. by apply seen_effects_on_leaves.
Qed.

(** On [AppSchema] the output is an object, and its [webhooks] is the
    one of the configuration, as it is, unless that is an empty object
    or array. *)
Lemma reshape_AppSchema_webhooks c y :
  reshape AppSchema c = Some y →
  ∃ fs, y = VObject fs
        ∧ ∀ w, field_of c "webhooks" = Some w →
               get "webhooks" fs = if is_empty_value w then VUndefined else w.
Proof.
  intros Hy. cbn [AppSchema reshape] in Hy.
  destruct (reshape_fields reshape c _) as [fs|] eqn:Hfs; [|done].
  injection Hy as <-. exists fs. split; [done|]. intros w Hw.
  match type of Hfs with
  | reshape_fields _ _ ?shape = _ =>
      destruct (reshape_fields_get shape eq_refl c fs Hfs "webhooks" WebhooksSchema)
        as (ck & Hck & Hget)
  end.
  { repeat (apply elem_of_cons; first [by left|right]). }
  rewrite Hw in Hck. injection Hck as <-.
  destruct (is_undefined w) eqn:Hu; [by destruct w|].
  destruct Hget as (v & [= <-] & Hget). done.
Qed.

(** X23. On [AppSchema], the schema that the repository passes, the
    array branch is not in play, but [webhooks] is under a refinement:
    the rewriting of a plain configuration returns a value that stands
    for an object whose fields outside [webhooks] follow the schema's
    order, with no empty object or array among them; [webhooks] is
    there as it was given, in the order of the input and with what it
    holds, unless it is an empty object; and rewriting the object again
    returns a value that stands for it. *)
Corollary rewrite_AppSchema c σ x σ1 :
  plain c = true →
  rewrite AppSchema c σ = Some (x, σ1) →
  ∃ fs, represents (length σ) σ1 x (VObject fs)
        ∧ follows (seen AppSchema) (VObject fs)
        ∧ (∀ w, field_of c "webhooks" = Some w →
             get "webhooks" fs = if is_empty_value w then VUndefined else w)
        ∧ ∃ x2 σ2, rewrite AppSchema (VObject fs) σ1 = Some (x2, σ2)
                   ∧ represents (length σ1) σ2 x2 (VObject fs).
Proof.
  intros Hc Hrun.
  destruct (rewrite_seen AppSchema c σ x σ1 eq_refl eq_refl Hc Hrun)
    as (y & Hy & Hrep & Hf & Hi).
  destruct (reshape_AppSchema_webhooks c y Hy) as (fs & -> & Hw).
  by exists fs.
Qed.

Example rewrite_config_example :
  option_map (λ r, snapshot 8 r.2 r.1) (rewrite AppSchema config_example [])
  = Some config_example_rewritten.
Proof. vm_compute. reflexivity. Qed.

(** *** Arrays of objects *)

(** The array branch hands the one [result] object to every element:
    all elements of the output are that object, filled by the records in
    turn. *)
Lemma rewrite_array_shares_result :
  rewrite schema_ab config_b_a [] = Some (VArray [VRef 0; VRef 0], store_b_a).
Proof. vm_compute. reflexivity. Qed.

(** C6. Rewriting is not idempotent on an array of objects: the array
    [[{b: "2"}, {a: "1"}]] conforms to the schema, its rewriting lists
    b before a, and rewriting that result again lists a before b. *)
Theorem C6_rewrite_twice_differs :
  shapes_ok schema_ab = true
  ∧ arrays_flat schema_ab = false
  ∧ conforms schema_ab config_b_a = true
  ∧ rewrite_twice schema_ab config_b_a =
      Some (VArray [object_b_a; object_b_a], VArray [object_a_b; object_a_b])
  ∧ VArray [object_b_a; object_b_a] ≠ VArray [object_a_b; object_a_b].
Proof.
  do 4 (split; [vm_compute; reflexivity|]).
  unfold object_b_a, object_a_b. intros [=].
Qed.

(** C7. The output on this input does not follow the schema's field
    order, and depends on the order of the input: the schema declares a
    before b, the rewritten objects list b before a, and the same records
    given the other way round come out as a before b; the output, as a
    plain value, does not follow the schema. *)
Theorem C7_rewrite_order_follows_input :
  declared_element_keys schema_ab = ["a"; "b"]
  ∧ rewrite schema_ab config_b_a [] = Some (VArray [VRef 0; VRef 0], store_b_a)
  ∧ keys_at store_b_a 0 = ["b"; "a"]
  ∧ rewrite schema_ab config_a_b [] = Some (VArray [VRef 0; VRef 0], store_a_b)
  ∧ keys_at store_a_b 0 = ["a"; "b"]
  ∧ snapshot 8 store_b_a (VArray [VRef 0; VRef 0]) = VArray [object_b_a; object_b_a]
  ∧ ¬ follows schema_ab (VArray [object_b_a; object_b_a]).
Proof.
  do 6 (split; [vm_compute; reflexivity|]).
  intros Hf. inversion_clear Hf as [| | |? ? Hall| | | | | |].
  inversion_clear Hall as [|? ? Ho _].
  inversion_clear Ho as [| |? ? Hfields| | | | | | |].
  apply fields_follow_sublist in Hfields. cbn in Hfields.
  apply sublist_cons_r in Hfields as [Hs|(l' & Heq & _)]; [|discriminate Heq].
  apply sublist_cons_r in Hs as [Hs|(l' & Heq & Hs)].
  - by apply sublist_nil_r in Hs.
  - injection Heq as <-. by apply sublist_nil_r in Hs.
Qed.

End RewriteFacts.

(** * Properties of the app model *)

Module AppFacts.

Import AppModel.

(** C8. [extensionsForType] returns exactly the extension instances of
    the app whose type is the specification's identifier or its
    external identifier, in the order of [allExtensions]. *)
Theorem C8_extensionsForType_exact (app : App) (specification : SpecificationNames) :
  (∀ e, e ∈ extensionsForType app specification ↔
        e ∈ allExtensions app
        ∧ (type e = identifier specification ∨ type e = externalIdentifier specification))
  ∧ sublist (extensionsForType app specification) (allExtensions app).
Proof.
  unfold extensionsForType. split.
  - intros e. rewrite !list_elem_of_In, filter_In, orb_true_iff, !String.eqb_eq. done.
  - induction (allExtensions app) as [|x r IH]; cbn; [constructor|].
    destruct (_ || _); by constructor.
Qed.

Lemma updateExtensionUUIDS_lookup app uuids i :
  allExtensions (updateExtensionUUIDS app uuids) !! i =
    (λ e, set_devUUID (nullish_or (property uuids (localIdentifier e)) (devUUID e)) e)
      <$> allExtensions app !! i.
Proof. cbn. by rewrite <- list_lookup_fmap. Qed.

(** C9. [updateExtensionUUIDS] changes nothing but [devUUID], and an
    extension whose localIdentifier is a key of the map gets the map's
    entry; but an extension whose localIdentifier is absent from the
    map does not always keep its devUUID: [uuids[localIdentifier]] also
    finds the members that the map inherits.  With the empty map, the
    extension named constructor has its devUUID replaced by the
    inherited member.  An absent identifier that is no such name keeps
    its devUUID. *)
Theorem C9_updateExtensionUUIDS_inherited_member :
  (∅ : gmap string string) !! localIdentifier extension_constructor = None
  ∧ allExtensions (updateExtensionUUIDS app_constructor ∅)
    = [set_devUUID (Inherited "constructor") extension_constructor]
  ∧ devUUID extension_constructor = UUID "dev-1"
  ∧ Inherited "constructor" ≠ UUID "dev-1"
  ∧ ∀ (app : App) (uuids : gmap string string),
      let app' := updateExtensionUUIDS app uuids in
      length (allExtensions app') = length (allExtensions app)
      ∧ (∀ i e, allExtensions app !! i = Some e →
           ∃ e', allExtensions app' !! i = Some e'
                 ∧ (∀ u, uuids !! localIdentifier e = Some u → devUUID e' = UUID u)
                 ∧ (uuids !! localIdentifier e = None →
                    localIdentifier e ∉ Js.Object_prototype → e' = e)
                 ∧ (uuids !! localIdentifier e = None →
                    localIdentifier e ∈ Js.Object_prototype →
                    devUUID e' = Inherited (localIdentifier e))
                 ∧ type e' = type e
                 ∧ localIdentifier e' = localIdentifier e
                 ∧ handle e' = handle e
                 ∧ name e' = name e
                 ∧ directory e' = directory e
                 ∧ configurationPath e' = configurationPath e
                 ∧ entrySourceFilePath e' = entrySourceFilePath e
                 ∧ outputPath e' = outputPath e)
      ∧ app_name app' = app_name app
      ∧ idEnvironmentVariableName app' = idEnvironmentVariableName app
      ∧ app_directory app' = app_directory app
      ∧ packageManager app' = packageManager app
      ∧ nodeDependencies app' = nodeDependencies app
      ∧ usesWorkspaces app' = usesWorkspaces app.
Proof.
  split; [reflexivity|]. split; [vm_compute; reflexivity|].
  split; [reflexivity|]. split; [discriminate|].
  intros app uuids. cbn zeta. split; [cbn; apply length_map|]. split; [|done].
  intros i e Hi. eexists. split.
  - rewrite updateExtensionUUIDS_lookup, Hi. reflexivity.
  - unfold property. split; [intros u ->; reflexivity|].
    split; [|split; [|done]].
    + intros -> Hno. rewrite bool_decide_false by done. by destruct e.
    + intros -> Hin. by rewrite bool_decide_true by done.
Qed.

End AppFacts.

(** * Properties of the ui_extension specification *)

Module UIExtensionFacts.

Import UIExtension.

Section Specification.

Variable getExtensionPointTargetSurface : string → string.

Local Abbreviation features := (appModuleFeatures getExtensionPointTargetSurface).
Local Abbreviation fetches := (shouldFetchCartUrl getExtensionPointTargetSurface).
Local Abbreviation checkout := (targets_checkout getExtensionPointTargetSurface).

Lemma found_exists {A} (p : A → bool) (xs : list A) :
  found p xs = true ↔ ∃ x, x ∈ xs ∧ p x = true.
Proof.
  unfold found. destruct (List.find p xs) as [x|] eqn:Hf.
  - apply find_some in Hf as [Hin Hp]. split; [|done].
    intros _. exists x. by rewrite list_elem_of_In.
  - split; [done|]. intros (x & Hin & Hp).
    rewrite list_elem_of_In in Hin.
    by rewrite (find_none _ _ Hf x Hin) in Hp.
Qed.

(** C10. For ui_extension, [shouldFetchCartUrl] answers true exactly
    when [appModuleFeatures] lists cart_url; both hold exactly when some
    declared extension point targets the checkout surface; and
    ui_preview, bundling and esbuild are always listed. *)
Theorem C10_cart_url_agreement (config : UIExtensionConfig) :
  (fetches config = Some true ↔ "cart_url" ∈ features config)
  ∧ ("cart_url" ∈ features config ↔
       ∃ points point,
         extension_points config = Some points ∧ point ∈ points
         ∧ getExtensionPointTargetSurface (target point) = "checkout")
  ∧ "ui_preview" ∈ features config
  ∧ "bundling" ∈ features config
  ∧ "esbuild" ∈ features config.
Proof.
  assert (Hbasic : ∀ f, f ∈ ["ui_preview"; "bundling"; "esbuild"] → f ∈ features config).
  { intros f Hf. unfold appModuleFeatures. destruct (match extension_points config with
      | Some points => found checkout points | None => false end).
    - apply elem_of_app. by left.
    - done. }
  assert (Hcart : "cart_url" ∈ features config ↔
                  ∃ points, extension_points config = Some points
                            ∧ found checkout points = true).
  { unfold appModuleFeatures. destruct (extension_points config) as [points|].
    - destruct (found checkout points) eqn:Hf.
      + split; [eauto|]. intros _. apply elem_of_app. right. apply list_elem_of_singleton. done.
      + split.
        * intros Hin. repeat (apply elem_of_cons in Hin as [Hin|Hin]; [done|]).
          by apply elem_of_nil in Hin.
        * intros (points' & [= <-] & Ht). congruence.
    - split.
      + intros Hin. repeat (apply elem_of_cons in Hin as [Hin|Hin]; [done|]).
        by apply elem_of_nil in Hin.
      + by intros (points & [=] & _). }
  split; [|split; [|repeat split]].
  - rewrite Hcart. unfold shouldFetchCartUrl.
    destruct (extension_points config) as [points|].
    + split.
      * intros [= Ht]. eauto.
      * intros (points' & [= <-] & Ht). by rewrite Ht.
    + split; [done|]. by intros (points & [=] & _).
  - rewrite Hcart. split.
    + intros (points & Hp & Hf). apply found_exists in Hf as (point & Hin & Hc).
      exists points, point. repeat split; [done..|]. by apply String.eqb_eq in Hc.
    + intros (points & point & Hp & Hin & Hc). exists points. split; [done|].
      apply found_exists. exists point. split; [done|]. by apply String.eqb_eq.
  - apply Hbasic. apply elem_of_cons. by left.
  - apply Hbasic. apply elem_of_cons. right. apply elem_of_cons. by left.
  - apply Hbasic. do 2 (apply elem_of_cons; right). apply elem_of_cons. by left.
Qed.

End Specification.

End UIExtensionFacts.

(** * Properties of the keys and fields of the webhooks validator *)

Module WebhooksKeysFacts.

Import Js Webhooks WebhooksFacts WebhooksKeys.





Lemma top_level_violation_path d e :
  top_level_violation d = Some e → path e = [] ∨ path e = [PKey "topics"].
Proof.
  unfold top_level_violation. cbn [first_some]. unfold check.
  repeat match goal with
         | |- context [if ?c then _ else _] => destruct c
         end; intros [= <-]; auto.
Qed.

Lemma topics_scan_path tld ts : ∀ seen e,
  topics_scan tld seen ts = inl e → ∃ t, t ∈ ts ∧ path e = [PKey "topics"; PKey t].
Proof.
  induction ts as [|t r IH]; intros seen e H; cbn [topics_scan] in H; [done|].
  case_bool_decide.
  - injection H as <-. exists t. split; [by left|done].
  - destruct (IH _ _ H) as (t' & Hin & Hp). exists t'. split; [by right|done].
Qed.

Lemma record_violation_path d i s e :
  record_violation d i s = Some e → path e = [PKey "subscriptions"; PIndex i].
Proof.
  unfold record_violation. cbn [first_some]. unfold check.
  repeat match goal with
         | |- context [if ?c then _ else _] => destruct c
         end; intros [= <-]; auto.
Qed.

Lemma records_scan_path d subs : ∀ seen i e,
  records_scan d seen i subs = inl e →
  ∃ j s, subs !! j = Some s
         ∧ (path e = [PKey "subscriptions"; PIndex (i + j)]
            ∨ path e = [PKey "subscriptions"; PIndex (i + j);
                        PKey (subscription_topic s)]).
Proof.
  induction subs as [|s r IH]; intros seen i e H; cbn [records_scan] in H; [done|].
  destruct (record_violation d i s) as [e'|] eqn:Hv.
  { injection H as <-. exists 0, s. rewrite Nat.add_0_r. split; [done|].
    left. by eapply record_violation_path. }
  case_bool_decide.
  - injection H as <-. exists 0, s. rewrite Nat.add_0_r. split; [done|]. by right.
  - destruct (IH _ _ _ H) as (j & s' & Hj & Hp). exists (S j), s'.
    split; [done|]. by replace (i + S j) with (S i + j) by lia.
Qed.

(** X2. Every issue points into the document: its path is empty, or
    names the topics list, or a listed topic, or the index of an
    existing record (with that record's topic for a duplicate). *)
Theorem issue_points_into_document (d : WebhooksConfig) (e : ZodIssue) :
  e ∈ issues d → points_into d (path e).
Proof.
  rewrite issues_first_violation. unfold first_violation, violation_upto, points_into.
  destruct (top_level_violation d) as [e0|] eqn:Htop.
  { intros Hin%list_elem_of_singleton. subst e0.
    destruct (top_level_violation_path d e Htop); auto. }
  destruct (topics_scan _ _ _) as [e0|seen] eqn:Hts.
  { intros Hin%list_elem_of_singleton. subst e0.
    destruct (topics_scan_path _ _ _ _ Hts) as (t & Hin & Hp). eauto 10. }
  destruct (records_scan _ _ _ _) as [e0|seen'] eqn:Hrs.
  - intros Hin%list_elem_of_singleton. subst e0.
    destruct (records_scan_path _ _ _ _ _ Hrs) as (j & s & Hj & Hp). eauto 10.
  - intros Hin. by apply elem_of_nil in Hin.
Qed.

Lemma issue_points_into_document_witness :
  points_into doc_record_twice
    (path (custom msg_duplicate_subscription
             [PKey "subscriptions"; PIndex 1; PKey "orders/create"])).
Proof.
  apply (issue_points_into_document doc_record_twice).
  vm_compute. apply list_elem_of_here.
Defined.

Lemma refined_fields_record d i s :
  record_violation (refined_fields d) i (destination_fields s) = record_violation d i s.
Proof. reflexivity. Qed.

Lemma refined_fields_key d s :
  subscriptionKey (refined_fields d) (destination_fields s) = subscriptionKey d s.
Proof. reflexivity. Qed.

Lemma refined_fields_scan d subs : ∀ seen i,
  records_scan (refined_fields d) seen i (List.map destination_fields subs)
  = records_scan d seen i subs.
Proof.
  induction subs as [|s r IH]; intros seen i; [done|].
  cbn [records_scan List.map]. rewrite refined_fields_record, refined_fields_key.
  destruct (record_violation d i s); [done|]. case_bool_decide; [done|]. apply IH.
Qed.

Lemma issues_refined_fields d : issues (refined_fields d) = issues d.
Proof.
  rewrite !issues_first_violation. unfold first_violation, violation_upto.
  assert (Hsubs : subscriptions_of (refined_fields d)
                  = List.map destination_fields (subscriptions_of d)).
  { unfold subscriptions_of, refined_fields. cbn. by destruct (subscriptions d). }
  assert (Htop : top_level_violation (refined_fields d) = top_level_violation d).
  { unfold top_level_violation. rewrite Hsubs, length_map. reflexivity. }
  rewrite Htop, Hsubs. destruct (top_level_violation d); [done|].
  change (topics_of (refined_fields d)) with (topics_of d).
  change (topLevelDestination (refined_fields d)) with (topLevelDestination d).
  destruct (topics_scan _ _ _); [done|]. by rewrite refined_fields_scan.
Qed.

(** X3. The refinement reads the destination fields, the paths, the
    topics and nothing else: two documents that agree on those get the
    same issues, whatever their api_version and their records'
    sub_topic, format, include_fields and metafield_namespaces. *)
Theorem issues_only_depend_on_destinations (d d' : WebhooksConfig) :
  refined_fields d = refined_fields d' → issues d = issues d'.
Proof.
  intros H. by rewrite <- (issues_refined_fields d), H, issues_refined_fields.
Qed.

Lemma issues_only_depend_on_destinations_witness :
  issues doc_record_twice = issues doc_record_twice_xml.
Proof.
  apply (issues_only_depend_on_destinations doc_record_twice doc_record_twice_xml).
  reflexivity.
Defined.

End WebhooksKeysFacts.

(** * Properties of the paths of the web configuration *)

Module PathsFacts.

Import Rewrite Paths.

(** X4. [ensurePathStartsWithSlash] is idempotent; a string comes out
    with a leading slash, unchanged if it had one and with one put in
    front otherwise; any other value comes out as it went in. *)
Theorem ensurePathStartsWithSlash_normalises (arg : Value) :
  ensurePathStartsWithSlash (ensurePathStartsWithSlash arg) = ensurePathStartsWithSlash arg
  ∧ match arg with
    | VString s =>
        ∃ s', ensurePathStartsWithSlash arg = VString s'
              ∧ startsWith_slash s' = true
              ∧ (if startsWith_slash s then s' = s else s' = "/" +:+ s)
    | _ => ensurePathStartsWithSlash arg = arg
    end.
Proof.
  destruct arg as [| | | |s| | |]; try (split; reflexivity).
  cbn [ensurePathStartsWithSlash].
  destruct (startsWith_slash s) eqn:Hs; cbn [negb].
  - split; [cbn [ensurePathStartsWithSlash]; by rewrite Hs|].
    exists s. by rewrite Hs.
  - split; [reflexivity|]. by exists ("/" +:+ s).
Qed.

End PathsFacts.

(** * Properties of the validation before a deploy *)

Module DeployFacts.

Import Js AppModel Deploy.

Lemma forEach_errors_app {A} (f : list string → A → option (list string)) xs ys errors :
  forEach_errors f errors (xs ++ ys)
  = match forEach_errors f errors xs with
    | Some errors' => forEach_errors f errors' ys
    | None => None
    end.
Proof.
  revert errors. induction xs as [|x r IH]; intros errors; cbn [forEach_errors app]; [done|].
  destruct (f errors x); [apply IH|done].
Qed.

Lemma error_of_None allExtensions extension :
  error_of allExtensions extension = None ↔ resolves allExtensions extension.
Proof.
  unfold error_of, resolves.
  destruct (findExtensionByHandle _ _) as [m|]; [|split; [done|by intros (? & ? & ?)]].
  destruct (String.eqb_spec (configuration_type m) "ui_extension").
  - split; [by exists m|done].
  - split; [done|]. by intros (? & [= <-] & ?).
Qed.

Lemma validate_extension_with_ui allExtensions errors ext :
  is_Some (configuration_ui ext) →
  validate_extension allExtensions errors ext
  = Some (errors ++ option_list (error_of allExtensions ext)).
Proof.
  intros [ui Hext]. unfold validate_extension, error_of, ui_handle_of. rewrite Hext.
  destruct (findExtensionByHandle _ _) as [m|]; [|done].
  destruct (String.eqb _ _); cbn [negb option_list]; [by rewrite app_nil_r|done].
Qed.

Lemma forEach_errors_with_ui allExtensions fs : ∀ errors,
  Forall (λ ext, is_Some (configuration_ui ext)) fs →
  forEach_errors (validate_extension allExtensions) errors fs
  = Some (errors ++ omap (error_of allExtensions) fs).
Proof.
  induction fs as [|ext r IH]; intros errors Hui; cbn [forEach_errors omap].
  { by rewrite app_nil_r. }
  apply Forall_cons in Hui as [Hext Hr].
  rewrite validate_extension_with_ui, IH by done. rewrite <- app_assoc.
  cbn [omap list_omap]. by destruct (error_of allExtensions ext).
Qed.

Lemma has_ui_handle_ui ext : has_ui_handle ext = true → is_Some (configuration_ui ext).
Proof.
  unfold has_ui_handle, ui_handle_of. intros [_ H]%andb_true_iff.
  destruct (configuration_ui ext); [by eexists|done].
Qed.

Lemma omap_nil_iff {A B} (f : A → option B) xs :
  omap f xs = [] ↔ Forall (λ x, f x = None) xs.
Proof.
  induction xs as [|x r IH].
  { split; [constructor|reflexivity]. }
  cbn [omap list_omap]. destruct (f x) eqn:Hx.
  - split; [done|]. intros [H _]%Forall_cons. congruence.
  - rewrite IH. split; [by constructor|by intros [_ ?]%Forall_cons].
Qed.

(** X5. On extensions that all have a [ui] object,
    [validateFunctionExtensionsWithUiHandle] does not throw; it returns
    [undefined] exactly when every one of them resolves to a
    ui_extension, and otherwise at least one and at most one message
    per extension. *)
Theorem validateFunctionExtensionsWithUiHandle_result
    (fs allExtensions : list LoadedExtension) :
  Forall (λ ext, is_Some (configuration_ui ext)) fs →
  ∃ r, validateFunctionExtensionsWithUiHandle fs allExtensions = Some r
       ∧ (r = None ↔ Forall (resolves allExtensions) fs)
       ∧ ∀ errors, r = Some errors → 0 < length errors ≤ length fs.
Proof.
  intros Hui. unfold validateFunctionExtensionsWithUiHandle.
  rewrite forEach_errors_with_ui by done. cbn [app].
  eexists. split; [reflexivity|].
  destruct (omap (error_of allExtensions) fs) as [|e es] eqn:Hom.
  - split; [|done]. split; [intros _|done].
    apply omap_nil_iff in Hom. eapply Forall_impl; [exact Hom|].
    intros ext. apply error_of_None.
  - cbn [length Nat.ltb Nat.leb]. split.
    + split; [done|]. intros Hall.
      assert (omap (error_of allExtensions) fs = []) as Hnil.
      { apply omap_nil_iff. eapply Forall_impl; [exact Hall|].
        intros ext. apply error_of_None. }
      congruence.
    + intros errors [= <-]. split; [cbn; lia|].
      rewrite <- Hom. clear. induction fs as [|x r IH]; [done|].
      cbn [omap list_omap length]. fold (omap (error_of allExtensions) r).
      destruct (error_of allExtensions x); cbn [length]; lia.
Qed.

Lemma validateFunctionExtensionsWithUiHandle_result_witness :
  ∃ r, validateFunctionExtensionsWithUiHandle [discount_function]
         [discount_function; discount_ui] = Some r
       ∧ (r = None ↔ Forall (resolves [discount_function; discount_ui]) [discount_function])
       ∧ ∀ errors, r = Some errors → 0 < length errors ≤ length [discount_function].
Proof.
  apply (validateFunctionExtensionsWithUiHandle_result [discount_function]
           [discount_function; discount_ui]).
  apply Forall_cons_2; [|apply Forall_nil_2]. vm_compute. by eexists.
Defined.

(** X6. [preDeployValidation] never ends in a [TypeError], and it goes
    on to the extensions' own validations exactly when every function
    extension with a ui handle resolves to a ui_extension: the first
    extension of the app with that handle is of type ui_extension. *)
Theorem preDeployValidation_continues (allExtensions : list LoadedExtension) :
  preDeployValidation allExtensions ≠ TypeError
  ∧ (preDeployValidation allExtensions = Continues ↔
     ∀ ext, ext ∈ allExtensions → has_ui_handle ext = true → resolves allExtensions ext).
Proof.
  unfold preDeployValidation.
  set (fs := List.filter has_ui_handle allExtensions).
  assert (Hfs : ∀ ext, ext ∈ fs ↔ ext ∈ allExtensions ∧ has_ui_handle ext = true).
  { intros ext. unfold fs. rewrite !list_elem_of_In, filter_In. done. }
  assert (Hui : Forall (λ ext, is_Some (configuration_ui ext)) fs).
  { apply Forall_forall. intros ext [_ H]%Hfs. by apply has_ui_handle_ui. }
  destruct (validateFunctionExtensionsWithUiHandle_result fs allExtensions Hui)
    as (r & -> & Hr & _).
  assert (Hall : Forall (resolves allExtensions) fs ↔
                 ∀ ext, ext ∈ allExtensions → has_ui_handle ext = true →
                        resolves allExtensions ext).
  { rewrite Forall_forall. split.
    - intros H ext Hin Hh. apply H, Hfs. done.
    - intros H ext [Hin Hh]%Hfs. by apply H. }
  destruct fs as [|f0 fr] eqn:Hfs0; cbn [length Nat.ltb Nat.leb].
  { split; [done|]. split; [intros _|done]. apply Hall. constructor. }
  destruct r as [errors|].
  - split; [done|]. split; [done|]. intros H. apply Hall, Hr in H. done.
  - split; [done|]. split; [intros _|done]. apply Hall, Hr. done.
Qed.

Lemma set_devUUID_inj u v e : set_devUUID u e = set_devUUID v e → u = v.
Proof. by intros [=]. Qed.

Lemma map_ext_Forall {A B} (f g : A → B) xs :
  List.map f xs = List.map g xs ↔ Forall (λ x, f x = g x) xs.
Proof.
  induction xs as [|x r IH]; cbn; [by split; [constructor|]|].
  split.
  - intros [= Hx Hr]. constructor; [done|by apply IH].
  - intros [Hx Hr]%Forall_cons. by rewrite Hx, (proj2 IH Hr).
Qed.

(** X7. Two updates of the uuids in a row are one update with the
    second map laid over the first, except for an extension whose
    localIdentifier is the name of a member that the maps inherit, is a
    key of the first map and is none of the second: the second update
    finds the inherited member there, where the one update finds the
    entry of the first map. *)
Theorem updateExtensionUUIDS_twice (app : App) (first second : gmap string string) :
  updateExtensionUUIDS (updateExtensionUUIDS app first) second
  = updateExtensionUUIDS app (second ∪ first)
  ↔ Forall
      (λ e, localIdentifier e ∈ Object_prototype →
            is_Some (first !! localIdentifier e) →
            is_Some (second !! localIdentifier e))
      (allExtensions app).
Proof.
  assert (Hpoint : ∀ e,
    set_devUUID
      (nullish_or (property second (localIdentifier (set_devUUID
         (nullish_or (property first (localIdentifier e)) (devUUID e)) e)))
         (devUUID (set_devUUID
            (nullish_or (property first (localIdentifier e)) (devUUID e)) e)))
      (set_devUUID (nullish_or (property first (localIdentifier e)) (devUUID e)) e)
    = set_devUUID (nullish_or (property (second ∪ first) (localIdentifier e)) (devUUID e)) e
    ↔ (localIdentifier e ∈ Object_prototype →
       is_Some (first !! localIdentifier e) → is_Some (second !! localIdentifier e))).
  { intros e. cbn [set_devUUID localIdentifier devUUID]. unfold property.
    rewrite lookup_union.
    destruct (second !! localIdentifier e) as [u2|] eqn:H2,
             (first !! localIdentifier e) as [u1|] eqn:H1;
      cbn [union option_union union_with option_union_with];
      try case_bool_decide as Hin; cbn [nullish_or].
    all: split.
    all: try (intros _ _ _; by eexists).
    all: try reflexivity.
    all: try (intros Heq; by injection Heq).
    all: try (intros _ Hin'; done).
    all: try (intros _ _ Hs1; by destruct Hs1).
    all: try (intros H; by destruct (H Hin (mk_is_Some _ _ eq_refl)) as [? ?]). }
  split.
  - intros [= Heq]. rewrite List.map_map in Heq.
    apply map_ext_Forall in Heq. eapply Forall_impl; [exact Heq|].
    intros e. apply Hpoint.
  - intros Hall. unfold updateExtensionUUIDS. cbn. f_equal. rewrite List.map_map.
    apply map_ext_Forall. eapply Forall_impl; [exact Hall|]. intros e. apply Hpoint.
Qed.

(** X8. Updating the uuids does not change which extensions
    [extensionsForType] selects: the selection of the updated app is
    the updated selection, and [hasExtensions] answers as before. *)
Theorem extensionsForType_after_update (app : App) (uuids : gmap string string)
    (specification : SpecificationNames) :
  extensionsForType (updateExtensionUUIDS app uuids) specification
  = List.map
      (λ e, set_devUUID (nullish_or (property uuids (localIdentifier e)) (devUUID e)) e)
      (extensionsForType app specification)
  ∧ hasExtensions (updateExtensionUUIDS app uuids) = hasExtensions app.
Proof.
  split.
  - unfold extensionsForType. cbn.
    induction (allExtensions app) as [|e r IH]; [done|]. cbn.
    destruct (_ || _); cbn; by rewrite IH.
  - unfold hasExtensions. cbn. by rewrite length_map.
Qed.

End DeployFacts.

(** * Properties of the validation of extension points *)

Module UIExtensionValidationFacts.

Import Js UIExtension UIExtensionFacts UIExtensionValidation.

Section Validation.

Variable joinPath : string → string → string.
Variable fileExists : string → bool.
Variable path_token : string → string.
Variable extension_ui_toml : string.
Variable getExtensionPointTargetSurface : string → string.

Local Abbreviation visit := (visit joinPath fileExists path_token).
Local Abbreviation visit_all := (visit_all joinPath fileExists path_token).
Local Abbreviation not_found := (not_found joinPath path_token).
Local Abbreviation validate :=
  (validateUIExtensionPointConfig joinPath fileExists path_token extension_ui_toml).
Local Abbreviation is_missing directory :=
  (λ point : ExtensionPoint, negb (fileExists (joinPath directory (module_ point)))).

Lemma visit_step_errors directory progress p :
  errors (visit directory progress p)
  = errors progress ++ (if is_missing directory p then [not_found directory p] else []).
Proof.
  unfold UIExtensionValidation.visit.
  destruct (fileExists _); cbn [negb]; case_bool_decide; cbn [errors];
    by rewrite ?app_nil_r.
Qed.

Lemma visit_step_new directory progress p :
  target p ∉ uniqueTargets progress →
  uniqueTargets (visit directory progress p) = uniqueTargets progress ++ [target p]
  ∧ duplicateTargets (visit directory progress p) = duplicateTargets progress.
Proof. intros H. unfold UIExtensionValidation.visit. by rewrite bool_decide_true. Qed.

Lemma visit_step_old directory progress p :
  target p ∈ uniqueTargets progress →
  uniqueTargets (visit directory progress p) = uniqueTargets progress
  ∧ duplicateTargets (visit directory progress p) = duplicateTargets progress ++ [target p].
Proof.
  intros H. unfold UIExtensionValidation.visit. rewrite bool_decide_false; [done|].
  intros Hn. by apply Hn.
Qed.

Lemma visit_errors directory points : ∀ progress,
  errors (foldl (visit directory) progress points)
  = errors progress ++ List.map (not_found directory) (List.filter (is_missing directory) points).
Proof.
  induction points as [|p r IH]; intros progress; cbn [foldl List.filter List.map].
  { by rewrite app_nil_r. }
  rewrite IH, visit_step_errors.
  destruct (negb _); cbn [List.map]; by rewrite <- ?app_assoc, ?app_nil_r.
Qed.

Lemma visit_targets directory points : ∀ progress,
  NoDup (uniqueTargets progress) →
  let progress' := foldl (visit directory) progress points in
  NoDup (uniqueTargets progress')
  ∧ uniqueTargets progress' ++ duplicateTargets progress'
    ≡ₚ (uniqueTargets progress ++ duplicateTargets progress) ++ List.map target points
  ∧ (∀ t, t ∈ uniqueTargets progress' ↔
          t ∈ uniqueTargets progress ∨ t ∈ List.map target points)
  ∧ (duplicateTargets progress' = [] ↔
     duplicateTargets progress = []
     ∧ NoDup (uniqueTargets progress ++ List.map target points)).
Proof.
  induction points as [|p r IH]; intros progress Hnd; cbn zeta; cbn [foldl List.map].
  { rewrite !app_nil_r. split; [done|]. split; [done|]. split.
    - intros t. rewrite elem_of_nil. tauto.
    - tauto. }
  specialize (IH (visit directory progress p)).
  destruct (decide (target p ∈ uniqueTargets progress)) as [Hin|Hin].
  - destruct (visit_step_old directory progress p Hin) as [Hu Hd].
    rewrite Hu, Hd in IH. destruct (IH Hnd) as (H1 & H2 & H3 & H4).
    split; [done|]. split.
    { rewrite H2. rewrite <- !app_assoc. do 2 apply Permutation_app_head. done. }
    split.
    { intros t. rewrite H3, elem_of_cons. split; [tauto|].
      intros [?|[->|?]]; auto. }
    split.
    + intros [Hd' _]%H4. by destruct (duplicateTargets progress).
    + intros [_ Hnd']. exfalso. apply NoDup_app in Hnd' as (_ & Hdis & _).
      apply (Hdis _ Hin). by left.
  - destruct (visit_step_new directory progress p Hin) as [Hu Hd].
    rewrite Hu, Hd in IH. destruct IH as (H1 & H2 & H3 & H4).
    { apply NoDup_app. split; [done|]. split; [|apply NoDup_singleton].
      intros t Ht ->%list_elem_of_singleton. done. }
    split; [done|]. split.
    { rewrite H2. rewrite <- !app_assoc. apply Permutation_app_head.
      cbn [app]. by rewrite Permutation_middle. }
    split.
    { intros t. rewrite H3, elem_of_app, list_elem_of_singleton, elem_of_cons. tauto. }
    rewrite H4. by rewrite <- app_assoc.
Qed.

(** X9. The bookkeeping of [validateUIExtensionPointConfig]: the unique
    targets are the targets without repetition, every occurrence of a
    target is counted once, as unique or as duplicate, and there is one
    message per module file that is missing, in the order of the
    extension points. *)
Theorem visit_all_bookkeeping (directory : string) (extensionPoints : list ExtensionPoint) :
  let progress := visit_all directory extensionPoints in
  NoDup (uniqueTargets progress)
  ∧ (∀ t, t ∈ uniqueTargets progress ↔ t ∈ List.map target extensionPoints)
  ∧ uniqueTargets progress ++ duplicateTargets progress ≡ₚ List.map target extensionPoints
  ∧ errors progress
    = List.map (not_found directory) (List.filter (is_missing directory) extensionPoints).
Proof.
  cbn zeta. unfold UIExtensionValidation.visit_all.
  destruct (visit_targets directory extensionPoints
              {| errors := []; uniqueTargets := []; duplicateTargets := [] |})
    as (H1 & H2 & H3 & _); [constructor|].
  split; [done|]. split.
  { intros t. rewrite H3. cbn. rewrite elem_of_nil. tauto. }
  split; [done|]. by rewrite visit_errors.
Qed.

(** X10. [validateUIExtensionPointConfig] answers [ok] exactly when the
    module file of every extension point exists and no target is
    declared twice. *)
Theorem validateUIExtensionPointConfig_ok (directory : string)
    (extensionPoints : list ExtensionPoint) :
  validate directory extensionPoints = ok ↔
  Forall (λ point, fileExists (joinPath directory (module_ point)) = true) extensionPoints
  ∧ NoDup (List.map target extensionPoints).
Proof.
  unfold UIExtensionValidation.validateUIExtensionPointConfig.
  fold (visit_all directory extensionPoints).
  destruct (visit_targets directory extensionPoints
              {| errors := []; uniqueTargets := []; duplicateTargets := [] |})
    as (_ & _ & _ & Hd); [constructor|].
  fold (visit_all directory extensionPoints) in Hd. cbn [uniqueTargets duplicateTargets app] in Hd.
  pose proof (visit_errors directory extensionPoints
                {| errors := []; uniqueTargets := []; duplicateTargets := [] |}) as He.
  fold (visit_all directory extensionPoints) in He. cbn [errors app] in He.
  assert (Hmiss : List.filter (is_missing directory) extensionPoints = [] ↔
                  Forall (λ point, fileExists (joinPath directory (module_ point)) = true)
                    extensionPoints).
  { clear. induction extensionPoints as [|p r IH]; cbn [List.filter].
    - split; [constructor|done].
    - destruct (fileExists _) eqn:Hp; cbn [negb].
      + rewrite IH. split; [by constructor|by intros [_ ?]%Forall_cons].
      + split; [done|]. intros [H _]%Forall_cons. congruence. }
  destruct (duplicateTargets (visit_all directory extensionPoints)) as [|t ts] eqn:Hdup.
  - cbn [length Nat.ltb Nat.leb]. rewrite He.
    destruct (List.filter _ _) as [|m ms] eqn:Hf; cbn [List.map length Nat.ltb Nat.leb].
    + split; [intros _|done]. split; [by apply Hmiss|]. by apply Hd.
    + split; [done|]. intros [H%Hmiss _]. done.
  - cbn [length Nat.ltb Nat.leb]. rewrite length_app, Nat.add_comm. cbn.
    split; [done|]. intros [_ H]. assert (t :: ts = []) by (apply Hd; by split). done.
Qed.

(** X11. [shouldFetchCartUrl] answers true exactly when some target of
    the checkout surface is one that [hasExtensionPointTarget]
    confirms. *)
Theorem shouldFetchCartUrl_hasExtensionPointTarget (config : UIExtensionConfig) :
  shouldFetchCartUrl getExtensionPointTargetSurface config = Some true ↔
  ∃ t, getExtensionPointTargetSurface t = "checkout"
       ∧ hasExtensionPointTarget config t = Some true.
Proof.
  unfold shouldFetchCartUrl, hasExtensionPointTarget.
  destruct (extension_points config) as [points|]; [|split; [done|by intros (? & ? & ?)]].
  split.
  - intros [= H]. apply found_exists in H as (p & Hin & Hp).
    exists (target p). split; [by apply String.eqb_eq|].
    f_equal. apply found_exists. exists p. split; [done|]. apply String.eqb_refl.
  - intros (t & Ht & [= H]). f_equal. apply found_exists in H as (p & Hin & Hp).
    apply found_exists. exists p. split; [done|].
    apply String.eqb_eq in Hp. unfold targets_checkout. rewrite Hp, Ht. done.
Qed.

End Validation.

End UIExtensionValidationFacts.

(** * Properties of the configuration file *)

Module ConfigurationFileFacts.

Import Stdlib.Strings.Ascii Js Text Rewrite ConfigurationFile.

Lemma append_nil_r (x : string) : x +:+ "" = x.
Proof. induction x as [|c x IH]; [done|]. cbv [String.append]. fold String.append. by rewrite IH. Qed.

Lemma append_assoc (x y z : string) : (x +:+ y) +:+ z = x +:+ (y +:+ z).
Proof.
  induction x as [|c x IH]; [done|].
  cbv [String.append]. fold String.append. by rewrite IH.
Qed.

Lemma append_cons c (x y : string) : String c x +:+ y = String c (x +:+ y).
Proof. reflexivity. Qed.

Lemma join_empty_cons x xs : join "" (x :: xs) = x +:+ join "" xs.
Proof. destruct xs; cbn [join]; [by rewrite append_nil_r|reflexivity]. Qed.

Lemma join_empty_app xs ys : join "" (xs ++ ys) = join "" xs +:+ join "" ys.
Proof.
  induction xs as [|x r IH]; [done|].
  rewrite <- app_comm_cons, !join_empty_cons, IH. by rewrite append_assoc.
Qed.

Lemma split_line_breaks_cons s : ∃ piece rest, split_line_breaks s = piece :: rest.
Proof.
  destruct s as [|c r]; [by eexists _, _|]. cbn [split_line_breaks].
  destruct (Ascii.eqb c "013").
  { destruct r as [|c' r']; [by eexists _, _|]. destruct (Ascii.eqb c' "010"); by eexists _, _. }
  destruct (Ascii.eqb c "010"); [by eexists _, _|].
  destruct (split_line_breaks r); by eexists _, _.
Qed.

Lemma join_split_line_breaks s : join "" (split_line_breaks s) = s.
Proof.
  assert (H : ∀ n s, String.length s ≤ n → join "" (split_line_breaks s) = s).
  { clear s. induction n as [|n IH]; intros s Hn.
    { destruct s; [done|cbn in Hn; lia]. }
    destruct s as [|c r]; [done|]. cbn [String.length] in Hn. cbn [split_line_breaks].
    destruct (Ascii.eqb_spec c "013") as [->|Hcr].
    { destruct r as [|c' r']; [reflexivity|]. cbn [String.length] in Hn.
      destruct (Ascii.eqb_spec c' "010") as [->|Hlf].
      - rewrite !join_empty_cons, IH by lia. reflexivity.
      - rewrite !join_empty_cons, IH by (cbn [String.length]; lia). reflexivity. }
    destruct (Ascii.eqb_spec c "010") as [->|Hlf].
    { rewrite !join_empty_cons, IH by lia. reflexivity. }
    destruct (split_line_breaks_cons r) as (piece & rest & Hr).
    rewrite Hr, join_empty_cons, append_cons, <- join_empty_cons, <- Hr, IH by lia.
    reflexivity. }
  by apply (H (String.length s)).
Qed.

Lemma comment_scopes_other pre line rest :
  String.eqb line access_scopes_header = false →
  comment_scopes (pre ++ line :: rest) (length pre) = pre ++ line :: rest.
Proof.
  intros H. unfold comment_scopes. by rewrite list_lookup_middle, H.
Qed.

Lemma comment_scopes_header pre rest :
  comment_scopes (pre ++ access_scopes_header :: rest) (length pre)
  = pre ++ access_scopes_header :: scopesComment :: rest.
Proof.
  unfold comment_scopes. rewrite list_lookup_middle by done.
  rewrite String.eqb_refl. unfold splice_in.
  rewrite (cons_middle _ pre rest), app_assoc.
  rewrite take_app_length', drop_app_length' by (rewrite length_app; cbn; lia).
  by rewrite <- app_assoc.
Qed.

Lemma forEach_index_past remaining : ∀ index lines,
  length lines ≤ index → forEach_index remaining index lines = lines.
Proof.
  induction remaining as [|n IH]; intros index lines Hlen; [done|].
  cbn [forEach_index]. unfold comment_scopes. rewrite lookup_ge_None_2 by done.
  apply IH. lia.
Qed.

Lemma forEach_index_pass remaining : ∀ pre lines,
  forEach_index remaining (length pre) (pre ++ lines) = pre ++ pass remaining lines.
Proof.
  induction remaining as [remaining IH] using lt_wf_ind. intros pre lines.
  destruct remaining as [|n]; [by destruct lines|].
  destruct lines as [|line rest].
  { rewrite forEach_index_past; [done|]. rewrite app_nil_r. done. }
  cbn [forEach_index pass]. destruct (String.eqb line access_scopes_header) eqn:Hline.
  - apply String.eqb_eq in Hline as ->. rewrite comment_scopes_header.
    destruct n as [|n'].
    + cbn [forEach_index pass]. by destruct rest.
    + cbn [forEach_index].
      replace (pre ++ access_scopes_header :: scopesComment :: rest)
        with ((pre ++ [access_scopes_header]) ++ scopesComment :: rest)
        by (by rewrite <- app_assoc).
      replace (S (length pre)) with (length (pre ++ [access_scopes_header]))
        by (rewrite length_app; cbn; lia).
      rewrite comment_scopes_other by reflexivity.
      replace ((pre ++ [access_scopes_header]) ++ scopesComment :: rest)
        with ((pre ++ [access_scopes_header; scopesComment]) ++ rest)
        by (by rewrite <- !app_assoc).
      replace (S (length (pre ++ [access_scopes_header])))
        with (length (pre ++ [access_scopes_header; scopesComment]))
        by (rewrite !length_app; cbn; lia).
      rewrite IH by lia. rewrite <- app_assoc. cbn [app].
      by replace (S n' - 1) with n' by lia.
  - rewrite comment_scopes_other by done.
    replace (pre ++ line :: rest) with ((pre ++ [line]) ++ rest) by (by rewrite <- app_assoc).
    replace (S (length pre)) with (length (pre ++ [line])) by (rewrite length_app; cbn; lia).
    rewrite IH by lia. by rewrite <- app_assoc.
Qed.

Lemma pass_commented remaining : ∀ lines, commented lines (pass remaining lines).
Proof.
  induction remaining as [remaining IH] using lt_wf_ind. intros lines.
  revert remaining IH. induction lines as [|line rest IHl]; intros remaining IH.
  { destruct remaining; constructor. }
  destruct remaining as [|n].
  { cbn [pass]. clear. induction (line :: rest); by constructor. }
  cbn [pass]. destruct (String.eqb line access_scopes_header) eqn:Hline.
  - apply String.eqb_eq in Hline as ->. apply commented_header. apply IH. lia.
  - apply commented_keep. apply IH. lia.
Qed.

Lemma commented_lines_pass toml :
  commented_lines toml
  = initialComment :: newline
      :: pass (length (split_line_breaks toml)) (split_line_breaks toml).
Proof.
  unfold commented_lines.
  pose proof (forEach_index_pass (S (S (length (split_line_breaks toml)))) []
                (initialComment :: newline :: split_line_breaks toml)) as H.
  cbn [app length] in H. cbn [length]. rewrite H. cbn [pass].
  assert (String.eqb initialComment access_scopes_header = false) as -> by reflexivity.
  assert (String.eqb newline access_scopes_header = false) as -> by reflexivity.
  reflexivity.
Qed.

Lemma pass_no_header remaining : ∀ lines,
  access_scopes_header ∉ lines → pass remaining lines = lines.
Proof.
  intros lines. revert remaining. induction lines as [|line rest IH]; intros remaining Hno.
  { by destruct remaining. }
  destruct remaining as [|n]; [done|]. cbn [pass].
  destruct (String.eqb_spec line access_scopes_header) as [->|Hne].
  - exfalso. apply Hno. by left.
  - f_equal. apply IH. intros Hin. apply Hno. by right.
Qed.

Lemma pass_app remaining : ∀ pre lines,
  access_scopes_header ∉ pre →
  pass remaining (pre ++ lines) = pre ++ pass (remaining - length pre) lines.
Proof.
  intros pre. revert remaining. induction pre as [|line rest IH]; intros remaining lines Hno.
  { cbn [app length]. by rewrite Nat.sub_0_r. }
  destruct remaining as [|n].
  { cbn [pass Nat.sub app]. by destruct lines. }
  cbn [pass app length Nat.sub].
  destruct (String.eqb_spec line access_scopes_header) as [->|Hne].
  - exfalso. apply Hno. by left.
  - f_equal. apply IH. intros Hin. apply Hno. by right.
Qed.

Lemma commented_no_header lines out :
  commented lines out → access_scopes_header ∉ lines → out = lines.
Proof.
  induction 1 as [|line lines out _ IH|lines out _ IH]; intros Hno; [done| |].
  - f_equal. apply IH. intros Hin. apply Hno. by right.
  - exfalso. apply Hno. by left.
Qed.

(** X12. Splitting at the line breaks loses nothing: the pieces and the
    line breaks, joined, are the text. *)
Theorem split_line_breaks_join (s : string) : join "" (split_line_breaks s) = s.
Proof. apply join_split_line_breaks. Qed.

(** X13. The text written is the initial comment, an empty line, and
    the TOML text in which the scopes comment has been put behind some
    of the lines that read [access_scopes_header]; nothing else of the
    TOML text is changed. *)
Theorem file_text_commented (toml : string) :
  ∃ out, commented (split_line_breaks toml) out
         ∧ file_text toml = initialComment +:+ newline +:+ join "" out.
Proof.
  exists (pass (length (split_line_breaks toml)) (split_line_breaks toml)).
  split; [apply pass_commented|].
  unfold file_text. by rewrite commented_lines_pass, !join_empty_cons.
Qed.

(** X14. Without a line that reads [access_scopes_header] the text
    written is the TOML text behind the initial comment and an empty
    line. *)
Theorem file_text_without_header (toml : string) :
  access_scopes_header ∉ split_line_breaks toml →
  file_text toml = initialComment +:+ newline +:+ toml.
Proof.
  intros Hno. unfold file_text.
  rewrite commented_lines_pass, pass_no_header, !join_empty_cons by done.
  by rewrite join_split_line_breaks.
Qed.

Lemma file_text_without_header_witness :
  file_text toml_without_scopes = initialComment +:+ newline +:+ toml_without_scopes.
Proof.
  apply (file_text_without_header toml_without_scopes).
  apply (bool_decide_unpack _). vm_compute. exact I.
Defined.

(** X15. The first line that reads [access_scopes_header] always gets
    the scopes comment behind it; with one such line only, the rest of
    the text is unchanged. *)
Theorem file_text_first_header (toml : string) (pre post : list string) :
  split_line_breaks toml = pre ++ access_scopes_header :: post →
  access_scopes_header ∉ pre →
  ∃ out, commented post out
         ∧ (access_scopes_header ∉ post → out = post)
         ∧ file_text toml
           = initialComment +:+ newline +:+ join "" pre
             +:+ access_scopes_header +:+ scopesComment +:+ join "" out.
Proof.
  intros Hsplit Hpre. unfold file_text. rewrite commented_lines_pass, Hsplit.
  rewrite pass_app by done. rewrite length_app. cbn [length].
  replace (length pre + S (length post) - length pre) with (S (length post)) by lia.
  cbn [pass]. rewrite String.eqb_refl.
  exists (pass (length post - 1) post). split; [apply pass_commented|].
  split; [apply commented_no_header, pass_commented|].
  rewrite !join_empty_cons, join_empty_app, !join_empty_cons.
  by rewrite ?append_assoc.
Qed.

Lemma file_text_first_header_witness :
  ∃ out, commented [newline; "use_legacy_install_flow = true"; newline; ""] out
         ∧ (access_scopes_header ∉ [newline; "use_legacy_install_flow = true"; newline; ""]
            → out = [newline; "use_legacy_install_flow = true"; newline; ""])
         ∧ file_text toml_with_scopes
           = initialComment +:+ newline +:+ join "" ["embedded = true"; newline]
             +:+ access_scopes_header +:+ scopesComment +:+ join "" out.
Proof.
  apply (file_text_first_header toml_with_scopes ["embedded = true"; newline]).
  - vm_compute. reflexivity.
  - apply (bool_decide_unpack _). vm_compute. exact I.
Defined.

Lemma commented_refl lines : commented lines lines.
Proof. induction lines; by constructor. Qed.

Lemma pass_runs_out pre : ∀ remaining rest,
  remaining ≤ length pre + headers pre →
  ∃ out, commented pre out ∧ pass remaining (pre ++ rest) = out ++ rest.
Proof.
  induction pre as [|line r IH]; intros remaining rest Hle.
  { cbn in Hle. assert (remaining = 0) as -> by lia.
    exists []. split; [constructor|]. by destruct rest. }
  destruct remaining as [|n].
  { exists (line :: r). split; [apply commented_refl|done]. }
  unfold headers in Hle. cbn [List.filter length] in Hle.
  cbn [pass app]. destruct (String.eqb line access_scopes_header) eqn:Hline.
  - apply String.eqb_eq in Hline as ->. cbn [length] in Hle.
    destruct (IH (n - 1) rest) as (out & Hout & Hpass); [unfold headers; lia|].
    exists (access_scopes_header :: scopesComment :: out).
    split; [by constructor|]. by rewrite Hpass.
  - destruct (IH n rest) as (out & Hout & Hpass); [unfold headers; lia|].
    exists (line :: out). split; [by constructor|]. by rewrite Hpass.
Qed.

(** X16. The loop stops at the length the array had at the start, so a
    header with as many headers before it as there are lines from it to
    the end is not reached: it and the lines behind it are written as
    they are. *)
Theorem file_text_header_not_reached (toml : string) (pre post : list string) :
  split_line_breaks toml = pre ++ access_scopes_header :: post →
  length post < headers pre →
  ∃ out, commented pre out
         ∧ file_text toml
           = initialComment +:+ newline +:+ join "" out
             +:+ access_scopes_header +:+ join "" post.
Proof.
  intros Hsplit Hfew. unfold file_text. rewrite commented_lines_pass, Hsplit.
  destruct (pass_runs_out pre (length (pre ++ access_scopes_header :: post))
              (access_scopes_header :: post)) as (out & Hout & ->).
  { rewrite length_app. cbn [length]. lia. }
  exists out. split; [done|].
  by rewrite !join_empty_cons, join_empty_app, !join_empty_cons.
Qed.

Lemma file_text_header_not_reached_witness :
  ∃ out, commented [access_scopes_header; newline] out
         ∧ file_text toml_header_twice
           = initialComment +:+ newline +:+ join "" out
             +:+ access_scopes_header +:+ join "" [].
Proof.
  apply (file_text_header_not_reached toml_header_twice [access_scopes_header; newline] []).
  - vm_compute. reflexivity.
  - vm_compute. lia.
Defined.

End ConfigurationFileFacts.

(** * Properties of the scopes and of the merged configuration *)

Module ConfigurationFacts.

Import Stdlib.Strings.Ascii Js Rewrite RewriteFacts Configuration.

Lemma Value_nested_ind (P : Value → Prop) :
  P VUndefined → P VNull → (∀ b, P (VBoolean b)) → (∀ n, P (VNumber n)) →
  (∀ s, P (VString s)) →
  (∀ items, Forall P items → P (VArray items)) →
  (∀ o, Forall (λ kv, P kv.2) o → P (VObject o)) →
  (∀ l, P (VRef l)) →
  ∀ v, P v.
Proof.
  intros Hu Hn Hb Hz Hs Ha Ho Hr.
  fix IH 1. intros [| |b|n|s|items|o|l].
  - exact Hu.
  - exact Hn.
  - apply Hb.
  - apply Hz.
  - apply Hs.
  - apply Ha. induction items as [|x r IHr]; constructor; [apply IH|apply IHr].
  - apply Ho. induction o as [|[k x] r IHr]; constructor; [apply IH|apply IHr].
  - apply Hr.
Qed.

Lemma present_plain v : present v = true → plain v = true.
Proof.
  induction v as [| | | | |items IH|o IH|] using Value_nested_ind; try done.
  - cbn. induction IH as [|x r Hx _ IHr]; [done|]. cbn.
    intros [Hp Hr]%andb_true_iff. apply andb_true_iff. split; [by apply Hx|by apply IHr].
  - cbn. induction IH as [|[k x] r Hx _ IHr]; [done|]. cbn.
    intros [Hp Hr]%andb_true_iff. apply andb_true_iff. split; [|by apply IHr].
    apply orb_true_iff in Hp as [Hu|Hp]; [by destruct x|by apply Hx].
Qed.

Lemma get_present (o : JsObject) k :
  forallb (λ kv, is_undefined kv.2 || present kv.2) o = true →
  is_undefined (get k o) = false → present (get k o) = true.
Proof.
  induction o as [|[k' x] r IH]; cbn; [done|].
  intros [Hx Hr]%andb_true_iff. destruct (String.eqb k k'); [|by apply IH].
  intros Hu. rewrite Hu in Hx. done.
Qed.

Lemma conforms_object shape (o : JsObject) :
  conforms (ZodObject shape) (VObject o) = true ↔
  Forall (λ kv, conforms kv.2 (get kv.1 o) = true) shape.
Proof.
  cbn. induction shape as [|[k sub] r IH]; [by split; [constructor|]|].
  rewrite andb_true_iff, IH. split.
  - intros [? ?]. by constructor.
  - by intros [? ?]%Forall_cons.
Qed.

Lemma reshape_succeeds schema :
  ∀ c, conforms schema c = true → present c = true → is_Some (reshape schema c).
Proof.
  induction schema as [| | | |values|inner|inner IH|inner IH|element IH|shape IH]
    using ZodSchema_nested_ind; intros c Hc Hp; try (by eexists).
  - apply IH; [|done]. by destruct c.
  - apply IH; [|done]. by destruct c.
  - destruct c as [| | | | |items| |]; try done. cbn in Hc, Hp |- *.
    assert (is_Some (traverse (reshape element) items)) as [ys ->]; [|by eexists].
    induction items as [|x r IHr]; [by eexists|].
    cbn in Hc, Hp. apply andb_true_iff in Hc as [Hx Hr]. apply andb_true_iff in Hp as [Px Pr].
    cbn. destruct (IH x Hx Px) as [v ->]. destruct (IHr Hr Pr) as [vs ->]. by eexists.
  - destruct c as [| | | | | |o|]; try done.
    apply conforms_object in Hc. cbn [present] in Hp. cbn [reshape].
    assert (is_Some (reshape_fields reshape (VObject o) shape)) as [fs ->]; [|by eexists].
    induction shape as [|[k sub] r IHr]; [by eexists|].
    apply Forall_cons in IH as [IHsub IHrest]. apply Forall_cons in Hc as [Hsub Hrest].
    destruct (IHr IHrest Hrest) as [fs Hfs].
    cbn [reshape_fields field_of] in Hfs |- *. cbn [fst snd] in *.
    destruct (is_undefined (get k o)) eqn:Hu; [by rewrite Hfs|].
    destruct (IHsub (get k o) Hsub (get_present o k Hp Hu)) as [v ->].
    rewrite Hfs. by eexists.
Qed.

Lemma conforms_strings element xs :
  (∀ x, conforms element (VString x) = true) →
  forallb (conforms element) (List.map VString xs) = true.
Proof. intros H. induction xs as [|x r IH]; [done|]. cbn. by rewrite H, IH. Qed.

Lemma present_strings xs : forallb present (List.map VString xs) = true.
Proof. by induction xs. Qed.

Lemma conforms_string_array element xs :
  (∀ x, conforms element (VString x) = true) →
  conforms (ZodOptional (ZodArray element)) (strings xs) = true.
Proof. intros H. cbn. by apply conforms_strings. Qed.

Lemma present_string_array xs : present (strings xs) = true.
Proof. apply present_strings. Qed.

(** The parts of the merged configuration. *)
Lemma merged_webhooks remoteApp :
  let webhooks :=
    VObject
      (("api_version",
         VString (if truthy (webhookApiVersion remoteApp)
                  then str (webhookApiVersion remoteApp) else "2023-07"))
       :: if hasAnyPrivacyWebhook remoteApp
          then [("privacy_compliance",
                  VObject
                    [("customer_data_request_url",
                       optional (gdpr remoteApp customerDataRequestUrl));
                     ("customer_deletion_url",
                       optional (gdpr remoteApp customerDeletionUrl));
                     ("shop_deletion_url",
                       optional (gdpr remoteApp shopDeletionUrl))])]
          else []) in
  conforms WebhooksSchema webhooks = true ∧ present webhooks = true.
Proof.
  cbn zeta. destruct (hasAnyPrivacyWebhook remoteApp); [|done].
  by destruct (gdpr remoteApp customerDataRequestUrl),
     (gdpr remoteApp customerDeletionUrl), (gdpr remoteApp shopDeletionUrl).
Qed.

Lemma merged_auth xs :
  let auth := VObject [("redirect_urls", strings xs)] in
  conforms (ZodOptional (ZodObject [("redirect_urls", ZodArray validateUrl)])) auth = true
  ∧ present auth = true.
Proof.
  cbn zeta. split.
  - change (forallb (conforms validateUrl) (List.map VString xs) && true = true).
    by rewrite conforms_strings.
  - change (forallb present (List.map VString xs) && true = true).
    by rewrite present_strings.
Qed.

Lemma merged_access_scopes a :
  conforms
    (ZodOptional
       (ZodObject
          [("scopes", ZodOptional ZodString);
           ("use_legacy_install_flow", ZodOptional ZodBoolean)]))
    (access_scopes_object a) = true
  ∧ present (access_scopes_object a) = true.
Proof. by destruct a as [[s|] [b|]]. Qed.

Lemma merged_app_preferences v :
  truthy v = true →
  let app_preferences := VObject [("url", optional v)] in
  conforms (ZodOptional (ZodObject [("url", validateUrl)])) app_preferences = true
  ∧ present app_preferences = true.
Proof. by destruct v. Qed.

Ltac lookup_fields :=
  repeat match goal with
         | |- context [get ?k ?o] =>
             let v := eval cbn [get app String.eqb Ascii.eqb Bool.eqb] in (get k o) in
             progress change (get k o) with v
         end.

Lemma mergeAppConfiguration_conforms localApp remoteApp :
  conforms AppSchema (mergeAppConfiguration localApp remoteApp) = true
  ∧ present (mergeAppConfiguration localApp remoteApp) = true.
Proof.
  unfold mergeAppConfiguration.
  destruct (merged_webhooks remoteApp) as [Hw Pw]. cbn zeta in Hw, Pw.
  destruct (merged_auth (redirectUrlWhitelist remoteApp)) as [Ha Pa]. cbn zeta in Ha, Pa.
  destruct (merged_access_scopes (getAccessScopes localApp remoteApp)) as [Hs Ps].
  pose proof (merged_app_preferences (preferencesUrl remoteApp)) as Hp. cbn zeta in Hp.
  pose proof (λ xs, conforms_string_array ZodString xs (λ _, eq_refl)) as Hd.
  pose proof present_string_array as Pd.
  match type of Hw with conforms _ ?w = true => set (webhooks := w) in * end.
  match type of Ha with conforms _ ?w = true => set (auth := w) in * end.
  set (scopes_ := access_scopes_object _) in *.
  clearbody webhooks auth scopes_.
  split.
  - apply conforms_object.
    destruct (appProxy remoteApp) as [proxy|]; [destruct (nonempty (proxy_url proxy))|];
      (destruct (truthy (preferencesUrl remoteApp));
       [destruct Hp as [Hp _]; [done|]|clear Hp]);
      destruct (local_extension_directories localApp) as [ed|];
      destruct (local_web_directories localApp) as [wd|];
      repeat (apply Forall_cons; split; [cbn [fst snd]; lookup_fields; try done|]);
      try apply Forall_nil_2.
  - destruct (appProxy remoteApp) as [proxy|]; [destruct (nonempty (proxy_url proxy))|];
      (destruct (truthy (preferencesUrl remoteApp));
       [destruct Hp as [_ Hp]; [done|]|clear Hp]);
      destruct (local_extension_directories localApp) as [ed|];
      destruct (local_web_directories localApp) as [wd|];
      cbn [present app forallb snd is_undefined orb andb] in *;
      rewrite ?Pw, ?Pa, ?Ps, ?Pd, ?Hp, ?orb_true_r; reflexivity.
Qed.

Lemma split_comma_cons s : ∃ piece rest, split_comma s = piece :: rest.
Proof.
  destruct s as [|c r]; [by eexists _, _|]. cbn [split_comma].
  destruct (Ascii.eqb c ","); [by eexists _, _|].
  destruct (split_comma r); by eexists _, _.
Qed.

Lemma split_comma_piece x :
  comma_free x = true → split_comma x = [x].
Proof.
  induction x as [|c r IH]; [done|]. cbn [comma_free split_comma].
  intros [Hc Hr]%andb_true_iff. apply negb_true_iff in Hc. rewrite Hc.
  by rewrite IH.
Qed.

Lemma split_comma_append x rest :
  comma_free x = true →
  split_comma (x +:+ "," +:+ rest) = x :: split_comma rest.
Proof.
  induction x as [|c r IH]; [done|]. cbn [comma_free].
  intros [Hc Hr]%andb_true_iff. apply negb_true_iff in Hc.
  change (String c r +:+ "," +:+ rest) with (String c (r +:+ "," +:+ rest)).
  cbn [split_comma]. rewrite Hc. by rewrite IH.
Qed.

Lemma split_comma_join xs :
  xs ≠ [] → Forall (λ x, comma_free x = true) xs → split_comma (join "," xs) = xs.
Proof.
  induction xs as [|x r IH]; [done|]. intros _ [Hx Hr]%Forall_cons.
  destruct r as [|y r'].
  - cbn [join]. by apply split_comma_piece.
  - change (join "," (x :: y :: r')) with (x +:+ "," +:+ join "," (y :: r')).
    rewrite split_comma_append by done. by rewrite IH.
Qed.

Lemma join_comma_empty xs : join "," xs = "" → xs = [] ∨ xs = [""].
Proof.
  destruct xs as [|x [|y r]]; [by left| |].
  - cbn [join]. intros ->. by right.
  - change (join "," (x :: y :: r)) with (x +:+ "," +:+ join "," (y :: r)).
    destruct x; discriminate.
Qed.

(** X17. Without scopes from upstream, [getAccessScopes] sets the legacy
    flag, and keeps the scopes of a local configuration that passes the
    legacy or the current schema: a current configuration with the
    access scopes it returns has the scopes of the local one.  The
    scopes of a local configuration that passes neither schema are not
    kept: there are none then. *)
Theorem getAccessScopes_keeps_local_scopes
    (localApp : AppConfiguration) (remoteApp : OrganizationApp)
    (merged : CurrentAppConfiguration) :
  requestedAccessScopes remoteApp = None →
  access_scopes merged = Some (getAccessScopes localApp remoteApp) →
  usesLegacyScopesBehavior (Current merged) = true
  ∧ getAppScopes (Current merged)
    = if isLegacyAppSchema localApp || isCurrentAppSchema localApp
      then getAppScopes localApp else "".
Proof.
  intros Hnone Hacc. unfold getAppScopes, usesLegacyScopesBehavior, access_scopes_scopes.
  rewrite Hacc. unfold getAccessScopes. rewrite Hnone.
  destruct localApp as [config|config|config]; cbn [isLegacyAppSchema isCurrentAppSchema orb].
  - unfold nonempty. destruct (String.eqb_spec (legacy_scopes config) "") as [->|Hne]; done.
  - unfold access_scopes_scopes, truthy.
    destruct (access_scopes config) as [a|]; [|done].
    destruct (scopes a) as [s|]; [|done].
    destruct (String.eqb_spec s "") as [->|Hne]; done.
  - done.
Qed.

Lemma getAccessScopes_keeps_local_scopes_witness :
  usesLegacyScopesBehavior (Current (merged_scopes local_example remote_example)) = true
  ∧ getAppScopes (Current (merged_scopes local_example remote_example))
    = if isLegacyAppSchema local_example || isCurrentAppSchema local_example
      then getAppScopes local_example else "".
Proof.
  apply (getAccessScopes_keeps_local_scopes local_example remote_example
           (merged_scopes local_example remote_example)).
  - reflexivity.
  - reflexivity.
Defined.

(** X18. With scopes from upstream, the scopes written are the upstream
    ones joined by commas, and the legacy flag is not set; read back
    with [getAppScopesArray] they are the upstream scopes again, if
    each of them is trimmed and without a comma, and they are not the
    one empty string. *)
Theorem getAccessScopes_round_trip
    (localApp : AppConfiguration) (remoteApp : OrganizationApp)
    (merged : CurrentAppConfiguration) (requested : list string) :
  requestedAccessScopes remoteApp = Some requested →
  access_scopes merged = Some (getAccessScopes localApp remoteApp) →
  Forall (λ x, comma_free x = true ∧ trim x = x) requested →
  requested ≠ [""] →
  getAppScopes (Current merged) = join "," requested
  ∧ usesLegacyScopesBehavior (Current merged) = false
  ∧ getAppScopesArray (Current merged) = requested.
Proof.
  intros Hreq Hacc Hall Hne.
  assert (Hs : getAppScopes (Current merged) = join "," requested).
  { unfold getAppScopes, access_scopes_scopes. rewrite Hacc.
    unfold getAccessScopes. by rewrite Hreq. }
  split; [done|]. split.
  { unfold usesLegacyScopesBehavior. rewrite Hacc. unfold getAccessScopes. by rewrite Hreq. }
  unfold getAppScopesArray. rewrite Hs.
  destruct (join "," requested) as [|c r] eqn:Hj.
  { cbn. by destruct (join_comma_empty _ Hj) as [->| ->]. }
  cbn [String.length Nat.ltb Nat.leb]. rewrite <- Hj.
  assert (requested ≠ []) by (intros ->; done).
  rewrite split_comma_join; [|done|].
  - clear -Hall. induction Hall as [|x r [_ Hx] _ IH]; [done|]. cbn. by rewrite Hx, IH.
  - eapply Forall_impl; [exact Hall|]. by intros x [? _].
Qed.

Lemma getAccessScopes_round_trip_witness :
  getAppScopes (Current (merged_scopes local_example remote_with_scopes))
  = join "," ["read_products"; "write_orders"]
  ∧ usesLegacyScopesBehavior (Current (merged_scopes local_example remote_with_scopes))
    = false
  ∧ getAppScopesArray (Current (merged_scopes local_example remote_with_scopes))
    = ["read_products"; "write_orders"].
Proof.
  apply (getAccessScopes_round_trip local_example remote_with_scopes
           (merged_scopes local_example remote_with_scopes)).
  - reflexivity.
  - reflexivity.
  - repeat (apply Forall_cons_2; [split; vm_compute; reflexivity|]). apply Forall_nil_2.
  - discriminate.
Defined.

(** X19. [rewriteConfiguration] does not throw on a configuration of the
    type its schema describes in which nothing is [null] and no array
    holds [undefined], if the schema has no array of objects and the
    property names of its shapes are field names: it returns a value
    that stands for a plain value, which follows the order of the
    schema as far as [rewriteConfiguration] looks into it, that is down
    to its refinements. *)
Theorem rewrite_succeeds (schema : ZodSchema) (c : Value) (σ : Store) :
  shapes_ok schema = true → field_names schema = true → arrays_flat schema = true →
  conforms schema c = true → present c = true →
  ∃ x σ' y, rewrite schema c σ = Some (x, σ')
            ∧ represents (length σ) σ' x y
            ∧ reshape schema c = Some y
            ∧ follows (seen schema) y.
Proof.
  intros Hok _ Hflat Hc Hp.
  pose proof (rewrite_reshape schema c σ Hok Hflat (present_plain c Hp)) as H.
  destruct (reshape_succeeds schema c Hc Hp) as [y Hy]. rewrite Hy in H.
  destruct H as (x & σ' & Hrun & Hrep). exists x, σ', y.
  split; [done|]. split; [done|]. split; [done|]. by eapply reshape_follows_seen.
Qed.

Lemma rewrite_succeeds_witness :
  ∃ x σ' y,
    rewrite AppSchema (mergeAppConfiguration local_example remote_with_scopes) []
    = Some (x, σ')
    ∧ represents (length ([] : Store)) σ' x y
    ∧ reshape AppSchema (mergeAppConfiguration local_example remote_with_scopes) = Some y
    ∧ follows (seen AppSchema) y.
Proof.
  apply (rewrite_succeeds AppSchema
           (mergeAppConfiguration local_example remote_with_scopes) []).
  - vm_compute. reflexivity.
  - vm_compute. reflexivity.
  - vm_compute. reflexivity.
  - vm_compute. reflexivity.
  - vm_compute. reflexivity.
Defined.

(** X20. [mergeAppConfiguration] returns a value of the type that
    [AppSchema] describes, in which nothing is [null] and no array
    holds [undefined]. *)
Theorem mergeAppConfiguration_typed
    (localApp : AppConfiguration) (remoteApp : OrganizationApp) :
  conforms AppSchema (mergeAppConfiguration localApp remoteApp) = true
  ∧ present (mergeAppConfiguration localApp remoteApp) = true.
Proof. apply mergeAppConfiguration_conforms. Qed.

End ConfigurationFacts.

(** * Properties of [link] *)

Module LinkFacts.

Import Js Rewrite RewriteFacts ConfigurationFile Configuration ConfigurationFacts RewriteRuns.

Lemma rewrite_AppSchema_witness :
  ∃ fs, represents (length ([] : Store)) config_example_result.2 config_example_result.1
          (VObject fs)
        ∧ follows (seen AppSchema) (VObject fs)
        ∧ (∀ w, field_of config_example "webhooks" = Some w →
             get "webhooks" fs = if is_empty_value w then VUndefined else w)
        ∧ ∃ x2 σ2, rewrite AppSchema (VObject fs) config_example_result.2 = Some (x2, σ2)
                   ∧ represents (length config_example_result.2) σ2 x2 (VObject fs).
Proof.
  apply (rewrite_AppSchema config_example [] config_example_result.1 config_example_result.2).
  - vm_compute. reflexivity.
  - vm_compute. reflexivity.
Defined.

Lemma merged_webhooks_present localApp remoteApp :
  ∃ w, field_of (mergeAppConfiguration localApp remoteApp) "webhooks" = Some w
       ∧ is_empty_value w = false.
Proof. by eexists. Qed.

Section Link.

Variable encodeToml : Store → Value → string.

(** X21. What [link] does with the configuration it has merged never
    throws, whatever the local and the remote app are:
    [writeAppConfigurationFile] rewrites the value that
    [mergeAppConfiguration] returns and writes the text made from the
    result to the file.  In the result the fields outside [webhooks]
    follow the order of [AppSchema], with no empty object or array
    among them; [webhooks] is under a refinement and is there as
    [mergeAppConfiguration] built it, in its order and not in the
    schema's. *)
Theorem link_writes_merged_configuration (configFilePath : string)
    (localApp : AppConfiguration) (remoteApp : OrganizationApp)
    (files : gmap string string) (σ : Store) :
  ∃ sorted σ' fs,
    writeAppConfigurationFile encodeToml configFilePath
      (mergeAppConfiguration localApp remoteApp) files σ
    = Some (<[configFilePath := file_text (encodeToml σ' sorted)]> files, σ')
    ∧ represents (length σ) σ' sorted (VObject fs)
    ∧ reshape AppSchema (mergeAppConfiguration localApp remoteApp) = Some (VObject fs)
    ∧ follows (seen AppSchema) (VObject fs)
    ∧ Some (get "webhooks" fs) = field_of (mergeAppConfiguration localApp remoteApp) "webhooks".
Proof.
  destruct (mergeAppConfiguration_conforms localApp remoteApp) as [Hc Hp].
  destruct (reshape_succeeds AppSchema _ Hc Hp) as [y Hy].
  pose proof (rewrite_reshape AppSchema (mergeAppConfiguration localApp remoteApp) σ
                eq_refl eq_refl (present_plain _ Hp)) as H.
  rewrite Hy in H. destruct H as (x & σ' & Hrun & Hrep).
  pose proof (reshape_follows_seen AppSchema _ y Hy) as Hf.
  destruct (reshape_AppSchema_webhooks _ y Hy) as (fs & -> & Hw).
  exists x, σ', fs. unfold writeAppConfigurationFile. rewrite Hrun.
  split; [done|]. split; [done|]. split; [done|]. split; [done|].
  destruct (merged_webhooks_present localApp remoteApp) as (w & Hfield & Hne).
  rewrite Hfield, (Hw w Hfield), Hne. done.
Qed.

End Link.

End LinkFacts.

(** * Properties of the function specification *)

Module FunctionSpecificationFacts.

Import Js FunctionSpecification.

Section Files.

Variable joinPath : string → string → string.
Variable files : gmap string string.
Variable settled : list nat.

Local Abbreviation read_target := (read_target joinPath files).
Local Abbreviation deployConfig := (deployConfig joinPath files settled).
Local Abbreviation input_query_missing := (input_query_missing joinPath files).

Lemma read_target_result directory config :
  match read_target directory config with
  | inr t =>
      input_query_missing directory config = false
      ∧ target_handle t = target config ∧ target_export t = export config
  | inl e =>
      input_query_missing directory config = true
      ∧ message e
        = "No input query file at "
          +:+ joinPath directory (str (input_query config)) +:+ "."
  end.
Proof.
  unfold FunctionSpecification.read_target, FunctionSpecification.input_query_missing,
    readInputQuery, fileExists.
  destruct (truthy (input_query config)); [|done].
  destruct (files !! _) as [content|] eqn:Hf; cbn [andb negb].
  - by rewrite bool_decide_true by by eexists.
  - rewrite bool_decide_false; [done|]. by intros [? ?].
Qed.

Lemma first_rejection_elem {A} order (results : list (AbortError + A)) e :
  first_rejection order results = Some e → inl e ∈ results.
Proof.
  induction order as [|i r IH]; [done|]. cbn [first_rejection].
  destruct (results !! i) as [[e'|a]|] eqn:Hi; [|done..].
  intros [= ->]. by eapply list_elem_of_lookup_2.
Qed.

Lemma first_rejection_none {A} (results : list (AbortError + A)) order :
  first_rejection (order ++ seq 0 (length results)) results = None →
  Forall (λ result, ∃ a, result = inr a) results.
Proof.
  intros Hnone. apply Forall_lookup. intros i result Hi.
  destruct result as [e|a]; [|by eexists]. exfalso.
  assert (Hin : i ∈ order ++ seq 0 (length results)).
  { apply elem_of_app. right. apply list_elem_of_In, in_seq.
    apply lookup_lt_Some in Hi. lia. }
  revert Hnone Hin. generalize (order ++ seq 0 (length results)). intros l.
  induction l as [|j r IH]; intros Hnone Hin; [by apply elem_of_nil in Hin|].
  cbn [first_rejection] in Hnone. apply elem_of_cons in Hin as [->|Hin].
  - by rewrite Hi in Hnone.
  - destruct (results !! j) as [[?|?]|]; [done|by apply IH..].
Qed.

Lemma resolved_all {A} (results : list (AbortError + A)) :
  Forall (λ result, ∃ a, result = inr a) results →
  List.map inr (resolved results) = results.
Proof.
  induction 1 as [|result r [a ->] _ IH]; [done|].
  unfold resolved in *. cbn. by rewrite IH.
Qed.

Lemma deployConfig_cases (config : FunctionConfigType)
    (directory apiKey moduleId : string) :
  (∀ e, deployConfig config directory apiKey moduleId = inl e →
     ∃ targeting t, FunctionSpecification.targeting config = Some targeting
       ∧ t ∈ targeting
       ∧ input_query_missing directory t = true
       ∧ message e
         = "No input query file at " +:+ joinPath directory (str (input_query t)) +:+ ".")
  ∧ (∀ result, deployConfig config directory apiKey moduleId = inr result →
       (∀ targeting, FunctionSpecification.targeting config = Some targeting →
          Forall (λ t, input_query_missing directory t = false) targeting)
       ∧ option_map (List.map (λ t, (target_handle t, target_export t))) (targets result)
         = option_map (List.map (λ t, (target t, export t)))
             (FunctionSpecification.targeting config)
       ∧ deploy_input_query result = files !! joinPath directory "input.graphql").
Proof.
  unfold FunctionSpecification.deployConfig.
  assert (Hq : (if fileExists files (joinPath directory "input.graphql")
                then files !! joinPath directory "input.graphql" else None)
               = files !! joinPath directory "input.graphql").
  { unfold fileExists. case_bool_decide as H; [done|].
    destruct (files !! _); [|done]. exfalso. apply H. by eexists. }
  destruct (targeting config) as [targeting|]; [|by split; [|intros ? [= <-]]].
  unfold all.
  destruct (first_rejection _ _) as [e|] eqn:Hfirst; (split; [intros ? [= <-]|intros ? [= <-]]).
  - apply first_rejection_elem, list_elem_of_fmap in Hfirst as (t & Ht & Hin).
    pose proof (read_target_result directory t) as Hr. rewrite <- Ht in Hr.
    destruct Hr as [Hmiss Hmsg]. by exists targeting, t.
  - apply first_rejection_none in Hfirst.
    pose proof (resolved_all _ Hfirst) as Hall.
    split; [|split; [|done]].
    + intros ? [= <-]. apply Forall_forall. intros t Hin.
      rewrite Forall_forall in Hfirst.
      destruct (Hfirst (read_target directory t)) as [a Ha].
      { apply list_elem_of_fmap. by exists t. }
      pose proof (read_target_result directory t) as Hr. rewrite Ha in Hr. by destruct Hr.
    + cbn. f_equal. clear Hfirst. revert Hall.
      generalize (resolved (List.map (read_target directory) targeting)).
      induction targeting as [|t r IH]; intros [|a ts] Hall; try done.
      cbn in Hall. injection Hall as Ha Hts.
      pose proof (read_target_result directory t) as Hr. rewrite <- Ha in Hr.
      destruct Hr as (_ & Hh & He). cbn [List.map]. rewrite Hh, He. f_equal. by apply IH.
Qed.

(** X22. [deployConfig] is rejected exactly when some element of
    [targeting] names an input query file that is not there, and then
    with the error of one such element, which names the file; whether
    [input.graphql] is there has no part in it.  When it resolves, the
    targets are the elements of [targeting] in their order, with their
    handles and exports, and the input query is the content of
    [input.graphql], if there is one. *)
Theorem deployConfig_outcome (config : FunctionConfigType)
    (directory apiKey moduleId : string) :
  (∀ e, deployConfig config directory apiKey moduleId = inl e →
     ∃ targeting t, FunctionSpecification.targeting config = Some targeting
       ∧ t ∈ targeting
       ∧ input_query_missing directory t = true
       ∧ message e
         = "No input query file at " +:+ joinPath directory (str (input_query t)) +:+ ".")
  ∧ (∀ targeting t, FunctionSpecification.targeting config = Some targeting →
       t ∈ targeting → input_query_missing directory t = true →
       ∃ e, deployConfig config directory apiKey moduleId = inl e)
  ∧ (∀ result, deployConfig config directory apiKey moduleId = inr result →
       option_map (List.map (λ t, (target_handle t, target_export t))) (targets result)
       = option_map (List.map (λ t, (target t, export t)))
           (FunctionSpecification.targeting config)
       ∧ deploy_input_query result = files !! joinPath directory "input.graphql").
Proof.
  destruct (deployConfig_cases config directory apiKey moduleId) as [Hrej Hres].
  split; [done|]. split.
  - intros targeting t Ht Hin Hmiss.
    destruct (deployConfig config directory apiKey moduleId) as [e|result] eqn:Hd;
      [by exists e|].
    destruct (Hres result eq_refl) as (Hnone & _). exfalso.
    specialize (Hnone targeting Ht). rewrite Forall_forall in Hnone.
    rewrite (Hnone t Hin) in Hmiss. done.
  - intros result Hr. by destruct (Hres result Hr) as (_ & ? & ?).
Qed.

End Files.

End FunctionSpecificationFacts.
